(** * g-player: the Stardust player control surface

    A shallow embedding of [src/stardust-player.js] (and of the older
    generations kept in [src/gplayer.js]) together with the properties of
    its time formatter, thumbnail sampler and cache, gesture mapper,
    subtitle resolver and pointer/timer state machine, and of its helpers:
    the element builder, the SubRip parser and the attribute callback.

    Conventions of the embedding.
    - A JavaScript number that holds a time in seconds or a pixel
      coordinate is the rational ([Q]) it denotes; values are compared
      with [==].  A value that is not a finite number ([NaN],
      [Infinity], [undefined] read as a number) is [None] in an
      [option Q].  The seek bar and the handlers of the player are
      followed with the expressions of the code taken over the
      rationals; where a property hangs on the rounding of the host's
      arithmetic (the time formatter, the timecodes of a render) the
      rounding is written out ([Double]).
    - [Date.now()] and timer delays are integers of milliseconds ([Z]).
    - The class list of the player element is a handful of booleans, one
      per class the code reads or writes.
    - The host's timer queue ([setTimeout]/[clearTimeout]) is an explicit
      list of pending timers; a timer may fire at any moment at or after
      its due time, never before.
    - What the host does behind the DOM interfaces (the media element's
      [currentTime] setter, [Array.prototype.sort]) is written out from
      the standards the code runs against and is marked as such. *)

From Stdlib Require Import ZArith QArith Qround Qminmax Qabs Qpower.
From Stdlib Require Import Lia Lqa List Bool.
From Stdlib Require Import String Ascii DecimalString.
From Stdlib Require DecimalPos.
Import ListNotations.

Set Implicit Arguments.
Close Scope Q_scope.

(** * Part I. The program *)

(** ** Numbers *)

Module Num.

Local Open Scope Q_scope.

(** [function clamp(min, n, max) { return Math.min(Math.max(n, min), max) }] *)
Definition clamp (min n max : Q) : Q := Qmin (Qmax n min) max.

(** [a / b] on doubles: a zero divisor yields [NaN] or an infinity. *)
Definition div (a b : Q) : option Q :=
  if Qeq_bool b 0 then None else Some (a / b).

(** [a >= b], [a < b], ... as the booleans JavaScript computes. *)
Definition geb (a b : Q) : bool := Qle_bool b a.
Definition leb (a b : Q) : bool := Qle_bool a b.
Definition ltb (a b : Q) : bool := negb (Qle_bool b a).
Definition gtb (a b : Q) : bool := negb (Qle_bool a b).

End Num.

(** ** Rounding to a double *)

(** The arithmetic of the host is that of IEEE 754 binary64: every
    operation yields the double nearest to the exact result, the one with
    an even last bit when two are equally near.  A double is the rational
    number it denotes; [round] is written for results of magnitude below
    [2^1024], where no operation overflows to an infinity. *)
Module Double.

Local Open Scope Q_scope.

(** The integer part of the binary logarithm of a positive number. *)
Definition ilog2 (q : Q) : Z :=
  let e := (Z.log2 (Qnum q) - Z.log2 (Zpos (Qden q)))%Z in
  if Qle_bool (2 ^ e) q then e else (e - 1)%Z.

(** The exponent of the last place of the doubles next to [q]: 53
    significant bits, and no bit below [2^-1074]. *)
Definition exponent (q : Q) : Z := Z.max (ilog2 (Qabs q) - 52) (-1074).

(** The nearest integer, the even one of two that are equally near. *)
Definition nearestEven (x : Q) : Z :=
  let f := Qfloor x in
  match Qcompare (x - inject_Z f) (1 # 2) with
  | Lt => f
  | Gt => (f + 1)%Z
  | Eq => if Z.even f then f else (f + 1)%Z
  end.

(** The double nearest to [q]. *)
Definition round (q : Q) : Q :=
  inject_Z (nearestEven (q / 2 ^ exponent q)) * 2 ^ exponent q.

(** [a + b], [a - b], [a * b] and [a / b] (for [b] other than zero) on
    doubles. *)
Definition add (a b : Q) : Q := round (a + b).
Definition sub (a b : Q) : Q := round (a - b).
Definition mul (a b : Q) : Q := round (a * b).
Definition div (a b : Q) : Q := round (a / b).

(** The finite doubles: a significand of at most 53 bits and an exponent
    between -1074 and 971. *)
Definition finite (q : Q) : Prop :=
  exists m c : Z,
    (Z.abs m < 2 ^ 53)%Z /\ (-1074 <= c <= 971)%Z /\ q == inject_Z m * 2 ^ c.

End Double.

(** ** The time formatter *)

Module FormatTime.

Local Open Scope Q_scope.
Local Open Scope string_scope.

(** The decimal numeral of an integer, with a leading minus sign for a
    negative one. *)
Definition ToString (n : Z) : string := NilZero.string_of_int (Z.to_int n).

(** The filler of [String.prototype.padStart]: [n] characters taken from
    [fill] repeated as often as needed. *)
Fixpoint filler (n : nat) (fill rest : string) : string :=
  match n with
  | O => ""
  | S k =>
      match rest with
      | String c r => String c (filler k fill r)
      | EmptyString =>
          match fill with
          | String c r => String c (filler k fill r)
          | EmptyString => ""
          end
      end
  end.

(** [s.padStart(targetLength, padString)] *)
Definition padStart (targetLength : nat) (padString s : string) : string :=
  if (targetLength <=? String.length s)%nat then s
  else filler (targetLength - String.length s) padString padString ++ s.

(** The number of digits of the decimal numeral of a positive integer. *)
Definition decimalDigits (x : Z) : nat := String.length (ToString x).

(** Whether the decimal [v] is read as the double [x]. *)
Definition readsBack (v x : Z) : bool :=
  Qeq_bool (Double.round (inject_Z v)) (inject_Z x).

(** The decimal of the fewest significant digits that is read as the
    double [x], a positive integer: of two with as few digits the one
    nearer to [x], and of two equally near the one whose last significant
    digit is even (ECMAScript, [Number::toString]).  [k] significant digits
    are tried once fewer have failed; the two decimals of [k] digits next
    to [x] are the only ones to try. *)
Fixpoint shortest (fuel k : nat) (x : Z) : Z :=
  match fuel with
  | O => x
  | S fuel' =>
      let scale := (10 ^ Z.of_nat (decimalDigits x - k))%Z in
      let low := (x / scale)%Z in
      let below := (low * scale)%Z in
      let above := ((low + 1) * scale)%Z in
      match readsBack below x, readsBack above x with
      | true, true =>
          match (x - below ?= above - x)%Z with
          | Lt => below
          | Gt => above
          | Eq => if Z.even low then below else above
          end
      | true, false => below
      | false, true => above
      | false, false => shortest fuel' (S k) x
      end
  end.

(** A numeral without the zeros it ends in. *)
Fixpoint significant (s : string) : string :=
  match s with
  | String c rest =>
      match significant rest with
      | EmptyString => if (c =? "0")%char then "" else String c ""
      | kept => String c kept
      end
  | EmptyString => s
  end.

(** A decimal of more than 21 digits as the host prints it: the first
    digit, the further significant digits after a point, and the
    exponent. *)
Definition exponential (v : Z) : string :=
  match significant (ToString v) with
  | String d EmptyString => String d "" ++ "e+" ++ ToString (Z.of_nat (decimalDigits v - 1))
  | String d more =>
      String d "" ++ "." ++ more ++ "e+" ++ ToString (Z.of_nat (decimalDigits v - 1))
  | EmptyString => ""
  end.

(** [String(n)] for a double [n] that is a whole number.  Up to [2^53]
    every whole number is a double and is printed as its decimal numeral;
    a larger one is printed as the shortest decimal that is read as the
    same double, with an exponent from [10^21] on. *)
Definition NumberToString (n : Z) : string :=
  if (Z.abs n <=? 2 ^ 53)%Z then ToString n
  else
    let v := shortest (decimalDigits (Z.abs n)) 1 (Z.abs n) in
    (if (n <? 0)%Z then "-" else "")
    ++ (if (v <? 10 ^ 21)%Z then ToString v else exponential v).

(** [formatTime(time)], both in [stardust-player.js] and in every
    generation of [gplayer.js], for a [time] that is a double.  The
    quotients, products and differences are those of the host, each rounded
    to a double; [Math.floor] of a double is exact.  The test
    [hours ? .. : ..] takes the first branch exactly when [hours] is not
    zero. *)
Definition formatTime (time : Q) : string :=
  let hours := Qfloor (Double.div time 3600) in
  let minutes :=
    Qfloor (Double.div (Double.sub time (Double.mul (inject_Z hours) 3600)) 60) in
  let seconds :=
    Qfloor (Double.sub (Double.sub time (Double.mul (inject_Z hours) 3600))
                       (Double.mul (inject_Z minutes) 60)) in
  if negb (hours =? 0)%Z
  then NumberToString hours ++ ":" ++ padStart 2 "0" (NumberToString minutes)
         ++ ":" ++ padStart 2 "0" (NumberToString seconds)
  else NumberToString minutes ++ ":" ++ padStart 2 "0" (NumberToString seconds).

(** The three fields as the same expressions give them over the real
    numbers, with nothing rounded. *)
Definition fields (time : Q) : Z * Z * Z :=
  let hours := Qfloor (time / 3600) in
  let minutes := Qfloor ((time - inject_Z hours * 3600) / 60) in
  let seconds := Qfloor (time - inject_Z hours * 3600 - inject_Z minutes * 60) in
  (hours, minutes, seconds).

(** [t mod m] on non-negative reals: what is left of [t] after removing
    whole multiples of [m]. *)
Definition Qmod (t : Q) (m : Z) : Q :=
  (t - inject_Z m * inject_Z (Qfloor (t / inject_Z m)))%Q.

(** The character of a decimal digit. *)
Definition digit (d : Z) : ascii := ascii_of_nat (48 + Z.to_nat d).

(** A field written with exactly two decimal digits. *)
Definition two_digits (n : Z) : string :=
  String (digit (n / 10)) (String (digit (n mod 10)) "").

End FormatTime.

(** ** [Array.prototype.sort] as the host implements it *)

Module HostSort.

(** The comparator is called, its result converted with [ToNumber] (so
    [true] is [1] and [false] is [0]) and handed to the host's sorting
    algorithm.  ECMAScript leaves the resulting order to the implementation
    when the comparator is not a consistent ordering, so the algorithm has
    to be written down.  This is V8's (Chrome, Edge, Node.js:
    [third_party/v8/builtins/array-sort.tq]): find the run that starts the
    array, reversing it when it descends, and extend it to the minimal run
    length by binary insertion.  For an array of fewer than 64 elements the
    minimal run length is the length of the array, so that is the whole
    sort; longer arrays are cut into several runs that are merged, which
    happens only when the first run does not already span the array.  Every
    decision the algorithm takes is of the form [order < 0]. *)

Section Sort.
Variable A : Type.
Variable comparefn : A -> A -> Z.

(** The loop of [CountAndMakeRun]: how many of the elements after
    [previousElement] continue the run. *)
Fixpoint runTail (isDescending : bool) (previousElement : A) (l : list A) : nat :=
  match l with
  | [] => 0
  | currentElement :: rest =>
      let order := comparefn currentElement previousElement in
      if isDescending
      then (if (order <? 0)%Z then S (runTail isDescending currentElement rest) else 0)
      else (if (order <? 0)%Z then 0 else S (runTail isDescending currentElement rest))
  end.

(** [CountAndMakeRun(0, length)]: the length of the first run and the array
    with that run made ascending. *)
Definition CountAndMakeRun (a : list A) : nat * list A :=
  match a with
  | [] => (0, a)
  | [_] => (1, a)
  | elementHigh :: elementLow :: rest =>
      let order := comparefn elementLow elementHigh in
      let isDescending := (order <? 0)%Z in
      let runLength := 2 + runTail isDescending elementLow rest in
      (runLength,
       if isDescending then rev (firstn runLength a) ++ skipn runLength a else a)
  end.

(** The binary search of [BinaryInsertionSort]: where [pivot] belongs in
    the sorted prefix [a[left .. right)].  The interval halves at every
    turn; [fuel] bounds the number of turns. *)
Fixpoint searchSlot (fuel : nat) (a : list A) (pivot : A) (left right : nat) : nat :=
  match fuel with
  | O => left
  | S fuel' =>
      if (left <? right)%nat then
        let mid := (left + (right - left) / 2)%nat in
        match nth_error a mid with
        | Some x =>
            if (comparefn pivot x <? 0)%Z
            then searchSlot fuel' a pivot left mid
            else searchSlot fuel' a pivot (mid + 1) right
        | None => left
        end
      else left
  end.

(** Move [a[left .. start)] one place up and put [pivot] at [left]. *)
Definition placeAt (a : list A) (left start : nat) (pivot : A) : list A :=
  firstn left a ++ pivot :: firstn (start - left) (skipn left a) ++ skipn (S start) a.

(** [BinaryInsertionSort(0, start, start + count)] *)
Fixpoint BinaryInsertionSort (count : nat) (a : list A) (start : nat) : list A :=
  match count with
  | O => a
  | S count' =>
      match nth_error a start with
      | Some pivot =>
          let left := searchSlot (S start) a pivot 0 start in
          BinaryInsertionSort count' (placeAt a left start pivot) (S start)
      | None => a
      end
  end.

(** [a.sort(comparefn)], returning the sorted array. *)
Definition sort (a : list A) : list A :=
  if (List.length a <? 2)%nat then a
  else
    let '(runLength, a') := CountAndMakeRun a in
    BinaryInsertionSort (List.length a - runLength) a' runLength.

End Sort.

End HostSort.

(** ** The thumbnail sampler and its cache *)

Module Thumbnails.

Local Open Scope Q_scope.

Section Sampler.

(** What [canvas.toDataURL] returns, and the picture the off-DOM decoder
    shows once it has been sought to a timecode. *)
Variable Image : Type.
Variable capture : Q -> Image.

(** An entry of [#seekBarPreviewImages]. *)
Record Frame := { timecode : Q; image : Image }.

(** [(a, b) => a.timecode > b.timecode], after [ToNumber]. *)
Definition byTimecode (a b : Frame) : Z :=
  if Num.gtb (timecode a) (timecode b) then 1%Z else 0%Z.

(** The comparator that yields a negative, zero or positive number. *)
Definition byTimecodeSigned (a b : Frame) : Z :=
  match Qcompare (timecode a) (timecode b) with Lt => (-1)%Z | Eq => 0%Z | Gt => 1%Z end.

(** The host's [sort] and the comparator handed to it. *)
Variable sort : (Frame -> Frame -> Z) -> list Frame -> list Frame.
Variable comparefn : Frame -> Frame -> Z.

(** [#seekbarPreviewImages], and the timecodes the off-DOM video was sought
    to, oldest first. *)
Record Sampler := { cache : list Frame; seeks : list Q }.

(** [renderAndApplyPreviewImage(timecode)], once the awaited frame is there:
    push the frame and sort.  A render that is kept waiting for a frame is
    followed in [Render]. *)
Definition renderAndApplyPreviewImage (s : Sampler) (t : Q) : Sampler :=
  {| cache := sort comparefn (cache s ++ [ {| timecode := t; image := capture t |} ]);
     seeks := seeks s ++ [t] |}.

(** [for (let t = firstTimecode; t < duration; t += firstTimecode * 2)],
    the sum taken over the rationals (it is exact for the durations of
    [ThumbnailsClaims]; [Render] rounds it); [None] when [fuel] turns were
    not enough to leave the loop. *)
Fixpoint row (fuel : nat) (duration firstTimecode t : Q) (s : Sampler) : option Sampler :=
  match fuel with
  | O => None
  | S fuel' =>
      if Num.ltb t duration
      then row fuel' duration firstTimecode (t + firstTimecode * 2)
               (renderAndApplyPreviewImage s t)
      else Some s
  end.

(** [for (let i = ...; i <= previewImageIterations; i++)], with [n] turns
    left to go. *)
Fixpoint rows (fuel : nat) (duration : Q) (n : nat) (i : Z) (s : Sampler) : option Sampler :=
  match n with
  | O => Some s
  | S n' =>
      let firstTimecode := duration / inject_Z (2 ^ i) in
      match row fuel duration firstTimecode firstTimecode s with
      | Some s' => rows fuel duration n' (i + 1) s'
      | None => None
      end
  end.

(** [#renderSeekBarPreviewImages()] for a video of the given duration. *)
Definition renderSeekBarPreviewImages
    (fuel : nat) (duration : Q) (previewImageIterations : nat) : option Sampler :=
  rows fuel duration previewImageIterations 1
       (renderAndApplyPreviewImage {| cache := []; seeks := [] |} duration).

(** The popover part of [animationLoop]: both seek bars take the image of
    the first frame at or after [#seekBarPreviewTimecode]. The timecode is
    [None] while it is [undefined] or [NaN]; every comparison with it is
    then false. *)
Definition atOrAfter (query : option Q) (frame : Frame) : bool :=
  match query with
  | Some q => Num.geb (timecode frame) q
  | None => false
  end.

(** The loop of [animationLoop] over the cache: the first frame at or after
    the preview timecode gives both seek bars their preview image, and the
    loop stops there. *)
Fixpoint popoverLoop (frames : list Frame) (query : option Q)
    (previewImageSrc : Image * Image) : Image * Image :=
  match frames with
  | [] => previewImageSrc
  | frame :: rest =>
      if atOrAfter query frame then (image frame, image frame)
      else popoverLoop rest query previewImageSrc
  end.

(** [updateseekBarPopover(timecode)] of [gplayer.js]: the same scan, one
    preview image. *)
Fixpoint updateseekBarPopover (frames : list Frame) (query : option Q)
    (seekBarPreviewSrc : Image) : Image :=
  match frames with
  | [] => seekBarPreviewSrc
  | frame :: rest =>
      if atOrAfter query frame then image frame
      else updateseekBarPopover rest query seekBarPreviewSrc
  end.

(** The lookup both scans perform. *)
Definition nearestAtOrAfter (frames : list Frame) (query : option Q) : option Frame :=
  find (atOrAfter query) frames.

End Sampler.

(** The sampling schedule in words: the duration, then for [i = 1 .. K] the
    odd multiples of [D / 2^i] below [D]. *)
Definition oddMultiples (D : Q) (i : nat) : list Q :=
  map (fun j => inject_Z (2 * Z.of_nat j + 1) * (D / inject_Z (2 ^ Z.of_nat i)))
      (seq 0 (2 ^ (i - 1))).

(** The whole schedule for [K] iterations. *)
Definition schedule (D : Q) (K : nat) : list Q :=
  D :: flat_map (oddMultiples D) (seq 1 K).

(** Ascending order of timecodes. *)
Fixpoint ascending (l : list Q) : Prop :=
  match l with
  | [] => True
  | x :: r => match r with [] => True | y :: _ => x <= y end /\ ascending r
  end.

End Thumbnails.

(** ** A render that waits for its frames *)

(** [#renderSeekBarPreviewImages] followed through its [await]s.  Each call
    of [renderAndApplyPreviewImage] seeks the off-DOM video and then waits,
    polling [video.readyState], for the frame; nothing bounds the wait, so
    the render may stay at any of its [await]s for good.  [arrivals] is the
    number of awaited frames that do arrive: what the render leaves in
    [#seekbarPreviewImages] is followed for every such number.  The
    timecodes are computed as the host does, in doubles.  One render is
    followed, running alone: the array is the one it creates when it
    starts. *)
Module Render.
Import Thumbnails.

Local Open Scope Q_scope.

Section Sampler.
Variable Image : Type.
Variable capture : Q -> Image.
Variable sort : (Frame Image -> Frame Image -> Z) -> list (Frame Image) -> list (Frame Image).
Variable comparefn : Frame Image -> Frame Image -> Z.

(** [video.currentTime = timecode], after which the render waits. *)
Definition seek (s : Sampler Image) (timecode : Q) : Sampler Image :=
  {| cache := cache s; seeks := seeks s ++ [timecode] |}.

(** The frame is there: [push] it and [sort]. *)
Definition push (s : Sampler Image) (timecode : Q) : Sampler Image :=
  {| cache := sort comparefn (cache s ++ [ {| timecode := timecode; image := capture timecode |} ]);
     seeks := seeks s |}.

(** [renderAndApplyPreviewImage(timecode)] whose frame arrives. *)
Definition renderAndApplyPreviewImage (s : Sampler Image) (timecode : Q) : Sampler Image :=
  push (seek s timecode) timecode.

(** [for (let t = firstTimecode; t < duration; t += firstTimecode * 2)].
    The result holds the arrivals left when the loop is left, or [None]
    when the render is still waiting for a frame. *)
Fixpoint row (arrivals : nat) (duration firstTimecode t : Q) (s : Sampler Image)
    : option nat * Sampler Image :=
  if Num.ltb t duration then
    match arrivals with
    | O => (None, seek s t)
    | S arrivals' =>
        row arrivals' duration firstTimecode
            (Double.add t (Double.mul firstTimecode 2))
            (renderAndApplyPreviewImage s t)
    end
  else (Some arrivals, s).

(** [for (let i = ...; i <= previewImageIterations; i++)], with [n] turns
    left to go; [firstTimecode] is [duration / Math.pow(2, i)]. *)
Fixpoint rows (n arrivals : nat) (duration : Q) (i : Z) (s : Sampler Image)
    : option nat * Sampler Image :=
  match n with
  | O => (Some arrivals, s)
  | S n' =>
      let firstTimecode := Double.div duration (inject_Z (2 ^ i)) in
      match row arrivals duration firstTimecode firstTimecode s with
      | (Some arrivals', s') => rows n' arrivals' duration (i + 1) s'
      | (None, s') => (None, s')
      end
  end.

(** [#renderSeekBarPreviewImages()] for a video of the given duration: the
    array is emptied, the frame at the duration is rendered first. *)
Definition renderSeekBarPreviewImages
    (arrivals : nat) (duration : Q) (previewImageIterations : nat)
    : option nat * Sampler Image :=
  let s := {| cache := []; seeks := [] |} in
  match arrivals with
  | O => (None, seek s duration)
  | S arrivals' =>
      rows previewImageIterations arrivals' duration 1
           (renderAndApplyPreviewImage s duration)
  end.

(** [#seekbarPreviewImages] and the seeks made, once [arrivals] frames have
    arrived. *)
Definition after (arrivals : nat) (duration : Q) (previewImageIterations : nat)
    : Sampler Image :=
  snd (renderSeekBarPreviewImages arrivals duration previewImageIterations).

End Sampler.

End Render.

(** ** The seek bar: scrubbing and preview *)

Module SeekBar.

Local Open Scope Q_scope.

(** What the handlers read off the layout: [getBoundingClientRect()] of the
    seek bar, its [offsetWidth] and [offsetHeight], and the rendered width of
    the preview image. *)
Record Layout := {
  left : Q;
  width : Q;
  offsetWidth : Z;
  offsetHeight : Z;
  previewWidth : Q
}.

(** The events the seek bar dispatches; a time that is not a finite number
    is [None]. *)
Inductive Intent :=
| timechange (time : option Q)
| previewtimechange (time : option Q)
| seekingchange (seeking : bool).

(** [this.videoElement.duration * (e.clientX - left) / width] *)
Definition scrubTime (duration : option Q) (clientX : Q) (l : Layout) : option Q :=
  match duration with
  | Some d => Num.div (d * (clientX - left l)) (width l)
  | None => None
  end.

(** [updateScrubbing(e)] *)
Definition updateScrubbing (scrubbing : bool) (duration : option Q) (clientX : Q)
    (l : Layout) : list Intent :=
  if negb scrubbing then []
  else [timechange (scrubTime duration clientX l)].

(** The [pointerdown] listener of the click area. *)
Definition clickAreaPointerDown (duration : option Q) (clientX : Q) (l : Layout)
    : bool * list Intent :=
  (true, updateScrubbing true duration clientX l ++ [seekingchange true]).

(** The [pointerup] listener on the document. *)
Definition documentPointerUp (scrubbing : bool) (duration : option Q) (clientX : Q)
    (l : Layout) : bool * list Intent :=
  if negb scrubbing then (scrubbing, [])
  else (false, updateScrubbing false duration clientX l ++ [seekingchange false]).

(** [clamp(0, e.clientX - left, width) / width * this.videoElement.duration] *)
Definition previewTime (duration : option Q) (clientX : Q) (l : Layout) : option Q :=
  match Num.div (Num.clamp 0 (clientX - left l) (width l)) (width l), duration with
  | Some fraction, Some d => Some (fraction * d)
  | _, _ => None
  end.

(** Where the popover goes: under the pointer, kept inside the bar by half
    the width of the preview image. *)
Definition popoverLeft (clientX : Q) (l : Layout) : Q :=
  let pos := clientX - left l in
  let pos := if Num.ltb pos (previewWidth l / 2) then previewWidth l / 2 else pos in
  if Num.gtb pos (width l - previewWidth l / 2) then width l - previewWidth l / 2 else pos.

(** What a pointer move over the click area changes: the intent emitted,
    the [left] of the popover and the text of its timecode. *)
Record PreviewUpdate := {
  intent : Intent;
  popoverStyleLeft : Q;
  timecodeText : string
}.

(** The second [pointermove] listener on the document; [None] when it
    returns before doing anything. *)
Definition previewPointerMove (duration : option Q) (clientX : Q) (l : Layout)
    : option PreviewUpdate :=
  if (offsetWidth l + offsetHeight l =? 0)%Z then None
  else
    let t := previewTime duration clientX l in
    Some {| intent := previewtimechange t;
            popoverStyleLeft := popoverLeft clientX l;
            timecodeText := match t with
                            | Some t => FormatTime.formatTime t
                            | None => "NaN:NaN"%string
                            end |}.

(** The fraction of the bar left of the pointer, as the specification words
    it. *)
Definition fraction (clientX : Q) (l : Layout) : Q :=
  Num.clamp 0 (clientX - left l) (width l) / width l.

End SeekBar.

(** ** Subtitles *)

Module Subtitles.

Local Open Scope Q_scope.

(** An entry of [parseSRT]'s result. *)
Record Subtitle := { start : Q; end_ : Q; text : string }.

(** [subtitleContainer]: its markup, and how often it has been assigned.
    The container is taken to give back the markup it was last given. *)
Record Container := { innerHTML : string; assignments : nat }.

Section Resolver.

(** [text => DOMPurify.sanitize(marked.parse(text))] *)
Variable render : string -> string.

(** [currentTime >= subtitle.start && currentTime < subtitle.end] *)
Definition shown (currentTime : Q) (subtitle : Subtitle) : bool :=
  Num.geb currentTime (start subtitle) && Num.ltb currentTime (end_ subtitle).

(** [for (const subtitle of this.#subtitleObjects) { if (..) { newSubtitles = ..; break } }] *)
Fixpoint subtitleLoop (subtitleObjects : list Subtitle) (currentTime : Q)
    (newSubtitles : string) : string :=
  match subtitleObjects with
  | [] => newSubtitles
  | subtitle :: rest =>
      if shown currentTime subtitle then render (text subtitle)
      else subtitleLoop rest currentTime newSubtitles
  end.

(** The value of [newSubtitles] at the end of a pass. [#subtitleObjects] is
    [None] until a track has been fetched; iterating over it then throws,
    which is the [None] of the result. *)
Definition newSubtitles (subtitles : bool) (subtitleObjects : option (list Subtitle))
    (currentTime : Q) : option string :=
  if subtitles then
    match subtitleObjects with
    | Some objects => Some (subtitleLoop objects currentTime ""%string)
    | None => None
    end
  else Some ""%string.

(** [if (subtitleContainer.innerHTML != newSubtitles) subtitleContainer.innerHTML = newSubtitles] *)
Definition assign (c : Container) (markup : string) : Container :=
  if String.eqb (innerHTML c) markup then c
  else {| innerHTML := markup; assignments := S (assignments c) |}.

(** The subtitle part of one pass of [animationLoop]. *)
Definition animationLoopSubtitles (subtitles : bool)
    (subtitleObjects : option (list Subtitle)) (currentTime : Q) (c : Container)
    : option Container :=
  match newSubtitles subtitles subtitleObjects currentTime with
  | Some markup => Some (assign c markup)
  | None => None
  end.

End Resolver.

(** The entry a pass resolves, in the specification's words: the first one
    whose half-open interval holds the current time. *)
Definition resolve (subtitleObjects : list Subtitle) (currentTime : Q) : option Subtitle :=
  find (shown currentTime) subtitleObjects.

(** A track of two adjacent entries. *)
Definition ab : list Subtitle :=
  [ {| start := 0; end_ := 2; text := "a" |};
    {| start := 2; end_ := 4; text := "b" |} ].

End Subtitles.

(** ** The player: pointer, keyboard and timer handlers *)

Module Options.

(** [this.options] *)
Record t := {
  doubleClickDuration : Z;
  doubleTapJumpDuration : Z;
  doubleTapJumpDistance : Q;
  doubleTapJumpScreenPortion : Q;
  hideControlsTimeout : Z;
  hideControlsTimeoutMobile : Z
}.

(** The values the constructor of [StardustPlayer] sets. *)
Definition defaults : t :=
  {| doubleClickDuration := 250;
     doubleTapJumpDuration := 250;
     doubleTapJumpDistance := 5%Q;
     doubleTapJumpScreenPortion := (3 # 10)%Q;
     hideControlsTimeout := 1500;
     hideControlsTimeoutMobile := 3000 |}.

End Options.

Module Player.

Local Open Scope Q_scope.

(** The callbacks handed to [setTimeout], named after what they do. *)
Inductive Callback := hideControls | playPause | tapJump | removeNoClick.

(** A pending timer of the host: its handle, the time from which it may
    run, and what it runs. *)
Record Timer := { handle : nat; due : Z; callback : Callback }.

(** What the handlers do that leaves the player object: calls of its public
    toggles, and calls and assignments on the video element. Newest
    first. *)
Inductive Effect :=
| callTogglePaused
| callToggleFullscreen
| callToggleMute
| callToggleSubtitles
| videoPlay
| videoPause
| assignCurrentTime (value : option Q).

(** The player element: [this.options], [Date.now()], the private fields,
    the classes [controls-hidden], [no-click] and [mobile], the position and
    duration of the video element, the variables the handlers close over,
    the host's pending timers and next timer handle, and the effects so
    far. *)
Record State := {
  options : Options.t;
  now : Z;
  paused : bool;
  muted : bool;
  subtitles : bool;
  fullscreen : bool;
  ended : bool;
  seekBarPreviewTimecode : option Q;
  controlsHidden : bool;
  noClick : bool;
  mobile : bool;
  currentTime : Q;
  duration : option Q;
  lastClickTime : Z;
  lastTapTime : Z;
  hideControlsTimeout : option nat;
  playPauseTimeout : option nat;
  tapJumpTimeout : option nat;
  timers : list Timer;
  nextTimerId : nat;
  effects : list Effect
}.

(** Assignment to one field, the others kept. *)
Definition with_now (v : Z) (s : State) : State :=
  Build_State (options s) v (paused s) (muted s) (subtitles s)
    (fullscreen s) (ended s) (seekBarPreviewTimecode s) (controlsHidden s)
    (noClick s) (mobile s) (currentTime s) (duration s) (lastClickTime s)
    (lastTapTime s) (hideControlsTimeout s) (playPauseTimeout s)
    (tapJumpTimeout s) (timers s) (nextTimerId s) (effects s).

Definition with_paused (v : bool) (s : State) : State :=
  Build_State (options s) (now s) v (muted s) (subtitles s) (fullscreen s)
    (ended s) (seekBarPreviewTimecode s) (controlsHidden s) (noClick s)
    (mobile s) (currentTime s) (duration s) (lastClickTime s)
    (lastTapTime s) (hideControlsTimeout s) (playPauseTimeout s)
    (tapJumpTimeout s) (timers s) (nextTimerId s) (effects s).

Definition with_muted (v : bool) (s : State) : State :=
  Build_State (options s) (now s) (paused s) v (subtitles s) (fullscreen s)
    (ended s) (seekBarPreviewTimecode s) (controlsHidden s) (noClick s)
    (mobile s) (currentTime s) (duration s) (lastClickTime s)
    (lastTapTime s) (hideControlsTimeout s) (playPauseTimeout s)
    (tapJumpTimeout s) (timers s) (nextTimerId s) (effects s).

Definition with_subtitles (v : bool) (s : State) : State :=
  Build_State (options s) (now s) (paused s) (muted s) v (fullscreen s)
    (ended s) (seekBarPreviewTimecode s) (controlsHidden s) (noClick s)
    (mobile s) (currentTime s) (duration s) (lastClickTime s)
    (lastTapTime s) (hideControlsTimeout s) (playPauseTimeout s)
    (tapJumpTimeout s) (timers s) (nextTimerId s) (effects s).

Definition with_fullscreen (v : bool) (s : State) : State :=
  Build_State (options s) (now s) (paused s) (muted s) (subtitles s) v
    (ended s) (seekBarPreviewTimecode s) (controlsHidden s) (noClick s)
    (mobile s) (currentTime s) (duration s) (lastClickTime s)
    (lastTapTime s) (hideControlsTimeout s) (playPauseTimeout s)
    (tapJumpTimeout s) (timers s) (nextTimerId s) (effects s).

Definition with_ended (v : bool) (s : State) : State :=
  Build_State (options s) (now s) (paused s) (muted s) (subtitles s)
    (fullscreen s) v (seekBarPreviewTimecode s) (controlsHidden s)
    (noClick s) (mobile s) (currentTime s) (duration s) (lastClickTime s)
    (lastTapTime s) (hideControlsTimeout s) (playPauseTimeout s)
    (tapJumpTimeout s) (timers s) (nextTimerId s) (effects s).

Definition with_seekBarPreviewTimecode (v : option Q) (s : State) : State :=
  Build_State (options s) (now s) (paused s) (muted s) (subtitles s)
    (fullscreen s) (ended s) v (controlsHidden s) (noClick s) (mobile s)
    (currentTime s) (duration s) (lastClickTime s) (lastTapTime s)
    (hideControlsTimeout s) (playPauseTimeout s) (tapJumpTimeout s)
    (timers s) (nextTimerId s) (effects s).

Definition with_controlsHidden (v : bool) (s : State) : State :=
  Build_State (options s) (now s) (paused s) (muted s) (subtitles s)
    (fullscreen s) (ended s) (seekBarPreviewTimecode s) v (noClick s)
    (mobile s) (currentTime s) (duration s) (lastClickTime s)
    (lastTapTime s) (hideControlsTimeout s) (playPauseTimeout s)
    (tapJumpTimeout s) (timers s) (nextTimerId s) (effects s).

Definition with_noClick (v : bool) (s : State) : State :=
  Build_State (options s) (now s) (paused s) (muted s) (subtitles s)
    (fullscreen s) (ended s) (seekBarPreviewTimecode s) (controlsHidden s) v
    (mobile s) (currentTime s) (duration s) (lastClickTime s)
    (lastTapTime s) (hideControlsTimeout s) (playPauseTimeout s)
    (tapJumpTimeout s) (timers s) (nextTimerId s) (effects s).

Definition with_currentTime (v : Q) (s : State) : State :=
  Build_State (options s) (now s) (paused s) (muted s) (subtitles s)
    (fullscreen s) (ended s) (seekBarPreviewTimecode s) (controlsHidden s)
    (noClick s) (mobile s) v (duration s) (lastClickTime s) (lastTapTime s)
    (hideControlsTimeout s) (playPauseTimeout s) (tapJumpTimeout s)
    (timers s) (nextTimerId s) (effects s).

Definition with_duration (v : option Q) (s : State) : State :=
  Build_State (options s) (now s) (paused s) (muted s) (subtitles s)
    (fullscreen s) (ended s) (seekBarPreviewTimecode s) (controlsHidden s)
    (noClick s) (mobile s) (currentTime s) v (lastClickTime s)
    (lastTapTime s) (hideControlsTimeout s) (playPauseTimeout s)
    (tapJumpTimeout s) (timers s) (nextTimerId s) (effects s).

Definition with_lastClickTime (v : Z) (s : State) : State :=
  Build_State (options s) (now s) (paused s) (muted s) (subtitles s)
    (fullscreen s) (ended s) (seekBarPreviewTimecode s) (controlsHidden s)
    (noClick s) (mobile s) (currentTime s) (duration s) v (lastTapTime s)
    (hideControlsTimeout s) (playPauseTimeout s) (tapJumpTimeout s)
    (timers s) (nextTimerId s) (effects s).

Definition with_lastTapTime (v : Z) (s : State) : State :=
  Build_State (options s) (now s) (paused s) (muted s) (subtitles s)
    (fullscreen s) (ended s) (seekBarPreviewTimecode s) (controlsHidden s)
    (noClick s) (mobile s) (currentTime s) (duration s) (lastClickTime s) v
    (hideControlsTimeout s) (playPauseTimeout s) (tapJumpTimeout s)
    (timers s) (nextTimerId s) (effects s).

Definition with_hideControlsTimeout (v : option nat) (s : State) : State :=
  Build_State (options s) (now s) (paused s) (muted s) (subtitles s)
    (fullscreen s) (ended s) (seekBarPreviewTimecode s) (controlsHidden s)
    (noClick s) (mobile s) (currentTime s) (duration s) (lastClickTime s)
    (lastTapTime s) v (playPauseTimeout s) (tapJumpTimeout s) (timers s)
    (nextTimerId s) (effects s).

Definition with_playPauseTimeout (v : option nat) (s : State) : State :=
  Build_State (options s) (now s) (paused s) (muted s) (subtitles s)
    (fullscreen s) (ended s) (seekBarPreviewTimecode s) (controlsHidden s)
    (noClick s) (mobile s) (currentTime s) (duration s) (lastClickTime s)
    (lastTapTime s) (hideControlsTimeout s) v (tapJumpTimeout s) (timers s)
    (nextTimerId s) (effects s).

Definition with_tapJumpTimeout (v : option nat) (s : State) : State :=
  Build_State (options s) (now s) (paused s) (muted s) (subtitles s)
    (fullscreen s) (ended s) (seekBarPreviewTimecode s) (controlsHidden s)
    (noClick s) (mobile s) (currentTime s) (duration s) (lastClickTime s)
    (lastTapTime s) (hideControlsTimeout s) (playPauseTimeout s) v
    (timers s) (nextTimerId s) (effects s).

Definition with_timers (v : list Timer) (s : State) : State :=
  Build_State (options s) (now s) (paused s) (muted s) (subtitles s)
    (fullscreen s) (ended s) (seekBarPreviewTimecode s) (controlsHidden s)
    (noClick s) (mobile s) (currentTime s) (duration s) (lastClickTime s)
    (lastTapTime s) (hideControlsTimeout s) (playPauseTimeout s)
    (tapJumpTimeout s) v (nextTimerId s) (effects s).

Definition with_nextTimerId (v : nat) (s : State) : State :=
  Build_State (options s) (now s) (paused s) (muted s) (subtitles s)
    (fullscreen s) (ended s) (seekBarPreviewTimecode s) (controlsHidden s)
    (noClick s) (mobile s) (currentTime s) (duration s) (lastClickTime s)
    (lastTapTime s) (hideControlsTimeout s) (playPauseTimeout s)
    (tapJumpTimeout s) (timers s) v (effects s).

Definition with_effects (v : list Effect) (s : State) : State :=
  Build_State (options s) (now s) (paused s) (muted s) (subtitles s)
    (fullscreen s) (ended s) (seekBarPreviewTimecode s) (controlsHidden s)
    (noClick s) (mobile s) (currentTime s) (duration s) (lastClickTime s)
    (lastTapTime s) (hideControlsTimeout s) (playPauseTimeout s)
    (tapJumpTimeout s) (timers s) (nextTimerId s) v.

(** Records an effect. *)
Definition perform (e : Effect) (s : State) : State :=
  with_effects (e :: effects s) s.

(** *** The host *)

(** [setTimeout(callback, delay)]: a fresh handle; the timer may run once
    [delay] milliseconds (none, for a negative delay) have passed. *)
Definition setTimeout (cb : Callback) (delay : Z) (s : State) : nat * State :=
  let h := nextTimerId s in
  (h, with_nextTimerId (S h)
        (with_timers (timers s ++ [ {| handle := h; due := now s + Z.max 0 delay;
                                       callback := cb |} ]) s)).

(** [clearTimeout(h)]; [h] is [None] while the variable is [undefined]. *)
Definition clearTimeout (h : option nat) (s : State) : State :=
  with_timers
    match h with
    | Some h => filter (fun t => negb (handle t =? h)%nat) (timers s)
    | None => timers s
    end s.

(** Where a seek lands (HTML Standard, media elements, seeking): a position
    past the end becomes the end, a position before the start the start. *)
Definition seekTarget (position d : Q) : Q :=
  if Num.gtb position d then d
  else if Num.ltb position 0 then 0
  else position.

(** [video.currentTime = value] (HTML Standard): a value that is not a
    finite number is refused with a [TypeError] and changes nothing; before
    the metadata is there the value is kept as the position to start from;
    afterwards the element seeks to it. *)
Definition setCurrentTime (value : option Q) (s : State) : State :=
  let s := perform (assignCurrentTime value) s in
  match value with
  | None => s
  | Some position =>
      with_currentTime
        match duration s with
        | Some d => seekTarget position d
        | None => position
        end s
  end.

(** *** Methods of the player *)

(** [#updateHideControls] *)
Definition updateHideControls (s : State) : State :=
  let s := with_controlsHidden false s in
  let s := clearTimeout (hideControlsTimeout s) s in
  let '(h, s) :=
    setTimeout hideControls
      (if mobile s then Options.hideControlsTimeoutMobile (options s)
       else Options.hideControlsTimeout (options s)) s in
  with_hideControlsTimeout (Some h) s.

(** [#updatePaused] *)
Definition updatePaused (s : State) : State :=
  let s := perform (if paused s then videoPause else videoPlay) s in
  updateHideControls s.

(** [togglePaused()], through the setter of [paused]. *)
Definition togglePaused (s : State) : State :=
  let s := perform callTogglePaused s in
  updatePaused (with_paused (negb (paused s)) s).

(** [toggleMute()] *)
Definition toggleMute (s : State) : State :=
  let s := perform callToggleMute s in
  with_muted (negb (muted s)) s.

(** [toggleSubtitles()] *)
Definition toggleSubtitles (s : State) : State :=
  let s := perform callToggleSubtitles s in
  with_subtitles (negb (subtitles s)) s.

(** [toggleFullscreen()], through the setter of [fullscreen]; what
    [#updateFullscreen] asks of the document is left out. *)
Definition toggleFullscreen (s : State) : State :=
  let s := perform callToggleFullscreen s in
  with_fullscreen (negb (fullscreen s)) s.

(** What a tap outside the jump zones does at once, and a tap inside them
    once the double-tap window has passed. *)
Definition toggleOverlay (s : State) : State :=
  if controlsHidden s then updateHideControls s
  else with_noClick true (with_controlsHidden true s).

(** The body of a timer callback. *)
Definition runCallback (cb : Callback) (s : State) : State :=
  match cb with
  | hideControls =>
      if paused s then s
      else if ended s then s
      else with_controlsHidden true s
  | playPause => togglePaused s
  | tapJump => toggleOverlay s
  | removeNoClick => with_noClick false s
  end.

(** *** The [pointerdown] listener of the video element *)

(** [e.pointerType] *)
Inductive PointerType := mouse | touch | pen.

(** ['l'], ['r'] and the empty string. *)
Inductive Direction := jumpLeft | jumpRight | noJump.

(** [portion <= p ? 'l' : (portion >= 1 - p ? 'r' : '')] with
    [portion = (e.clientX - this.offsetLeft) / this.offsetWidth]. When the
    width is zero the portion is an infinity of the sign of the numerator,
    or [NaN] when the numerator is zero too. *)
Definition direction (o : Options.t) (clientX : Q) (offsetLeft offsetWidth : Z)
    : Direction :=
  let numerator := clientX - inject_Z offsetLeft in
  if (offsetWidth =? 0)%Z then
    if Num.ltb numerator 0 then jumpLeft
    else if Num.gtb numerator 0 then jumpRight
    else noJump
  else
    let portion := numerator / inject_Z offsetWidth in
    if Num.leb portion (Options.doubleTapJumpScreenPortion o) then jumpLeft
    else if Num.geb portion (1 - Options.doubleTapJumpScreenPortion o) then jumpRight
    else noJump.

(** [direction == 'r' ? distance : -distance] *)
Definition jumpBy (o : Options.t) (d : Direction) : Q :=
  match d with
  | jumpRight => Options.doubleTapJumpDistance o
  | _ => - Options.doubleTapJumpDistance o
  end.

(** The mouse branch. *)
Definition mouseDown (buttons : Z) (s : State) : State :=
  if negb (buttons =? 1)%Z then s
  else
    let s := updateHideControls s in
    let s := clearTimeout (playPauseTimeout s) s in
    if (now s - lastClickTime s <=? Options.doubleClickDuration (options s))%Z
    then toggleFullscreen s
    else
      let s := with_lastClickTime (now s) s in
      let '(h, s) := setTimeout playPause (Options.doubleClickDuration (options s)) s in
      with_playPauseTimeout (Some h) s.

(** The branch for every other pointer type. *)
Definition touchDown (d : Direction) (s : State) : State :=
  let s := clearTimeout (tapJumpTimeout s) s in
  let '(jumped, s) :=
    match d with
    | noJump => (false, s)
    | _ =>
        let '(jumped, s) :=
          if (now s - lastTapTime s <=? Options.doubleTapJumpDuration (options s))%Z
          then (true,
                with_lastTapTime 0
                  (setCurrentTime (Some (currentTime s + jumpBy (options s) d)) s))
          else (false, s) in
        (jumped, with_lastTapTime (now s) s)
    end in
  if negb jumped then
    match d with
    | noJump => toggleOverlay s
    | _ =>
        let '(h, s) :=
          setTimeout tapJump (Options.doubleTapJumpDuration (options s)) s in
        with_tapJumpTimeout (Some h) s
    end
  else s.

(** The listener: the mouse branch for a mouse, the touch branch for any
    other pointer. *)
Definition videoPointerDown (pointerType : PointerType) (buttons : Z) (clientX : Q)
    (offsetLeft offsetWidth : Z) (s : State) : State :=
  match pointerType with
  | mouse => mouseDown buttons s
  | _ => touchDown (direction (options s) clientX offsetLeft offsetWidth) s
  end.

(** The [pointerup] listener of the video element. *)
Definition videoPointerUp (pointerType : PointerType) (s : State) : State :=
  match pointerType with
  | mouse => s
  | _ =>
      if negb (controlsHidden s) then snd (setTimeout removeNoClick 100 s)
      else s
  end.

(** The [pointermove] listener of the player. *)
Definition playerPointerMove (pointerType : PointerType) (s : State) : State :=
  match pointerType with
  | mouse => updateHideControls s
  | _ => s
  end.

(** *** The [keydown] listener *)

(** [buttonFocused] is [document.activeElement.tagName == 'BUTTON']. *)
Definition keydown (key : string) (buttonFocused : bool) (s : State) : State :=
  let s := updateHideControls s in
  if String.eqb key " " then (if buttonFocused then s else togglePaused s)
  else if String.eqb key "k" then togglePaused s
  else if String.eqb key "m" then toggleMute s
  else if String.eqb key "f" then toggleFullscreen s
  else if String.eqb key "c" then toggleSubtitles s
  else if String.eqb key "Escape" then with_fullscreen false s
  else if String.eqb key "ArrowLeft" then setCurrentTime (Some (currentTime s - 5)) s
  else if String.eqb key "ArrowRight" then setCurrentTime (Some (currentTime s + 5)) s
  else if String.eqb key "j" then setCurrentTime (Some (currentTime s - 10)) s
  else if String.eqb key "l" then setCurrentTime (Some (currentTime s + 10)) s
  else s.

(** *** The listeners on the seek bars and on the video element *)

(** The [timechange], [previewtimechange] and [seekingchange] listeners
    the player puts on both seek bars. *)
Definition onSeekBar (i : SeekBar.Intent) (s : State) : State :=
  match i with
  | SeekBar.timechange time => setCurrentTime time s
  | SeekBar.previewtimechange time => with_seekBarPreviewTimecode time s
  | SeekBar.seekingchange seeking =>
      let s := perform (if seeking || paused s then videoPause else videoPlay) s in
      updateHideControls s
  end.

(** The [ended] listener. *)
Definition onEnded (s : State) : State :=
  let s := with_ended true s in
  let s := updatePaused (with_paused true s) in
  updateHideControls s.

(** The [timeupdate] listener. *)
Definition onTimeupdate (s : State) : State := with_ended false s.

(** The buttons of the controls. *)
Inductive Button := playPauseButton | muteButton | fullscreenButton | subtitlesButton.

(** Their [click] listeners. *)
Definition onClick (b : Button) (s : State) : State :=
  match b with
  | playPauseButton => togglePaused s
  | muteButton => toggleMute s
  | fullscreenButton => toggleFullscreen s
  | subtitlesButton => toggleSubtitles s
  end.

(** *** Mounting *)

(** The player as its constructor and field initialisers leave it, at time
    [t0], with the classes it has in the document. *)
Definition constructed (o : Options.t) (t0 : Z) (hidden isMobile : bool) : State :=
  {| options := o; now := t0;
     paused := true; muted := false; subtitles := false; fullscreen := false;
     ended := false; seekBarPreviewTimecode := None;
     controlsHidden := hidden; noClick := false; mobile := isMobile;
     currentTime := 0; duration := None;
     lastClickTime := 0; lastTapTime := 0;
     hideControlsTimeout := None; playPauseTimeout := None; tapJumpTimeout := None;
     timers := []; nextTimerId := 1; effects := [] |}.

(** What [connectedCallback] does to that state: [#updateHideControls()]
    once the hide timer is set up, and [#updatePaused()] further down. *)
Definition connectedCallback (s : State) : State :=
  updatePaused (updateHideControls s).

(** *** Events *)

(** Everything that can happen to a mounted player: the DOM events it
    listens to, the metadata of the video arriving, the host running a
    pending timer, and time passing. *)
Inductive Event :=
| pointerdown (pointerType : PointerType) (buttons : Z) (clientX : Q)
              (offsetLeft offsetWidth : Z)
| pointerup (pointerType : PointerType)
| pointermove (pointerType : PointerType)
| keyDown (key : string) (buttonFocused : bool)
| click (b : Button)
| seekBarIntent (i : SeekBar.Intent)
| videoEnded
| videoTimeupdate
| loadedmetadata (d : Q)
| timeout (h : nat)
| elapse (ms : Z).

(** One event. [None] when the event cannot happen in this state: a timer
    that is not pending or not yet due does not run, time does not go
    backwards, a duration is not negative. *)
Definition step (s : State) (e : Event) : option State :=
  match e with
  | pointerdown pointerType buttons clientX offsetLeft offsetWidth =>
      Some (videoPointerDown pointerType buttons clientX offsetLeft offsetWidth s)
  | pointerup pointerType => Some (videoPointerUp pointerType s)
  | pointermove pointerType => Some (playerPointerMove pointerType s)
  | keyDown key buttonFocused => Some (keydown key buttonFocused s)
  | click b => Some (onClick b s)
  | seekBarIntent i => Some (onSeekBar i s)
  | videoEnded => Some (onEnded s)
  | videoTimeupdate => Some (onTimeupdate s)
  | loadedmetadata d =>
      if Num.leb 0 d
      then Some (with_currentTime (seekTarget (currentTime s) d)
                   (with_duration (Some d) s))
      else None
  | timeout h =>
      match find (fun t => (handle t =? h)%nat) (timers s) with
      | Some t =>
          if (due t <=? now s)%Z
          then Some (runCallback (callback t) (clearTimeout (Some h) s))
          else None
      | None => None
      end
  | elapse ms =>
      if (0 <=? ms)%Z then Some (with_now (now s + ms) s) else None
  end.

(** A sequence of events, in order; [None] when the host cannot produce
    one of them. *)
Fixpoint run (s : State) (events : list Event) : option State :=
  match events with
  | [] => Some s
  | e :: rest =>
      match step s e with
      | Some s' => run s' rest
      | None => None
      end
  end.

(** The states a mounted player can be in. *)
Definition reachable (s : State) : Prop :=
  exists o t0 hidden isMobile events,
    run (connectedCallback (constructed o t0 hidden isMobile)) events = Some s.

(** *** Observations *)

(** Equality of callbacks. *)
Definition sameCallback (a b : Callback) : bool :=
  match a, b with
  | hideControls, hideControls
  | playPause, playPause
  | tapJump, tapJump
  | removeNoClick, removeNoClick => true
  | _, _ => false
  end.

(** The pending timers that run [cb]. *)
Definition pending (cb : Callback) (s : State) : list Timer :=
  filter (fun t => sameCallback (callback t) cb) (timers s).



Definition isSeek (e : Effect) : bool :=
  match e with assignCurrentTime _ => true | _ => false end.

Definition calls (p : Effect -> bool) (s : State) : nat :=
  List.length (filter p (effects s)).

End Player.

(** ** What is said about a player *)

Module PlayerSpec.
Import Player.

Local Open Scope Q_scope.

(** Every pending timer that runs [cb] is the one whose handle the variable
    [slot] holds. *)
Definition slotOk (cb : Callback) (slot : option nat) (ts : list Timer) : Prop :=
  forall t, In t ts -> callback t = cb -> slot = Some (handle t).

(** The timer queue is in order: handles are fresh and distinct, and each of
    [hideControlsTimeout], [playPauseTimeout] and [tapJumpTimeout] accounts
    for every pending timer of its kind. *)
Definition wf (s : State) : Prop :=
  Forall (fun t => (handle t < nextTimerId s)%nat) (timers s) /\
  NoDup (map handle (timers s)) /\
  slotOk hideControls (hideControlsTimeout s) (timers s) /\
  slotOk playPause (playPauseTimeout s) (timers s) /\
  slotOk tapJump (tapJumpTimeout s) (timers s).

(** No pending timer runs [cb]. *)
Definition quiet (cb : Callback) (s : State) : Prop :=
  forall t, In t (timers s) -> callback t <> cb.




(** The fields neither the clock nor the timer queue nor the visibility of
    the controls is about. *)
Definition sameFlags (s s' : State) : Prop :=
  options s' = options s /\ paused s' = paused s /\ ended s' = ended s /\
  fullscreen s' = fullscreen s /\ mobile s' = mobile s /\
  effects s' = effects s /\ currentTime s' = currentTime s /\
  duration s' = duration s /\ lastClickTime s' = lastClickTime s /\
  lastTapTime s' = lastTapTime s.

(** While the duration is known the position lies inside the video. *)
Definition inRange (s : State) : Prop :=
  forall d, duration s = Some d -> 0 <= d /\ 0 <= currentTime s /\ currentTime s <= d.

(** Position and duration are the same in both states. *)
Definition sameVideo (s s' : State) : Prop :=
  currentTime s' = currentTime s /\ duration s' = duration s.

End PlayerSpec.

(** ** Sample layouts, states and events *)

Module Samples.
Import SeekBar Player.

(** A bar 200 pixels wide that starts 100 pixels from the left edge. *)
Definition bar : Layout :=
  {| left := 100; width := 200; offsetWidth := 200; offsetHeight := 6;
     previewWidth := 0 |}.

(** A bar squeezed to no width that still has a height. *)
Definition squeezed : Layout :=
  {| left := 0; width := 0; offsetWidth := 0; offsetHeight := 4;
     previewWidth := 0 |}.

(** A player mounted with the default options. *)
Definition mounted : State :=
  connectedCallback (constructed Options.defaults 1700000000000 false false).


(** The mounted player once the metadata of a 100 second video is there. *)
Definition loaded : State :=
  with_currentTime (seekTarget (currentTime mounted) 100)
    (with_duration (Some 100%Q) mounted).

(** Touch contacts near the left and the right edge of a player 1000 pixels
    wide. *)
Definition tapLeft : Event := pointerdown touch 1 10 0 1000.
Definition tapRight : Event := pointerdown touch 1 990 0 1000.

End Samples.

(** ** Runs without touch contacts *)

Module Desktop.
Import Player.

(** A contact on the video by a pointer that is not a mouse. *)
Definition isTouchDown (e : Event) : bool :=
  match e with
  | pointerdown mouse _ _ _ _ => false
  | pointerdown _ _ _ _ _ => true
  | _ => false
  end.

(** The controls are up while the video is paused or has ended, and
    nothing keeps clicks from the buttons. *)
Definition idleShown (s : State) : Prop :=
  (paused s = true \/ ended s = true -> controlsHidden s = false) /\
  noClick s = false.

End Desktop.

(** ** The jump zones *)

Module Zones.
Import Player.

(** The zone on the other side of the player. *)
Definition opposite (d : Direction) : Direction :=
  match d with
  | jumpLeft => jumpRight
  | jumpRight => jumpLeft
  | noJump => noJump
  end.

End Zones.

(** ** Strings of the host *)

(** The string functions [parseSRT] calls, written out from the ECMAScript
    specification for strings whose code units are below 256. *)
Module JsString.

Local Open Scope string_scope.

(** The line feed, [\n]. *)
Definition LF : ascii := "010"%char.

(** White space and line terminators: tab, line feed, vertical tab, form
    feed, carriage return, space and no-break space. *)
Definition isWhiteSpace (c : ascii) : bool :=
  match N_of_ascii c with
  | 9 | 10 | 11 | 12 | 13 | 32 | 160 => true
  | _ => false
  end%N.

(** [s.trimStart()] *)
Fixpoint trimStart (s : string) : string :=
  match s with
  | String c rest => if isWhiteSpace c then trimStart rest else s
  | EmptyString => s
  end.

(** [s.trimEnd()] *)
Fixpoint trimEnd (s : string) : string :=
  match s with
  | String c rest =>
      match trimEnd rest with
      | EmptyString => if isWhiteSpace c then "" else String c ""
      | kept => String c kept
      end
  | EmptyString => s
  end.

(** [s.trim()] *)
Definition trim (s : string) : string := trimEnd (trimStart s).

(** Puts a code unit in front of the first piece of a split. *)
Definition extend (c : ascii) (pieces : list string) : list string :=
  match pieces with
  | piece :: rest => String c piece :: rest
  | [] => [String c ""]
  end.

(** [s.split(separator)] for a separator that is not empty: the pieces
    between the occurrences of the separator, found from left to right
    without overlap. [skip] counts the code units of a separator just
    matched that are still to be passed over. *)
Fixpoint splitFrom (separator s : string) (skip : nat) : list string :=
  match s with
  | String c rest =>
      match skip with
      | S k => splitFrom separator rest k
      | O =>
          if prefix separator s
          then "" :: splitFrom separator rest (String.length separator - 1)
          else extend c (splitFrom separator rest 0)
      end
  | EmptyString => [""]
  end.

Definition split (separator s : string) : list string := splitFrom separator s 0.

(** [s.split(/../g)] for a regular expression that matches exactly the
    single code units [isSeparator] accepts. *)
Fixpoint splitAt (isSeparator : ascii -> bool) (s : string) : list string :=
  match s with
  | String c rest =>
      if isSeparator c then "" :: splitAt isSeparator rest
      else extend c (splitAt isSeparator rest)
  | EmptyString => [""]
  end.

(** The value of a code unit as a digit of the given radix. *)
Definition digitValue (radix : Z) (c : ascii) : option Z :=
  let n := Z.of_N (N_of_ascii c) in
  let value :=
    if (48 <=? n)%Z && (n <=? 57)%Z then Some (n - 48)%Z
    else if (97 <=? n)%Z && (n <=? 122)%Z then Some (n - 87)%Z
    else if (65 <=? n)%Z && (n <=? 90)%Z then Some (n - 55)%Z
    else None in
  match value with
  | Some d => if (d <? radix)%Z then Some d else None
  | None => None
  end.

(** A decimal digit. *)
Definition isDigit (c : ascii) : bool :=
  match digitValue 10 c with
  | Some _ => true
  | None => false
  end.

(** The integer the leading digits of [s] denote, on top of [acc]. *)
Fixpoint scan (radix : Z) (s : string) (acc : Z) : Z :=
  match s with
  | String c rest =>
      match digitValue radix c with
      | Some d => scan radix rest (acc * radix + d)
      | None => acc
      end
  | EmptyString => acc
  end.

(** The integer of the longest prefix of digits; none when [s] does not
    start with a digit. *)
Definition mathInt (radix : Z) (s : string) : option Z :=
  match s with
  | String c _ =>
      match digitValue radix c with
      | Some _ => Some (scan radix s 0)
      | None => None
      end
  | EmptyString => None
  end.

(** The sign a numeral starts with, and what follows it. *)
Definition signOf (s : string) : Z * string :=
  match s with
  | String c rest =>
      if (c =? "-")%char then ((-1)%Z, rest)
      else if (c =? "+")%char then (1%Z, rest)
      else (1%Z, s)
  | EmptyString => (1%Z, s)
  end.

(** The radix: sixteen after [0x] or [0X], ten otherwise. *)
Definition radixOf (s : string) : Z * string :=
  match s with
  | String c (String x rest) =>
      if (c =? "0")%char && ((x =? "x")%char || (x =? "X")%char)
      then (16%Z, rest)
      else (10%Z, s)
  | _ => (10%Z, s)
  end.

(** Every code unit of [s] passes the test. *)
Fixpoint allChars (test : ascii -> bool) (s : string) : bool :=
  match s with
  | String c rest => test c && allChars test rest
  | EmptyString => true
  end.

(** How many code units of [s] pass the test. *)
Fixpoint count (test : ascii -> bool) (s : string) : nat :=
  match s with
  | String c rest => (if test c then 1 else 0) + count test rest
  | EmptyString => 0
  end.

(** [parseInt(string)] with no radix given; [None] is [NaN].  The integer
    is kept exact, where the host rounds it to a double above 2^53. *)
Definition parseInt (string : string) : option Z :=
  let '(sign, s) := signOf (trimStart string) in
  let '(radix, s) := radixOf s in
  option_map (Z.mul sign) (mathInt radix s).

End JsString.

(** ** The subtitle parser *)

Module SRT.
Import JsString.

Local Open Scope string_scope.

(** [start] and [end] of a parsed entry. *)
Inductive Time := undefined | NaN | number (t : Q).

(** An entry of the array [parseSRT] returns; a [text] that is [None] is
    [undefined]. *)
Record Cue := { start : Time; end_ : Time; text : option string }.

(** [/:|,/g] *)
Definition isTimecodeSeparator (c : ascii) : bool :=
  (c =? ":")%char || (c =? ",")%char.

(** [parseSRTTimecode(timecode)]; [None] is [NaN]. A field that is missing
    or does not parse makes the sum [NaN]. *)
Definition parseSRTTimecode (timecode : string) : option Q :=
  match map parseInt (splitAt isTimecodeSeparator timecode) with
  | Some hours :: Some minutes :: Some seconds :: Some milliseconds :: _ =>
      Some (inject_Z hours * 3600 + inject_Z minutes * 60 + inject_Z seconds
            + inject_Z milliseconds / 1000)%Q
  | _ => None
  end.

(** An element taken out of an array by destructuring. *)
Definition element (times : list (option Q)) (i : nat) : Time :=
  match nth_error times i with
  | Some (Some t) => number t
  | Some None => NaN
  | None => undefined
  end.

(** The body of the loop over the blocks; [None] when [block[1]] is
    [undefined] and calling [split] on it throws a [TypeError]. *)
Definition parseBlock (block : list string) : option Cue :=
  match nth_error block 1 with
  | Some timing =>
      let times := map (fun i => parseSRTTimecode (trim i)) (split "-->" timing) in
      Some {| start := element times 0; end_ := element times 1;
              text := nth_error block 2 |}
  | None => None
  end.

(** [srt.split('\n\n').filter(i => i).map(block => block.split('\n').map(line => line.trim()))] *)
Definition blocks (srt : string) : list (list string) :=
  map (fun block => map trim (split (String LF "") block))
      (filter (fun i => negb (i =? "")) (split (String LF (String LF "")) srt)).

(** The loop: the entries in order, or the exception of the first block
    that throws. *)
Fixpoint parseBlocks (blocks : list (list string)) : option (list Cue) :=
  match blocks with
  | block :: rest =>
      match parseBlock block with
      | Some cue => option_map (cons cue) (parseBlocks rest)
      | None => None
      end
  | [] => Some []
  end.

(** [parseSRT(srt)]; [None] when it throws. *)
Definition parseSRT (srt : string) : option (list Cue) := parseBlocks (blocks srt).

(** The test of [animationLoop] on an entry of the parser:
    [currentTime >= subtitle.start && currentTime < subtitle.end], false as
    soon as one side is [NaN] or [undefined]. *)
Definition shows (currentTime : Q) (cue : Cue) : bool :=
  match start cue, end_ cue with
  | number a, number b => Num.geb currentTime a && Num.ltb currentTime b
  | _, _ => false
  end.

(** *** The format, written *)

(** A timecode [hh:mm:ss,mmm]. *)
Record Stamp := { hh : Z; mm : Z; ss : Z; ms : Z }.

(** An entry of a file: its counter, its two timecodes and its text. *)
Record Entry := { counter : Z; from : Stamp; to : Stamp; line : string }.

(** A number written with at least [width] digits. *)
Definition padded (width : nat) (n : Z) : string :=
  FormatTime.padStart width "0" (FormatTime.ToString n).

Definition writeStamp (t : Stamp) : string :=
  padded 2 (hh t) ++ ":" ++ padded 2 (mm t) ++ ":" ++ padded 2 (ss t)
  ++ "," ++ padded 3 (ms t).

Definition writeEntry (e : Entry) : string :=
  FormatTime.ToString (counter e) ++ String LF (writeStamp (from e) ++ " --> "
  ++ writeStamp (to e) ++ String LF (line e)).

(** Entries are separated by an empty line. *)
Definition writeSRT (entries : list Entry) : string :=
  String.concat (String LF (String LF "")) (map writeEntry entries).

(** The carriage return, [\r]. *)
Definition CR : ascii := "013"%char.

(** A string with no line feed in it. *)
Definition oneLine (s : string) : bool := allChars (fun c => negb (c =? LF)%char) s.

(** A string with no two line feeds in a row. *)
Fixpoint spaced (s : string) : bool :=
  match s with
  | String c rest =>
      (if (c =? LF)%char
       then match rest with
            | String d _ => negb (d =? LF)%char
            | EmptyString => true
            end
       else true) && spaced rest
  | EmptyString => true
  end.

(** An entry the format allows, with a text of one line. *)
Definition wellFormed (e : Entry) : Prop :=
  (0 <= hh (from e) /\ 0 <= mm (from e) /\ 0 <= ss (from e) /\ 0 <= ms (from e))%Z /\
  (0 <= hh (to e) /\ 0 <= mm (to e) /\ 0 <= ss (to e) /\ 0 <= ms (to e))%Z /\
  oneLine (line e) = true /\ line e <> "".

(** The time a timecode denotes, in seconds. *)
Definition stampSeconds (t : Stamp) : Q :=
  (inject_Z (hh t) * 3600 + inject_Z (mm t) * 60 + inject_Z (ss t)
   + inject_Z (ms t) / 1000)%Q.

(** What the parser is to make of an entry. *)
Definition cueOf (e : Entry) : Cue :=
  {| start := number (stampSeconds (from e));
     end_ := number (stampSeconds (to e));
     text := Some (trim (line e)) |}.

End SRT.

(** ** Making elements *)

Module Dom.

Local Open Scope string_scope.

(** [options.class]: a string or an array of strings. *)
Inductive ClassOption := className (name : string) | classList (names : list string).

(** The [options] of [createElement]; a field that is [None] is
    [undefined]. *)
Record Options := {
  class : option ClassOption;
  id : option string;
  text : option string;
  html : option string
}.

(** What an element holds: nothing, the text it was given through
    [textContent], or the markup it was given through [innerHTML]. *)
Inductive Content := noContent | textContent (text : string) | innerHTML (markup : string).

(** The element, as far as [createElement] touches it; [htmlProperty] is
    the property [html] the versions in [gplayer.js] set. *)
Record Element := {
  tagName : string;
  elementClass : string;
  elementId : string;
  content : Content;
  htmlProperty : option string
}.

(** [document.createElement(tagname)], for a valid tag name. *)
Definition blank (tagname : string) : Element :=
  {| tagName := tagname; elementClass := ""; elementId := ""; content := noContent;
     htmlProperty := None |}.

Definition setClass (name : string) (e : Element) : Element :=
  {| tagName := tagName e; elementClass := name; elementId := elementId e;
     content := content e; htmlProperty := htmlProperty e |}.

Definition setId (name : string) (e : Element) : Element :=
  {| tagName := tagName e; elementClass := elementClass e; elementId := name;
     content := content e; htmlProperty := htmlProperty e |}.

Definition setContent (c : Content) (e : Element) : Element :=
  {| tagName := tagName e; elementClass := elementClass e; elementId := elementId e;
     content := c; htmlProperty := htmlProperty e |}.

Definition setHtmlProperty (markup : string) (e : Element) : Element :=
  {| tagName := tagName e; elementClass := elementClass e; elementId := elementId e;
     content := content e; htmlProperty := Some markup |}.

(** [if (value) ..]: a string counts when it is there and not empty. *)
Definition truthy (value : option string) : option string :=
  match value with
  | Some "" => None
  | _ => value
  end.

(** [if (options.id) ..; if (options.text) ..], common to all versions. *)
Definition idAndText (options : Options) (e : Element) : Element :=
  let e := match truthy (id options) with Some name => setId name e | None => e end in
  match truthy (text options) with
  | Some t => setContent (textContent t) e
  | None => e
  end.

(** [createElement(tagname, options)] of [stardust-player.js]; [None] when
    it throws: [options.class.join] is read whatever [options.class] is,
    and reading a property of [undefined] is a [TypeError]. *)
Definition createElement (tagname : string) (options : option Options)
    : option Element :=
  let element := blank tagname in
  match options with
  | None => Some element
  | Some options =>
      match class options with
      | None => None
      | Some c =>
          let element :=
            match c with
            | className name => setClass name element
            | classList names => setClass (String.concat " " names) element
            end in
          let element := idAndText options element in
          Some match truthy (html options) with
               | Some markup => setContent (innerHTML markup) element
               | None => element
               end
      end
  end.

(** [createElement] of the first two versions in [gplayer.js]: the class
    is joined when [typeof options.class == 'object'], and the markup goes
    to a property [html] of the element. *)
Definition createElementG (tagname : string) (options : option Options)
    : option Element :=
  let element := blank tagname in
  match options with
  | None => Some element
  | Some options =>
      let element :=
        match class options with
        | Some (className name) => setClass name element
        | Some (classList names) => setClass (String.concat " " names) element
        | None => element
        end in
      let element := idAndText options element in
      Some match truthy (html options) with
           | Some markup => setHtmlProperty markup element
           | None => element
           end
  end.

End Dom.

(** ** Attributes *)

Module Attributes.

Local Open Scope string_scope.

(** The video element and the network as [attributeChangedCallback] uses
    them: the source of the video, the ids of the [loadeddata] listeners in
    the order they were added, the next listener id, the addresses
    fetched, and how often [#renderSeekBarPreviewImages] has been called. *)
Record Host := {
  videoSrc : option string;
  loadeddata : list nat;
  nextListener : nat;
  fetched : list string;
  renders : nat
}.

Definition initial : Host :=
  {| videoSrc := None; loadeddata := []; nextListener := 0; fetched := []; renders := 0 |}.

(** [addEventListener('loadeddata', () => ..)] with a new function; the
    call returns [undefined]. *)
Definition addEventListener (h : Host) : option nat * Host :=
  (None,
   {| videoSrc := videoSrc h; loadeddata := loadeddata h ++ [nextListener h];
      nextListener := S (nextListener h); fetched := fetched h; renders := renders h |}).

(** [removeEventListener('loadeddata', listener)]: nothing is removed when
    [listener] is [undefined]. *)
Definition removeEventListener (listener : option nat) (h : Host) : Host :=
  match listener with
  | Some l =>
      {| videoSrc := videoSrc h;
         loadeddata := filter (fun x => negb (x =? l)%nat) (loadeddata h);
         nextListener := nextListener h; fetched := fetched h; renders := renders h |}
  | None => h
  end.

(** [attributeChangedCallback(name, oldValue, newValue)] *)
Definition attributeChangedCallback (name newValue : string) (h : Host) : Host :=
  if name =? "src" then
    let h := {| videoSrc := Some newValue; loadeddata := loadeddata h;
                nextListener := nextListener h; fetched := fetched h;
                renders := renders h |} in
    let '(videoElementLoadedListener, h) := addEventListener h in
    removeEventListener videoElementLoadedListener h
  else if name =? "sub" then
    {| videoSrc := videoSrc h; loadeddata := loadeddata h;
       nextListener := nextListener h; fetched := fetched h ++ [newValue];
       renders := renders h |}
  else h.

(** The video fires [loadeddata]: every listener calls
    [#renderSeekBarPreviewImages]. *)
Definition fireLoadeddata (h : Host) : Host :=
  {| videoSrc := videoSrc h; loadeddata := loadeddata h;
     nextListener := nextListener h; fetched := fetched h;
     renders := renders h + List.length (loadeddata h) |}.

(** What happens to the element: an attribute changes or the video has
    loaded. *)
Inductive Change := attribute (name newValue : string) | loaded.

Definition apply (h : Host) (c : Change) : Host :=
  match c with
  | attribute name newValue => attributeChangedCallback name newValue h
  | loaded => fireLoadeddata h
  end.

(** How often [src] is set in a history. *)
Definition srcChanges (history : list Change) : nat :=
  List.length (filter (fun c => match c with
                                | attribute name _ => name =? "src"
                                | loaded => false
                                end) history).

End Attributes.

(** ** The subtitles of [gplayer.js] *)

Module GSubtitles.
Import Subtitles.

Local Open Scope string_scope.

Section Resolver.
Variable render : string -> string.

(** The loop of [updateSubtitles]: the first entry shown is assigned to
    the container. *)
Fixpoint subtitleLoop (subtitleObjects : list Subtitle) (currentTime : Q)
    (c : Container) : Container :=
  match subtitleObjects with
  | [] => c
  | subtitle :: rest =>
      if shown currentTime subtitle
      then {| innerHTML := render (text subtitle); assignments := S (assignments c) |}
      else subtitleLoop rest currentTime c
  end.

(** One pass of [updateSubtitles]: the container is emptied first. [None]
    when iterating over a track that is [undefined] throws. *)
Definition updateSubtitles (subtitles : bool)
    (subtitleObjects : option (list Subtitle)) (currentTime : Q) (c : Container)
    : option Container :=
  let c := {| innerHTML := ""; assignments := S (assignments c) |} in
  if subtitles then
    match subtitleObjects with
    | Some objects => Some (subtitleLoop objects currentTime c)
    | None => None
    end
  else Some c.

End Resolver.

End GSubtitles.

(** ** The seek bar and the player together *)

Module Scrub.
Import Player.

(** The events of a seek bar, handled by the player in the order they are
    dispatched. *)
Definition deliver (intents : list SeekBar.Intent) (s : State) : State :=
  fold_left (fun s i => onSeekBar i s) intents s.

(** A scrub: the pointer goes down on the click area at [x0], moves to
    [x1] and is let go at [x2]. *)
Definition gesture (duration : option Q) (x0 x1 x2 : Q) (l : SeekBar.Layout)
    : bool * list SeekBar.Intent :=
  let '(scrubbing, down) := SeekBar.clickAreaPointerDown duration x0 l in
  let move := SeekBar.updateScrubbing scrubbing duration x1 l in
  let '(scrubbing, up) := SeekBar.documentPointerUp scrubbing duration x2 l in
  (scrubbing, down ++ move ++ up).

End Scrub.

(** ** What the video element is told *)

Module Playback.
Import Player.

(** The calls of [play()] and [pause()]. *)
Definition isPlayback (e : Effect) : bool :=
  match e with
  | videoPlay | videoPause => true
  | _ => false
  end.

(** The last of them. *)
Definition lastPlayback (s : State) : option Effect := find isPlayback (effects s).

(** The video element was last told to pause if the player is paused, to
    play if it is not. *)
Definition inStep (s : State) : Prop :=
  lastPlayback s = Some (if paused s then videoPause else videoPlay).

(** A seek bar reports that a scrub has begun. *)
Definition startsScrub (e : Event) : bool :=
  match e with
  | seekBarIntent (SeekBar.seekingchange true) => true
  | _ => false
  end.

End Playback.

(** ** What the video element is asked for *)

Module Seeking.
Import Player.



End Seeking.

(** ** Streaks of taps *)

Module Taps.
Import Player.

(** A contact on the video: how long after the event before it, by which
    pointer, and where on a player of which offset and width. *)
Record Contact := {
  gap : Z;
  pointer : PointerType;
  pressed : Z;
  x : Q;
  playerLeft : Z;
  playerWidth : Z
}.

(** The events of a list of contacts: time passes, then the pointer goes
    down. *)
Definition events (contacts : list Contact) : list Event :=
  flat_map (fun c => [elapse (gap c);
                      pointerdown (pointer c) (pressed c) (x c) (playerLeft c)
                                  (playerWidth c)])
           contacts.

(** A contact that is not by a mouse, in a jump zone, at most the jump
    threshold after the event before it. *)
Definition inStreak (o : Options.t) (c : Contact) : Prop :=
  pointer c <> mouse /\
  direction o (x c) (playerLeft c) (playerWidth c) <> noJump /\
  (0 <= gap c <= Options.doubleTapJumpDuration o)%Z.

End Taps.

(** * Part II. Properties *)

(** ** Comparisons, clamping and rounding *)

Module NumFacts.
Import Num.

Local Open Scope Q_scope.

Lemma geb_true a b : geb a b = true <-> b <= a.
Proof. unfold geb. apply Qle_bool_iff. Qed.

Lemma leb_true a b : leb a b = true <-> a <= b.
Proof. unfold leb. apply Qle_bool_iff. Qed.

Lemma ltb_true a b : ltb a b = true <-> a < b.
Proof.
  unfold ltb. rewrite negb_true_iff, <- not_true_iff_false, Qle_bool_iff.
  split; [apply Qnot_le_lt | apply Qlt_not_le].
Qed.

Lemma gtb_true a b : gtb a b = true <-> b < a.
Proof.
  unfold gtb. rewrite negb_true_iff, <- not_true_iff_false, Qle_bool_iff.
  split; [apply Qnot_le_lt | apply Qlt_not_le].
Qed.

Lemma ltb_false a b : ltb a b = false <-> b <= a.
Proof.
  unfold ltb. rewrite negb_false_iff. apply Qle_bool_iff.
Qed.

Lemma clamp_bounds lo n hi : lo <= hi -> lo <= clamp lo n hi /\ clamp lo n hi <= hi.
Proof.
  intros Hlh. unfold clamp. split.
  - apply Q.min_glb; [apply Q.le_max_r | exact Hlh].
  - apply Q.le_min_r.
Qed.

Lemma clamp_inside lo n hi : lo <= n -> n <= hi -> clamp lo n hi == n.
Proof.
  intros H1 H2. unfold clamp.
  rewrite (Q.max_l n lo H1). apply Q.min_l. exact H2.
Qed.

Lemma Qfloor_div_pos (t : Q) (k : positive) :
  Qfloor (t / inject_Z (Zpos k)) = (Qfloor t / Zpos k)%Z.
Proof.
  destruct t as [a b]. unfold Qdiv, Qinv, Qmult, Qfloor, inject_Z. simpl.
  rewrite Z.mul_1_r, Pos2Z.inj_mul, Z.div_div by lia. reflexivity.
Qed.

Lemma Qfloor_sub_Z (t : Q) (z : Z) :
  Qfloor (t - inject_Z z) = (Qfloor t - z)%Z.
Proof.
  destruct t as [a b]. unfold Qminus, Qplus, Qopp, Qfloor, inject_Z. simpl.
  rewrite Pos.mul_1_r, Z.mul_1_r.
  replace (a + - z * Zpos b)%Z with (a + (- z) * Zpos b)%Z by lia.
  rewrite Z.div_add by lia. lia.
Qed.

Lemma Qfloor_nonneg (t : Q) : 0 <= t -> (0 <= Qfloor t)%Z.
Proof.
  intros H. change 0%Z with (Qfloor 0). apply Qfloor_resp_le. exact H.
Qed.

End NumFacts.

(** ** Rounding to a double *)

Module DoubleFacts.
Import Double.
Local Open Scope Q_scope.

Lemma exp2_pos (c : Z) : 0 < 2 ^ c.
Proof. apply Qpower_0_lt. reflexivity. Qed.

Lemma exp2_nonzero (c : Z) : ~ 2 ^ c == 0.
Proof. apply Qpower_not_0. discriminate. Qed.

Lemma exp2_add (a b : Z) : 2 ^ (a + b) == 2 ^ a * 2 ^ b.
Proof. apply Qpower_plus. discriminate. Qed.

Lemma exp2_sub (a b : Z) : 2 ^ (a - b) == 2 ^ a / 2 ^ b.
Proof. apply Qpower_minus. discriminate. Qed.

Lemma exp2_Z (c : Z) : (0 <= c)%Z -> 2 ^ c == inject_Z (2 ^ c).
Proof. intros H. rewrite Zpower_Qpower by exact H. reflexivity. Qed.

Lemma exp2_lt (a b : Z) : (a < b)%Z <-> 2 ^ a < 2 ^ b.
Proof.
  split; intros H.
  - apply Qpower_lt_compat_l; [exact H | reflexivity].
  - apply Qpower_lt_compat_l_inv with (q := 2); [exact H | reflexivity].
Qed.

Lemma exp2_le (a b : Z) : (a <= b)%Z <-> 2 ^ a <= 2 ^ b.
Proof.
  split; intros H.
  - apply Qpower_le_compat_l; [exact H | discriminate].
  - apply Qpower_le_compat_l_inv with (q := 2); [exact H | reflexivity].
Qed.

Lemma exp2_succ (a : Z) : 2 ^ (a + 1) == 2 * 2 ^ a.
Proof. rewrite exp2_add. change (2 ^ 1) with 2. ring. Qed.

(** [ilog2] is the integer part of the binary logarithm. *)
Lemma ilog2_spec (q : Q) :
  0 < q -> 2 ^ ilog2 q <= q /\ q < 2 ^ (ilog2 q + 1).
Proof.
  intros Hq. unfold ilog2.
  destruct q as [n d]. cbn [Qnum Qden].
  assert (Hn : (0 < n)%Z).
  { unfold Qlt in Hq. cbn in Hq. lia. }
  set (ln := Z.log2 n). set (ld := Z.log2 (Zpos d)).
  destruct (Z.log2_spec n Hn) as [Hn1 Hn2]. fold ln in Hn1, Hn2.
  destruct (Z.log2_spec (Zpos d) (Pos2Z.is_pos d)) as [Hd1 Hd2]. fold ld in Hd1, Hd2.
  assert (Hln : (0 <= ln)%Z) by apply Z.log2_nonneg.
  assert (Hld : (0 <= ld)%Z) by apply Z.log2_nonneg.
  pose proof (exp2_pos ln) as Ha. pose proof (exp2_pos ld) as Hb.
  assert (Ha1 : 2 ^ ln <= inject_Z n).
  { rewrite exp2_Z by exact Hln. rewrite <- Zle_Qle. exact Hn1. }
  assert (Ha2 : inject_Z n < 2 * 2 ^ ln).
  { rewrite <- exp2_succ, exp2_Z by lia. rewrite <- Zlt_Qlt.
    replace (ln + 1)%Z with (Z.succ ln) by lia. exact Hn2. }
  assert (Hb1 : 2 ^ ld <= inject_Z (Zpos d)).
  { rewrite exp2_Z by exact Hld. rewrite <- Zle_Qle. exact Hd1. }
  assert (Hb2 : inject_Z (Zpos d) < 2 * 2 ^ ld).
  { rewrite <- exp2_succ, exp2_Z by lia. rewrite <- Zlt_Qlt.
    replace (ld + 1)%Z with (Z.succ ld) by lia. exact Hd2. }
  assert (Hd0 : 0 < inject_Z (Zpos d)) by reflexivity.
  assert (Hqd : (n # d) * inject_Z (Zpos d) == inject_Z n).
  { rewrite (Qmake_Qdiv n d). field. intros H. rewrite H in Hd0. discriminate. }
  revert Ha Hb Ha1 Ha2 Hb1 Hb2 Hd0 Hqd Hq.
  generalize (inject_Z n) (inject_Z (Zpos d)) (n # d).
  intros N Dd q Ha Hb Ha1 Ha2 Hb1 Hb2 Hd0 Hqd Hq.
  assert (E1 : 2 ^ (ln - ld + 1) == 2 * 2 ^ ln / 2 ^ ld).
  { rewrite exp2_succ, exp2_sub. field. intros H. rewrite H in Hb. discriminate. }
  assert (E2 : 2 ^ (ln - ld - 1) == 2 ^ ln / (2 * 2 ^ ld)).
  { rewrite <- exp2_succ, <- exp2_sub. f_equiv. lia. }
  assert (Hup : q < 2 ^ (ln - ld + 1)).
  { rewrite E1. apply Qlt_shift_div_l; [exact Hb|]. nra. }
  assert (Hlo : 2 ^ (ln - ld - 1) <= q).
  { rewrite E2. apply Qle_shift_div_r; [lra|]. nra. }
  destruct (Qle_bool (2 ^ (ln - ld)) q) eqn:E.
  - apply Qle_bool_iff in E. split; assumption.
  - split; [exact Hlo|].
    replace (ln - ld - 1 + 1)%Z with (ln - ld)%Z by lia.
    apply Qnot_le_lt. intros H. apply Qle_bool_iff in H. congruence.
Qed.

Lemma ilog2_lt (q : Q) (b : Z) : 0 < q -> q < 2 ^ b -> (ilog2 q < b)%Z.
Proof.
  intros Hq Hb. destruct (ilog2_spec Hq) as [H1 _].
  apply exp2_lt. eapply Qle_lt_trans; [exact H1 | exact Hb].
Qed.

Lemma ilog2_ge (q : Q) (a : Z) : 0 < q -> 2 ^ a <= q -> (a <= ilog2 q)%Z.
Proof.
  intros Hq Ha. destruct (ilog2_spec Hq) as [_ H2].
  assert (H : (a < ilog2 q + 1)%Z).
  { apply exp2_lt. eapply Qle_lt_trans; [exact Ha | exact H2]. }
  lia.
Qed.

Lemma floor_unique (x : Q) (n : Z) :
  inject_Z n <= x -> x < inject_Z n + 1 -> Qfloor x = n.
Proof.
  intros H1 H2.
  pose proof (Qfloor_le x) as F1. pose proof (Qlt_floor x) as F2.
  rewrite inject_Z_plus in F2. change (inject_Z 1) with 1 in F2.
  assert (A : (n < Qfloor x + 1)%Z).
  { rewrite Zlt_Qlt, inject_Z_plus. change (inject_Z 1) with 1. lra. }
  assert (B : (Qfloor x < n + 1)%Z).
  { rewrite Zlt_Qlt, inject_Z_plus. change (inject_Z 1) with 1. lra. }
  lia.
Qed.

Lemma nearestEven_Z (x : Q) (z : Z) : x == inject_Z z -> nearestEven x = z.
Proof.
  intros Hx. unfold nearestEven.
  assert (Hf : Qfloor x = z).
  { apply floor_unique; rewrite Hx; [apply Qle_refl | lra]. }
  rewrite Hf.
  assert (Hc : Qcompare (x - inject_Z z) (1 # 2) = Lt).
  { rewrite <- Qlt_alt. rewrite Hx. lra. }
  rewrite Hc. reflexivity.
Qed.

Lemma nearestEven_near (x : Q) :
  x - (1 # 2) <= inject_Z (nearestEven x) /\ inject_Z (nearestEven x) <= x + (1 # 2).
Proof.
  unfold nearestEven.
  pose proof (Qfloor_le x) as F1. pose proof (Qlt_floor x) as F2.
  rewrite inject_Z_plus in F2. change (inject_Z 1) with 1 in F2.
  destruct (Qcompare (x - inject_Z (Qfloor x)) (1 # 2)) eqn:E.
  - apply Qeq_alt in E.
    destruct (Z.even (Qfloor x)); rewrite ?inject_Z_plus; change (inject_Z 1) with 1; lra.
  - apply Qlt_alt in E. lra.
  - apply Qgt_alt in E. rewrite inject_Z_plus. change (inject_Z 1) with 1. lra.
Qed.

Lemma nearestEven_nonneg (x : Q) : 0 <= x -> (0 <= nearestEven x)%Z.
Proof.
  intros Hx. unfold nearestEven.
  assert (Hf : (0 <= Qfloor x)%Z).
  { change 0%Z with (Qfloor 0). apply Qfloor_resp_le. exact Hx. }
  destruct (Qcompare _ _); [destruct (Z.even _)| |]; lia.
Qed.

Lemma round_scaled (q : Q) :
  round q - q == (inject_Z (nearestEven (q / 2 ^ exponent q)) - q / 2 ^ exponent q)
                 * 2 ^ exponent q.
Proof.
  unfold round. pose proof (exp2_pos (exponent q)) as H.
  field. intros H0. rewrite H0 in H. discriminate.
Qed.

(** A number with at most 53 significant bits and none below [2^-1074]
    is a double: rounding leaves it as it is. *)
Lemma round_exact (q : Q) (m k : Z) :
  (Z.abs m < 2 ^ 53)%Z -> (-1074 <= k)%Z -> q == inject_Z m * 2 ^ k ->
  round q == q.
Proof.
  intros Hm Hk Hq.
  pose proof (exp2_pos k) as Hpk.
  destruct (Z.eq_dec m 0) as [-> | Hm0].
  - assert (Hq0 : q == 0) by (rewrite Hq; ring).
    unfold round.
    rewrite (@nearestEven_Z (q / 2 ^ exponent q) 0).
    + transitivity 0; [ring | symmetry; exact Hq0].
    + generalize (2 ^ exponent q). intros X. rewrite Hq0. unfold Qdiv. ring.
  - assert (Habs : Qabs q == inject_Z (Z.abs m) * 2 ^ k).
    { rewrite Hq, Qabs_Qmult, (Qabs_pos (2 ^ k)) by (apply Qlt_le_weak, Hpk).
      unfold Qabs, inject_Z. reflexivity. }
    assert (Hpos : 0 < Qabs q).
    { rewrite Habs. apply Qmult_lt_0_compat; [|exact Hpk].
      change 0 with (inject_Z 0). rewrite <- Zlt_Qlt. lia. }
    assert (He : (ilog2 (Qabs q) < 53 + k)%Z).
    { apply ilog2_lt; [exact Hpos|].
      rewrite Habs, exp2_add.
      apply Qmult_lt_r; [exact Hpk|].
      rewrite exp2_Z by lia. rewrite <- Zlt_Qlt. exact Hm. }
    assert (Hc : (exponent q <= k)%Z) by (unfold exponent; lia).
    unfold round. revert Hc. generalize (exponent q). intros c Hc.
    pose proof (exp2_pos c) as Hpc.
    assert (Hx : q / 2 ^ c == inject_Z (m * 2 ^ (k - c))).
    { rewrite inject_Z_mult, <- exp2_Z by lia. rewrite Hq, exp2_sub.
      field; repeat split; apply exp2_nonzero. }
    rewrite (nearestEven_Z Hx). rewrite <- Hx. field. apply exp2_nonzero.
Qed.

Lemma round_nonneg (q : Q) : 0 <= q -> 0 <= round q.
Proof.
  intros Hq. unfold round.
  pose proof (exp2_pos (exponent q)) as Hp.
  apply Qmult_le_0_compat; [|apply Qlt_le_weak, Hp].
  change 0 with (inject_Z 0). rewrite <- Zle_Qle.
  apply nearestEven_nonneg.
  apply Qle_shift_div_l; [exact Hp|]. lra.
Qed.

(** Rounding moves a number by at most half a unit in the last place. *)
Lemma round_near (q : Q) :
  Qabs (round q - q) <= (1 # 2) * 2 ^ exponent q.
Proof.
  rewrite round_scaled.
  pose proof (exp2_pos (exponent q)) as Hp.
  destruct (nearestEven_near (q / 2 ^ exponent q)) as [H1 H2].
  rewrite Qabs_Qmult, (Qabs_pos (2 ^ exponent q)) by (apply Qlt_le_weak, Hp).
  apply Qmult_le_compat_r; [|apply Qlt_le_weak, Hp].
  apply Qabs_Qle_condition. split; lra.
Qed.

(** In the normal range the error is at most [2^-53] of the number. *)
Lemma round_normal (q : Q) :
  2 ^ (-1022) <= q -> Qabs (round q - q) <= q * 2 ^ (-53).
Proof.
  intros Hq.
  assert (Hpos : 0 < q) by (eapply Qlt_le_trans; [apply (exp2_pos (-1022)) | exact Hq]).
  eapply Qle_trans; [apply round_near|].
  assert (Hab : Qabs q == q) by (apply Qabs_pos, Qlt_le_weak, Hpos).
  destruct (ilog2_spec Hpos) as [H1 _].
  assert (He : (-1022 <= ilog2 q)%Z) by (apply ilog2_ge; assumption).
  assert (Hi : ilog2 (Qabs q) = ilog2 q).
  { unfold Qabs. destruct q as [[|p|p] d]; try reflexivity.
    exfalso. revert Hpos. unfold Qlt. cbn. lia. }
  unfold exponent. rewrite Hi, Z.max_l by lia.
  replace (ilog2 q - 52)%Z with (ilog2 q + (-53) + 1)%Z by lia.
  rewrite exp2_succ, exp2_add.
  pose proof (exp2_pos (-53)) as Hp.
  revert H1 Hp. generalize (2 ^ ilog2 q) (2 ^ (-53)). intros a p H1 Hp.
  setoid_replace ((1 # 2) * (2 * (a * p))) with (a * p) by ring.
  apply Qmult_le_compat_r; [exact H1 | apply Qlt_le_weak, Hp].
Qed.

(** Below the normal range the error is at most [2^-1075]. *)
Lemma round_subnormal (q : Q) :
  0 <= q -> q < 2 ^ (-1022) -> Qabs (round q - q) <= 2 ^ (-1075).
Proof.
  intros Hq0 Hq.
  destruct (Qlt_le_dec 0 q) as [Hpos | Hz].
  - eapply Qle_trans; [apply round_near|].
    assert (Hc : exponent q = (-1074)%Z).
    { unfold exponent. apply Z.max_r.
      assert (ilog2 (Qabs q) < -1022)%Z; [|lia].
      apply ilog2_lt; rewrite Qabs_pos; assumption. }
    rewrite Hc.
    replace (-1074)%Z with (-1075 + 1)%Z by lia.
    rewrite exp2_succ. pose proof (exp2_pos (-1075)). lra.
  - assert (E : round q == q).
    { apply round_exact with (m := 0%Z) (k := 0%Z); [reflexivity | lia |].
      change (inject_Z 0 * 2 ^ 0) with (0 * 1). lra. }
    assert (E0 : round q - q == 0) by lra.
    rewrite E0. apply Qlt_le_weak, (exp2_pos (-1075)).
Qed.

(** *** Where the rounding does no harm *)

(** A double below [2^53] that is not negative, written with an exponent
    that is not positive. *)
Lemma finite_below_2_53 (t : Q) :
  finite t -> 0 <= t -> t < inject_Z (2 ^ 53) ->
  exists m c : Z,
    (0 <= m < 2 ^ 53)%Z /\ (-1074 <= c <= 0)%Z /\ t == inject_Z m * 2 ^ c.
Proof.
  intros (m & c & Hm & Hc & Ht) H0 H53.
  pose proof (exp2_pos c) as Hp.
  assert (Hm0 : (0 <= m)%Z).
  { destruct (Z_lt_le_dec m 0) as [Hneg|]; [|assumption]. exfalso.
    assert (inject_Z m < 0) by (change 0 with (inject_Z 0); rewrite <- Zlt_Qlt; exact Hneg).
    assert (inject_Z m * 2 ^ c < 0) by nra. lra. }
  destruct (Z_le_gt_dec c 0) as [Hle | Hgt].
  - exists m, c. repeat split; try lia. exact Ht.
  - exists (m * 2 ^ c)%Z, 0%Z.
    assert (E : t == inject_Z (m * 2 ^ c)).
    { rewrite Ht, inject_Z_mult, <- exp2_Z by lia. reflexivity. }
    split; [split|split; [lia|]].
    + apply Z.mul_nonneg_nonneg; [exact Hm0 | apply Z.pow_nonneg; lia].
    + rewrite Zlt_Qlt, <- E. exact H53.
    + rewrite E. change (2 ^ 0) with 1. ring.
Qed.

(** Dividing a double below [2^53] by a whole number and rounding the
    quotient does not change its integer part. *)
Lemma floor_round_div (q : Q) (m c : Z) (D : positive) :
  (0 <= m < 2 ^ 53)%Z -> (-1074 <= c <= 0)%Z ->
  q == inject_Z m * 2 ^ c / inject_Z (Zpos D) ->
  Qfloor (round q) = Qfloor q.
Proof.
  intros Hm Hc Hq.
  set (P := (2 ^ (- c))%Z).
  assert (HP : (0 < P)%Z) by (apply Z.pow_pos_nonneg; lia).
  set (B := (P * Zpos D)%Z).
  assert (HB : (0 < B)%Z) by (unfold B; lia).
  set (u := / inject_Z B).
  assert (HBq : 0 < inject_Z B).
  { change 0 with (inject_Z 0). rewrite <- Zlt_Qlt. exact HB. }
  assert (Hu : 0 < u) by (apply Qinv_lt_0_compat, HBq).
  assert (HuB : u * inject_Z B == 1).
  { unfold u. rewrite Qmult_comm. apply Qmult_inv_r.
    intros H0. rewrite H0 in HBq. discriminate. }
  assert (Hqu : q == inject_Z m * u).
  { rewrite Hq. unfold u, B. rewrite inject_Z_mult. unfold P.
    rewrite <- exp2_Z by lia. rewrite Qpower_opp.
    pose proof (exp2_nonzero c). field. split; [exact H | discriminate]. }
  set (n := (m / B)%Z). set (r := (m mod B)%Z).
  assert (Hdiv : m = (B * n + r)%Z) by (apply Z.div_mod; lia).
  assert (Hr : (0 <= r < B)%Z) by (apply Z.mod_pos_bound; exact HB).
  assert (Hn : (0 <= n <= m)%Z).
  { unfold n. split; [apply Z.div_pos; lia|].
    apply Z.div_le_upper_bound; [exact HB|]. nia. }
  assert (Hqn : q == inject_Z n + inject_Z r * u).
  { rewrite Hqu, Hdiv, inject_Z_plus, inject_Z_mult.
    setoid_replace ((inject_Z B * inject_Z n + inject_Z r) * u)
      with (inject_Z n * (u * inject_Z B) + inject_Z r * u) by ring.
    rewrite HuB. ring. }
  assert (Hr0 : 0 <= inject_Z r).
  { change 0 with (inject_Z 0). rewrite <- Zle_Qle. lia. }
  assert (Hr1 : inject_Z r * u < 1).
  { rewrite <- HuB. rewrite (Qmult_comm u).
    apply Qmult_lt_r; [exact Hu|]. rewrite <- Zlt_Qlt. lia. }
  assert (Hfl : Qfloor q = n).
  { apply floor_unique; rewrite Hqn; nra. }
  rewrite Hfl.
  destruct (Z.eq_dec r 0) as [Hz | Hnz].
  - assert (Hex : round q == q).
    { apply round_exact with (m := n) (k := 0%Z); [lia | lia |].
      rewrite Hqn, Hz. change (2 ^ 0) with 1. change (inject_Z 0) with 0. ring. }
    apply floor_unique; rewrite Hex, Hqn; nra.
  - assert (Hra : 1 <= inject_Z r).
    { change 1 with (inject_Z 1). rewrite <- Zle_Qle. lia. }
    assert (Hrb : inject_Z r <= inject_Z B - 1).
    { assert (H : inject_Z (r + 1) <= inject_Z B) by (rewrite <- Zle_Qle; lia).
      rewrite inject_Z_plus in H. change (inject_Z 1) with 1 in H. lra. }
    assert (Hq0 : 0 <= q).
    { rewrite Hqn.
      assert (0 <= inject_Z n) by (change 0 with (inject_Z 0); rewrite <- Zle_Qle; lia).
      nra. }
    destruct (Qlt_le_dec q (2 ^ (-1022))) as [Hsub | Hnorm].
    + pose proof (round_subnormal Hq0 Hsub) as He.
      pose proof (round_nonneg Hq0) as Hge.
      apply Qabs_Qle_condition in He. destruct He as [_ He].
      assert (Hs1 : 2 ^ (-1022) + 2 ^ (-1075) < 1) by reflexivity.
      assert (Hn0 : n = 0%Z).
      { assert (inject_Z n < 1).
        { assert (0 <= inject_Z r * u) by nra.
          pose proof (exp2_pos (-1075)). lra. }
        assert (n < 1)%Z by (rewrite Zlt_Qlt; assumption). lia. }
      rewrite Hn0. apply floor_unique; change (inject_Z 0) with 0; lra.
    + pose proof (round_normal Hnorm) as He.
      apply Qabs_Qle_condition in He. destruct He as [He1 He2].
      assert (Hm53 : inject_Z m * 2 ^ (-53) < 1).
      { assert (E : 2 ^ (-53) == / inject_Z (2 ^ 53)) by reflexivity.
        rewrite E.
        assert (Hm' : inject_Z m < inject_Z (2 ^ 53)) by (rewrite <- Zlt_Qlt; lia).
        assert (Hpos : 0 < inject_Z (2 ^ 53)) by reflexivity.
        apply Qlt_shift_div_r; [exact Hpos|]. lra. }
      assert (Herr : q * 2 ^ (-53) < u).
      { rewrite Hqu. revert Hm53. generalize (2 ^ (-53)). intros p Hm53.
        rewrite <- Qmult_assoc, (Qmult_comm u p), Qmult_assoc.
        rewrite <- (Qmult_1_l u) at 2.
        apply Qmult_lt_r; [exact Hu | exact Hm53]. }
      assert (Hlo : u <= inject_Z r * u) by nra.
      assert (Hhi : inject_Z r * u <= 1 - u).
      { assert (E : (inject_Z B - 1) * u == 1 - u).
        { setoid_replace ((inject_Z B - 1) * u) with (u * inject_Z B - u) by ring.
          rewrite HuB. reflexivity. }
        rewrite <- E.
        apply Qmult_le_compat_r; [exact Hrb | apply Qlt_le_weak, Hu]. }
      apply floor_unique; lra.
Qed.

(** The product of two whole numbers is exact while it stays below
    [2^53]. *)
Lemma mul_exact (a b : Z) :
  (Z.abs (a * b) < 2 ^ 53)%Z -> mul (inject_Z a) (inject_Z b) == inject_Z (a * b).
Proof.
  intros H. unfold mul.
  rewrite (@round_exact _ (a * b) 0); [rewrite inject_Z_mult; reflexivity | exact H | lia |].
  rewrite inject_Z_mult. change (2 ^ 0) with 1. ring.
Qed.

(** Taking a whole number off a double that is not smaller leaves a double
    with the same last place: the difference is exact. *)
Lemma sub_exact (t x : Q) (m c z : Z) :
  (0 <= m < 2 ^ 53)%Z -> (-1074 <= c <= 0)%Z -> t == inject_Z m * 2 ^ c ->
  (0 <= z)%Z -> x == inject_Z z -> x <= t ->
  exists m', (0 <= m' <= m)%Z /\ t - x == inject_Z m' * 2 ^ c /\ sub t x == t - x.
Proof.
  intros Hm Hc Ht Hz Hx Hle.
  set (P := (2 ^ (- c))%Z).
  assert (HP : (0 < P)%Z) by (apply Z.pow_pos_nonneg; lia).
  assert (HPc : inject_Z P * 2 ^ c == 1).
  { unfold P. rewrite <- exp2_Z, <- exp2_add by lia.
    replace (- c + c)%Z with 0%Z by lia. reflexivity. }
  pose proof (exp2_pos c) as Hp.
  assert (Hzx : inject_Z z == inject_Z (z * P) * 2 ^ c).
  { rewrite inject_Z_mult, <- Qmult_assoc, HPc. ring. }
  assert (Hd : t - x == inject_Z (m - z * P) * 2 ^ c).
  { unfold Zminus. rewrite inject_Z_plus, inject_Z_opp.
    rewrite Ht, Hx. rewrite Hzx at 1. ring. }
  assert (Hm' : (0 <= m - z * P <= m)%Z).
  { split; [|nia].
    assert (H : inject_Z (z * P) * 2 ^ c <= inject_Z m * 2 ^ c).
    { rewrite <- Hzx, <- Hx, <- Ht. exact Hle. }
    apply Qmult_le_r in H; [|exact Hp].
    rewrite <- Zle_Qle in H. lia. }
  exists (m - z * P)%Z. split; [exact Hm'|]. split; [exact Hd|].
  unfold sub. apply round_exact with (m := (m - z * P)%Z) (k := c); [lia | lia | exact Hd].
Qed.

End DoubleFacts.

(** ** The time formatter *)

Module FormatTimeFacts.
Import FormatTime Double DoubleFacts.
Local Open Scope string_scope.

Lemma pad2_two_digits (n : Z) :
  (0 <= n < 100)%Z -> padStart 2 "0" (ToString n) = two_digits n.
Proof.
  intros Hn.
  assert (Hall : forallb
            (fun k => String.eqb (padStart 2 "0" (ToString (Z.of_nat k)))
                                 (two_digits (Z.of_nat k)))
            (seq 0 100) = true) by (vm_compute; reflexivity).
  rewrite forallb_forall in Hall.
  specialize (Hall (Z.to_nat n)).
  rewrite Z2Nat.id in Hall by lia.
  apply String.eqb_eq, Hall, in_seq. lia.
Qed.

Lemma two_digits_length (n : Z) : String.length (two_digits n) = 2%nat.
Proof. reflexivity. Qed.

(** The three fields in terms of the whole number of seconds. *)
Lemma fields_of_floor (t : Q) :
  let n := Qfloor t in
  fields t = ((n / 3600)%Z, ((n mod 3600) / 60)%Z, (n mod 60)%Z).
Proof.
  intros n. unfold fields.
  change (3600%Q) with (inject_Z (Zpos 3600)).
  change (60%Q) with (inject_Z (Zpos 60)).
  rewrite NumFacts.Qfloor_div_pos. fold n.
  set (h := (n / 3600)%Z).
  rewrite <- !inject_Z_mult.
  rewrite NumFacts.Qfloor_div_pos, !NumFacts.Qfloor_sub_Z. fold n.
  f_equal; [f_equal|]; subst h; Z.div_mod_to_equations; lia.
Qed.

(** Up to [2^53] a whole number is printed as its decimal numeral. *)
Lemma NumberToString_small (n : Z) :
  (Z.abs n <= 2 ^ 53)%Z -> NumberToString n = ToString n.
Proof.
  intros H. unfold NumberToString. apply Z.leb_le in H. rewrite H. reflexivity.
Qed.

(** For a double that is not negative and below [2^53], none of the
    roundings of the formatter changes a field: the quotients are rounded
    but their integer parts are not, and the products and differences are
    exact. *)
Lemma formatTime_fields (t : Q) :
  finite t -> (0 <= t)%Q -> (t < inject_Z (2 ^ 53))%Q ->
  formatTime t =
    let '(h, m, s) := fields t in
    if negb (h =? 0)%Z
    then ToString h ++ ":" ++ padStart 2 "0" (ToString m) ++ ":" ++ padStart 2 "0" (ToString s)
    else ToString m ++ ":" ++ padStart 2 "0" (ToString s).
Proof.
  intros Hfin H0 H53.
  destruct (finite_below_2_53 Hfin H0 H53) as (m & c & Hm & Hc & Ht).
  unfold formatTime, fields. cbv zeta.
  (* hours *)
  assert (Hh : Qfloor (div t 3600) = Qfloor (t / 3600)%Q).
  { unfold div. apply floor_round_div with (m := m) (c := c) (D := 3600%positive);
      [exact Hm | exact Hc |].
    rewrite Ht. reflexivity. }
  rewrite Hh. set (h := Qfloor (t / 3600)%Q).
  pose proof (fields_of_floor t) as HF. unfold fields in HF. cbv zeta in HF.
  fold h in HF.
  pose proof (NumFacts.Qfloor_nonneg H0) as Hn.
  pose proof (f_equal (fun p => fst (fst p)) HF) as HFh.
  pose proof (f_equal (fun p => snd (fst p)) HF) as HFm.
  pose proof (f_equal (fun p => snd p) HF) as HFs.
  cbn [fst snd] in HFh, HFm, HFs. clear HF.
  assert (Hh0 : (0 <= h)%Z) by (rewrite HFh; Z.div_mod_to_equations; lia).
  assert (Hht : (inject_Z (h * 3600) <= t)%Q).
  { eapply Qle_trans; [|apply (Qfloor_le t)]. rewrite <- Zle_Qle.
    rewrite HFh. Z.div_mod_to_equations. lia. }
  assert (Hh53 : (Z.abs (h * 3600) < 2 ^ 53)%Z).
  { assert (h * 3600 < 2 ^ 53)%Z; [|lia].
    rewrite Zlt_Qlt. eapply Qle_lt_trans; [exact Hht | exact H53]. }
  pose proof (mul_exact h 3600 Hh53) as Hmul.
  change (inject_Z 3600) with 3600%Q in Hmul.
  assert (Hh3 : (0 <= h * 3600)%Z) by lia.
  destruct (@sub_exact t (mul (inject_Z h) 3600) m c (h * 3600) Hm Hc Ht Hh3 Hmul)
    as (m1 & Hm1 & Hrem & Hsub).
  { rewrite Hmul. exact Hht. }
  (* minutes *)
  set (rem := sub t (mul (inject_Z h) 3600)) in *.
  assert (Hrem' : (rem == inject_Z m1 * 2 ^ c)%Q) by (rewrite Hsub; exact Hrem).
  assert (Hrem2 : (rem == t - inject_Z h * 3600)%Q).
  { rewrite Hsub, Hmul, inject_Z_mult. reflexivity. }
  assert (Hmi : Qfloor (div rem 60) = Qfloor ((t - inject_Z h * 3600) / 60)%Q).
  { unfold div.
    rewrite (@floor_round_div (rem / 60)%Q m1 c 60%positive); [| lia | exact Hc |].
    - apply Qfloor_comp. rewrite Hrem2. reflexivity.
    - rewrite Hrem'. reflexivity. }
  rewrite Hmi. set (mi := Qfloor ((t - inject_Z h * 3600) / 60)%Q) in *.
  assert (Hmi0 : (0 <= mi < 60)%Z) by (rewrite HFm; Z.div_mod_to_equations; lia).
  assert (Hmi53 : (Z.abs (mi * 60) < 2 ^ 53)%Z) by lia.
  pose proof (mul_exact mi 60 Hmi53) as Hmul2.
  change (inject_Z 60) with 60%Q in Hmul2.
  assert (Hmi3 : (0 <= mi * 60)%Z) by lia.
  assert (Hle2 : (inject_Z (mi * 60) <= rem)%Q).
  { rewrite Hrem2.
    assert (E : (t - inject_Z h * 3600 == t - inject_Z (h * 3600))%Q)
      by (rewrite inject_Z_mult; reflexivity).
    rewrite E. pose proof (Qfloor_le t) as Hfl.
    assert (Hz : (mi * 60 + h * 3600 <= Qfloor t)%Z).
    { rewrite HFm, HFh. Z.div_mod_to_equations. lia. }
    rewrite Zle_Qle, inject_Z_plus in Hz. lra. }
  assert (Hm1' : (0 <= m1 < 2 ^ 53)%Z) by lia.
  destruct (@sub_exact rem (mul (inject_Z mi) 60) m1 c (mi * 60) Hm1' Hc Hrem' Hmi3 Hmul2)
    as (m2 & Hm2 & Hrem3 & Hsub2).
  { rewrite Hmul2. exact Hle2. }
  assert (Hs : Qfloor (sub rem (mul (inject_Z mi) 60))
               = Qfloor (t - inject_Z h * 3600 - inject_Z mi * 60)%Q).
  { apply Qfloor_comp. rewrite Hsub2, Hmul2, Hrem2, inject_Z_mult. reflexivity. }
  rewrite Hs. set (sec := Qfloor (t - inject_Z h * 3600 - inject_Z mi * 60)%Q) in *.
  assert (Hs0 : (0 <= sec < 60)%Z) by (rewrite HFs; Z.div_mod_to_equations; lia).
  rewrite (NumberToString_small h), (NumberToString_small mi), (NumberToString_small sec)
    by lia.
  reflexivity.
Qed.

(** The same fields, read as the remainders of [t] itself. *)
Lemma fields_of_Qmod (t : Q) :
  fields t = (Qfloor (t / 3600), Qfloor (Qmod t 3600 / 60), Qfloor (Qmod t 60)).
Proof.
  rewrite fields_of_floor. cbv zeta. unfold Qmod.
  change (3600%Q) with (inject_Z (Zpos 3600)).
  change (60%Q) with (inject_Z (Zpos 60)).
  rewrite <- !inject_Z_mult.
  rewrite !NumFacts.Qfloor_div_pos, !NumFacts.Qfloor_sub_Z, ?NumFacts.Qfloor_div_pos.
  f_equal; [f_equal|]; Z.div_mod_to_equations; lia.
Qed.

Lemma hours_zero_iff (t : Q) :
  (0 <= t)%Q -> (Qfloor (t / 3600) = 0%Z <-> (t < 3600)%Q).
Proof.
  intros Ht.
  change (3600%Q) with (inject_Z (Zpos 3600)).
  rewrite NumFacts.Qfloor_div_pos.
  pose proof (NumFacts.Qfloor_nonneg Ht) as Hn.
  pose proof (Qfloor_le t) as Hlo. pose proof (Qlt_floor t) as Hhi.
  split; intros H.
  - assert (Hlt : (Qfloor t < 3600)%Z) by (Z.div_mod_to_equations; lia).
    eapply Qlt_le_trans; [exact Hhi|].
    rewrite <- Zle_Qle. lia.
  - assert (Hlt : (Qfloor t < 3600)%Z).
    { rewrite Zlt_Qlt. eapply Qle_lt_trans; [exact Hlo | exact H]. }
    apply Z.div_small. lia.
Qed.

(** C10, where it fails: from [2^53] seconds on the formatter's own
    arithmetic is rounded.  At [4e18] seconds the product [hours * 3600] is
    rounded down by 112, so the formatter prints 8 minutes and 32 seconds
    where [t] has 6 minutes and 40 seconds. *)
Lemma formatTime_rounds_from_2_53 :
  let t := 4000000000000000000%Q in
  finite t /\ (0 <= t)%Q /\
  ((Qfloor (t / 3600), Qfloor (Qmod t 3600 / 60), Qfloor (Qmod t 60))
   = (1111111111111111, 6, 40)%Z) /\
  (formatTime t = "1111111111111111:08:32") /\
  (formatTime t
   <> ToString 1111111111111111 ++ ":" ++ two_digits 6 ++ ":" ++ two_digits 40).
Proof.
  cbv zeta. split.
  - exists (5 ^ 18)%Z, 20%Z. split; [reflexivity|]. split; [lia | reflexivity].
  - split; [discriminate|]. split; [vm_compute; reflexivity|].
    split; [vm_compute; reflexivity|]. vm_compute. discriminate.
Qed.

(** C10, amended. For every double [t] that is not negative and below
    [2^53] seconds the formatter prints [H:MM:SS] when [t >= 3600] and
    [M:SS] when [t < 3600], with [H = floor (t / 3600)],
    [M = floor ((t mod 3600) / 60)] and [S = floor (t mod 60)]; minutes (in
    the long form) and seconds are written with exactly two digits, the
    leading field is the plain decimal numeral. *)
Theorem formatTime_spec (t : Q) :
  finite t -> (0 <= t)%Q -> (t < 2 ^ 53)%Q ->
  let H := Qfloor (t / 3600) in
  let M := Qfloor (Qmod t 3600 / 60) in
  let S := Qfloor (Qmod t 60) in
  (0 <= H)%Z /\ (0 <= M < 60)%Z /\ (0 <= S < 60)%Z /\
  ((3600 <= t)%Q ->
     formatTime t = ToString H ++ ":" ++ two_digits M ++ ":" ++ two_digits S) /\
  ((t < 3600)%Q ->
     formatTime t = ToString M ++ ":" ++ two_digits S).
Proof.
  intros Hfin Ht H53 H M S.
  assert (H53' : (t < inject_Z (2 ^ 53))%Q) by exact H53.
  pose proof (formatTime_fields Hfin Ht H53') as Hfmt.
  pose proof (fields_of_Qmod t) as HQ. fold H M S in HQ.
  pose proof (fields_of_floor t) as HF. cbv zeta in HF.
  rewrite HQ in HF. injection HF as HH HM HS.
  pose proof (NumFacts.Qfloor_nonneg Ht) as Hn.
  assert (HH0 : (0 <= H)%Z) by (rewrite HH; Z.div_mod_to_equations; lia).
  assert (HM0 : (0 <= M < 60)%Z) by (rewrite HM; Z.div_mod_to_equations; lia).
  assert (HS0 : (0 <= S < 60)%Z) by (rewrite HS; Z.div_mod_to_equations; lia).
  repeat split; try lia.
  - intros Hge. rewrite Hfmt, HQ.
    assert (Hnz : H <> 0%Z).
    { intros Hz. apply (hours_zero_iff Ht) in Hz.
      exact (Qlt_not_le _ _ Hz Hge). }
    apply Z.eqb_neq in Hnz. rewrite Hnz. cbn [negb].
    rewrite !pad2_two_digits by lia. reflexivity.
  - intros Hlt. rewrite Hfmt, HQ.
    apply (hours_zero_iff Ht) in Hlt. fold H in Hlt.
    apply Z.eqb_eq in Hlt. rewrite Hlt. cbn [negb].
    rewrite pad2_two_digits by lia. reflexivity.
Qed.

Lemma formatTime_spec_witness :
  formatTime (7384 # 1) = "2:03:04" /\ formatTime (125 # 2) = "1:02".
Proof.
  assert (F1 : finite (7384 # 1)).
  { exists 7384%Z, 0%Z. split; [reflexivity|]. split; [lia | reflexivity]. }
  assert (F2 : finite (125 # 2)).
  { exists 125%Z, (-1)%Z. split; [reflexivity|]. split; [lia | reflexivity]. }
  split.
  - exact (proj1 (proj2 (proj2 (proj2
      (@formatTime_spec (7384 # 1) F1 ltac:(discriminate) ltac:(reflexivity)))))
      ltac:(discriminate)).
  - exact (proj2 (proj2 (proj2 (proj2
      (@formatTime_spec (125 # 2) F2 ltac:(discriminate) ltac:(reflexivity)))))
      ltac:(reflexivity)).
Defined.

End FormatTimeFacts.

(** ** Scans that stop at the first hit *)

Module Scan.

(** [for (const x of l) { if (p(x)) { ..; break } }] finds the first element
    that passes the test: everything before it fails the test. *)
Lemma find_first (A : Type) (p : A -> bool) (l : list A) :
  match find p l with
  | Some x => exists pre post,
      l = pre ++ x :: post /\ p x = true /\ Forall (fun y => p y = false) pre
  | None => Forall (fun y => p y = false) l
  end.
Proof.
  induction l as [|a l IH]; cbn [find]; [constructor|].
  destruct (p a) eqn:Hpa.
  - exists [], l. repeat split; [exact Hpa | constructor].
  - destruct (find p l) as [x|].
    + destruct IH as (pre & post & Hl & Hx & Hpre).
      exists (a :: pre), post. rewrite Hl. repeat split; [exact Hx|].
      constructor; assumption.
    + constructor; assumption.
Qed.

End Scan.

(** ** The host's sort *)

Module HostSortFacts.
Import HostSort.

Section Facts.
Variable A : Type.
Variable comparefn : A -> A -> Z.

(** The binary search leaves its loop before the fuel runs out: any two
    budgets above the width of the interval give the same slot. *)
Lemma searchSlot_fuel (a : list A) (pivot : A) :
  forall fuel fuel' left right,
    right - left < fuel -> right - left < fuel' ->
    searchSlot comparefn fuel a pivot left right
    = searchSlot comparefn fuel' a pivot left right.
Proof.
  induction fuel as [|fuel IH]; intros fuel' left right H1 H2; [lia|].
  destruct fuel' as [|fuel']; [lia|]. cbn [searchSlot].
  destruct (left <? right) eqn:Hlr; [|reflexivity].
  apply Nat.ltb_lt in Hlr.
  set (mid := left + (right - left) / 2).
  assert (Hmid : left <= mid < right).
  { subst mid. pose proof (Nat.Div0.div_lt_upper_bound (right - left) 2 (right - left)).
    pose proof (Nat.Div0.mul_div_le (right - left) 2). lia. }
  destruct (nth_error a mid); [|reflexivity].
  destruct (comparefn pivot a0 <? 0)%Z; apply IH; lia.
Qed.

Hypothesis never_negative : forall x y, (0 <= comparefn x y)%Z.

Lemma runTail_never_negative (prev : A) (l : list A) :
  runTail comparefn false prev l = List.length l.
Proof.
  revert prev. induction l as [|x l IH]; intros prev; cbn [runTail List.length].
  - reflexivity.
  - destruct (Z.ltb_spec (comparefn x prev) 0) as [Hneg|_].
    + specialize (never_negative x prev). lia.
    + now rewrite IH.
Qed.

(** A comparator that never answers with a negative number makes the whole
    array one ascending run: nothing is moved. *)
Lemma sort_never_negative (a : list A) : sort comparefn a = a.
Proof.
  unfold sort. destruct (List.length a <? 2) eqn:Hlen; [reflexivity|].
  destruct a as [|x0 [|x1 r]]; try discriminate.
  unfold CountAndMakeRun.
  destruct (Z.ltb_spec (comparefn x1 x0) 0) as [Hneg|_].
  - specialize (never_negative x1 x0). lia.
  - rewrite runTail_never_negative. cbn [List.length Nat.add].
    rewrite Nat.sub_diag. reflexivity.
Qed.

End Facts.

End HostSortFacts.

(** ** The thumbnail sampler and its cache *)

Module ThumbnailsFacts.
Import Thumbnails.
Local Open Scope Q_scope.

Section Schedule.
Variable Image : Type.
Variable capture : Q -> Image.
Variable sort : (Frame Image -> Frame Image -> Z) -> list (Frame Image) -> list (Frame Image).
Variable comparefn : Frame Image -> Frame Image -> Z.

Let odd (j : nat) : Q := inject_Z (2 * Z.of_nat j + 1).

Lemma odd_succ (j : nat) (step : Q) : odd j * step + step * 2 == odd (S j) * step.
Proof.
  unfold odd.
  replace (2 * Z.of_nat (S j) + 1)%Z with ((2 * Z.of_nat j + 1) + 2)%Z by lia.
  rewrite !inject_Z_plus, !inject_Z_mult.
  change (inject_Z 2) with 2. change (inject_Z 1) with 1. ring.
Qed.

(** One row of the schedule: starting at the [j]-th odd multiple of [step]
    with [m] of them left below the duration, the loop samples exactly
    those [m] timecodes and stops. *)
Lemma row_seeks (D step : Q) (N : nat) :
  0 < step -> D == inject_Z (2 * Z.of_nat N) * step ->
  forall m j t s fuel,
    (j + m = N)%nat -> t == odd j * step -> (m < fuel)%nat ->
    exists s' ts,
      row capture sort comparefn fuel D step t s = Some s' /\
      seeks s' = seeks s ++ ts /\
      Forall2 Qeq ts (map (fun j' => odd j' * step) (seq j m)).
Proof.
  intros Hstep HD.
  induction m as [|m IH]; intros j t s fuel Hjm Ht Hfuel;
    (destruct fuel as [|fuel]; [lia|]); cbn [row].
  - assert (Hge : Num.ltb t D = false).
    { apply NumFacts.ltb_false. rewrite Ht, HD.
      apply Qmult_le_compat_r; [|apply Qlt_le_weak, Hstep].
      unfold odd. rewrite <- Zle_Qle. lia. }
    rewrite Hge. exists s, []. rewrite app_nil_r. repeat split. constructor.
  - assert (Hlt : Num.ltb t D = true).
    { apply NumFacts.ltb_true. rewrite Ht, HD.
      apply Qmult_lt_r; [exact Hstep|].
      unfold odd. rewrite <- Zlt_Qlt. lia. }
    rewrite Hlt.
    destruct (IH (S j) (t + step * 2)
                 (renderAndApplyPreviewImage capture sort comparefn s t) fuel)
      as (s' & ts & Hrow & Hseeks & Hts).
    + lia.
    + rewrite Ht. apply odd_succ.
    + lia.
    + exists s', (t :: ts). split; [exact Hrow|]. split.
      * rewrite Hseeks. cbn [seeks renderAndApplyPreviewImage].
        rewrite <- app_assoc. reflexivity.
      * cbn [seq map]. constructor; [exact Ht | exact Hts].
Qed.

Lemma pow2_pos (i : Z) : (0 <= i)%Z -> 0 < inject_Z (2 ^ i).
Proof.
  intros Hi. change 0 with (inject_Z 0). rewrite <- Zlt_Qlt.
  apply Z.pow_pos_nonneg; lia.
Qed.

Lemma half_rows (i : nat) :
  (1 <= i)%nat -> (2 * Z.of_nat (2 ^ (i - 1)) = 2 ^ Z.of_nat i)%Z.
Proof.
  intros Hi. rewrite Nat2Z.inj_pow. change (Z.of_nat 2) with 2%Z.
  replace (Z.of_nat i) with (Z.succ (Z.of_nat (i - 1))) by lia.
  rewrite Z.pow_succ_r by lia. reflexivity.
Qed.

(** All rows: [n] turns of the outer loop starting at [i]. *)
Lemma rows_seeks (D : Q) (fuel : nat) :
  0 < D ->
  forall n i s,
    (1 <= i)%nat ->
    (forall k, (i <= k < i + n)%nat -> (2 ^ (k - 1) < fuel)%nat) ->
    exists s' ts,
      rows capture sort comparefn fuel D n (Z.of_nat i) s = Some s' /\
      seeks s' = seeks s ++ ts /\
      Forall2 Qeq ts (flat_map (oddMultiples D) (seq i n)).
Proof.
  intros HD.
  induction n as [|n IH]; intros i s Hi Hfuel; cbn [rows].
  - exists s, []. rewrite app_nil_r. repeat split. constructor.
  - set (step := D / inject_Z (2 ^ Z.of_nat i)).
    assert (Hp : 0 < inject_Z (2 ^ Z.of_nat i)) by (apply pow2_pos; lia).
    assert (Hstep : 0 < step).
    { unfold step, Qdiv. apply Qmult_lt_0_compat; [exact HD|].
      apply Qinv_lt_0_compat, Hp. }
    assert (HDs : D == inject_Z (2 * Z.of_nat (2 ^ (i - 1))) * step).
    { rewrite half_rows by exact Hi. unfold step.
      rewrite Qmult_div_r; [reflexivity|].
      intros H0. rewrite H0 in Hp. exact (Qlt_irrefl _ Hp). }
    destruct (@row_seeks D step (2 ^ (i - 1)) Hstep HDs (2 ^ (i - 1))%nat 0%nat step s fuel)
      as (s1 & ts1 & Hrow & Hseeks1 & Hts1).
    + reflexivity.
    + unfold odd. cbn. ring.
    + apply Hfuel. lia.
    + rewrite Hrow.
      replace (Z.of_nat i + 1)%Z with (Z.of_nat (S i)) by lia.
      destruct (IH (S i) s1) as (s' & ts & Hrows & Hseeks & Hts).
      * lia.
      * intros k Hk. apply Hfuel. lia.
      * exists s', (ts1 ++ ts). split; [exact Hrows|]. split.
        -- rewrite Hseeks, Hseeks1, app_assoc. reflexivity.
        -- cbn [seq flat_map]. apply Forall2_app; [exact Hts1 | exact Hts].
Qed.

(** With every awaited frame there and the timecodes taken over the
    rationals, the loops of the sampler end for every positive duration and
    every iteration budget, after seeking the off-DOM video to the duration
    first and then, row after row, to the odd multiples of [D / 2^i] below
    [D]. *)
Lemma render_seeks (D : Q) (K fuel : nat) :
  0 < D -> (2 ^ K <= fuel)%nat ->
  exists s,
    renderSeekBarPreviewImages capture sort comparefn fuel D K = Some s /\
    Forall2 Qeq (seeks s) (schedule D K).
Proof.
  intros HD Hfuel. unfold renderSeekBarPreviewImages.
  destruct (@rows_seeks D fuel HD K 1%nat
              (renderAndApplyPreviewImage capture sort comparefn
                 {| cache := []; seeks := [] |} D))
    as (s & ts & Hrows & Hseeks & Hts).
  - lia.
  - intros k Hk. eapply Nat.lt_le_trans; [|exact Hfuel].
    apply Nat.pow_lt_mono_r; lia.
  - exists s. split; [exact Hrows|].
    rewrite Hseeks. cbn [seeks renderAndApplyPreviewImage app schedule].
    constructor; [reflexivity | exact Hts].
Qed.

End Schedule.

(** The comparator of the source never answers with a negative number. *)
Lemma byTimecode_never_negative (Image : Type) (a b : Frame Image) :
  (0 <= byTimecode a b)%Z.
Proof. unfold byTimecode. destruct (Num.gtb _ _); lia. Qed.

(** On V8 the [sort] call of [renderAndApplyPreviewImage] moves nothing. *)
Lemma sort_byTimecode_idle (Image : Type) (l : list (Frame Image)) :
  HostSort.sort (@byTimecode Image) l = l.
Proof.
  apply HostSortFacts.sort_never_negative. apply byTimecode_never_negative.
Qed.

End ThumbnailsFacts.

Module ThumbnailsClaims.
Import Thumbnails.
Local Open Scope Q_scope.

(** With a comparator that answers with a signed number the same sampler,
    on the same host, keeps the cache in ascending order. *)
Lemma render_40_3_signed (Image : Type) (capture : Q -> Image) :
  exists s,
    renderSeekBarPreviewImages capture (@HostSort.sort _) (@byTimecodeSigned _)
      8 40 3 = Some s /\
    Forall2 Qeq (map (@timecode _) (cache s)) [5; 10; 15; 20; 25; 30; 35; 40] /\
    ascending (map (@timecode _) (cache s)).
Proof.
  eexists. split; [vm_compute; reflexivity|].
  split; cbn [map cache timecode ascending].
  - repeat constructor; reflexivity.
  - repeat split; discriminate.
Qed.

(** C1 (as the code runs on V8). For [duration = 40] and
    [previewImageIterations = 3] the sampler terminates after seeking to
    40, 20, 10, 30, 5, 15, 25, 35 in this order and caching 8 frames, but
    the comparator [a.timecode > b.timecode] never answers with a negative
    number, the [sort] call moves nothing, and the cache ends in sampling
    order [40, 20, 10, 30, 5, 15, 25, 35], which is not ascending. *)
Theorem render_40_3_cache_in_sampling_order (Image : Type) (capture : Q -> Image) :
  exists s,
    renderSeekBarPreviewImages capture (@HostSort.sort _) (@byTimecode _)
      8 40 3 = Some s /\
    Forall2 Qeq (seeks s) [40; 20; 10; 30; 5; 15; 25; 35] /\
    List.length (cache s) = 8%nat /\
    Forall2 Qeq (map (@timecode _) (cache s)) [40; 20; 10; 30; 5; 15; 25; 35] /\
    ~ ascending (map (@timecode _) (cache s)).
Proof.
  eexists. split; [vm_compute; reflexivity|].
  cbn [map cache seeks timecode ascending List.length].
  repeat split.
  - repeat constructor; reflexivity.
  - repeat constructor; reflexivity.
  - intros [H _]. apply H. reflexivity.
Qed.

Section Lookup.
Variable Image : Type.

Lemma popoverLoop_find (frames : list (Frame Image)) (query : option Q)
    (prev : Image * Image) :
  popoverLoop frames query prev =
    match nearestAtOrAfter frames query with
    | Some frame => (image frame, image frame)
    | None => prev
    end.
Proof.
  unfold nearestAtOrAfter.
  induction frames as [|frame rest IH]; cbn [popoverLoop find]; [reflexivity|].
  destruct (atOrAfter query frame); [reflexivity | exact IH].
Qed.

Lemma updateseekBarPopover_find (frames : list (Frame Image)) (query : option Q)
    (prev : Image) :
  updateseekBarPopover frames query prev =
    match nearestAtOrAfter frames query with
    | Some frame => image frame
    | None => prev
    end.
Proof.
  unfold nearestAtOrAfter.
  induction frames as [|frame rest IH]; cbn [updateseekBarPopover find]; [reflexivity|].
  destruct (atOrAfter query frame); [reflexivity | exact IH].
Qed.

Lemma atOrAfter_true (query : option Q) (frame : Frame Image) :
  atOrAfter query frame = true <-> exists q, query = Some q /\ q <= timecode frame.
Proof.
  unfold atOrAfter. destruct query as [q|].
  - rewrite NumFacts.geb_true. split.
    + intros H. exists q. split; [reflexivity | exact H].
    + intros (q' & Hq & H). now inversion Hq; subst.
  - split; [discriminate | intros (q' & Hq & _); discriminate].
Qed.

(** C2. For every cache and every query timecode the preview lookup is the
    first cached frame whose timecode is at or after the query: every frame
    before it lies strictly before the query, and both seek bars (and the
    single preview of [gplayer.js]) show its image.  When no cached frame is
    at or after the query the lookup is empty and the preview images stay
    what they were. *)
Theorem preview_lookup_first_at_or_after
    (frames : list (Frame Image)) (query : option Q) (prev : Image * Image) :
  match nearestAtOrAfter frames query with
  | Some frame =>
      (exists pre post,
          frames = pre ++ frame :: post /\
          (exists q, query = Some q /\ q <= timecode frame) /\
          Forall (fun earlier =>
                    ~ exists q, query = Some q /\ q <= timecode earlier) pre) /\
      popoverLoop frames query prev = (image frame, image frame) /\
      updateseekBarPopover frames query (fst prev) = image frame
  | None =>
      Forall (fun frame => ~ exists q, query = Some q /\ q <= timecode frame) frames /\
      popoverLoop frames query prev = prev /\
      updateseekBarPopover frames query (fst prev) = fst prev
  end.
Proof.
  rewrite popoverLoop_find, updateseekBarPopover_find.
  unfold nearestAtOrAfter.
  pose proof (Scan.find_first (atOrAfter query) frames) as Hfind.
  assert (Hno : forall l, Forall (fun y : Frame Image => atOrAfter query y = false) l ->
                          Forall (fun y => ~ exists q, query = Some q /\ q <= timecode y) l).
  { intros l. apply Forall_impl. intros y Hy Hex.
    apply atOrAfter_true in Hex. congruence. }
  destruct (find (atOrAfter query) frames) as [frame|].
  - destruct Hfind as (pre & post & Hl & Hx & Hpre).
    repeat split. exists pre, post. repeat split.
    + exact Hl.
    + apply atOrAfter_true, Hx.
    + apply Hno, Hpre.
  - repeat split. apply Hno, Hfind.
Qed.

End Lookup.

End ThumbnailsClaims.

(** ** The seek bar *)

Module SeekBarFacts.
Import SeekBar.
Local Open Scope Q_scope.

Lemma div_nonzero (a b : Q) : ~ b == 0 -> Num.div a b = Some (a / b).
Proof.
  intros Hb. unfold Num.div.
  destruct (Qeq_bool b 0) eqn:E; [|reflexivity].
  apply Qeq_bool_eq in E. contradiction.
Qed.

Lemma div_zero (a b : Q) : b == 0 -> Num.div a b = None.
Proof.
  intros Hb. unfold Num.div. now rewrite (Qeq_eq_bool _ _ Hb).
Qed.

Lemma pos_nonzero (w : Q) : 0 < w -> ~ w == 0.
Proof. intros Hw H0. rewrite H0 in Hw. exact (Qlt_irrefl _ Hw). Qed.

Lemma fraction_bounds (clientX : Q) (l : Layout) :
  0 < width l -> 0 <= fraction clientX l /\ fraction clientX l <= 1.
Proof.
  intros Hw. unfold fraction.
  destruct (@NumFacts.clamp_bounds 0 (clientX - left l) (width l) (Qlt_le_weak _ _ Hw))
    as [Hlo Hhi].
  split.
  - apply Qle_shift_div_l; [exact Hw|]. now rewrite Qmult_0_l.
  - apply Qle_shift_div_r; [exact Hw|]. now rewrite Qmult_1_l.
Qed.

Lemma previewTime_known (d clientX : Q) (l : Layout) :
  0 < width l ->
  previewTime (Some d) clientX l = Some (fraction clientX l * d).
Proof.
  intros Hw. unfold previewTime, fraction.
  now rewrite (div_nonzero _ (pos_nonzero Hw)).
Qed.

Lemma scrubTime_known (d clientX : Q) (l : Layout) :
  0 < width l ->
  scrubTime (Some d) clientX l = Some (d * (clientX - left l) / width l).
Proof.
  intros Hw. unfold scrubTime. now rewrite (div_nonzero _ (pos_nonzero Hw)).
Qed.

End SeekBarFacts.

Module SeekBarClaims.
Import SeekBar Samples SeekBarFacts.
Local Open Scope Q_scope.

(** C3, where it fails: the scrub pipeline does not clamp. A pointer 50
    pixels left of the bar makes it emit the timecode -25, which is neither
    [fraction * duration] nor inside [0, duration]. *)
Lemma scrub_left_of_bar_not_clamped :
  exists t,
    updateScrubbing true (Some 100) 50 bar = [timechange (Some t)] /\
    t == -25 /\ ~ 0 <= t /\ ~ t == fraction 50 bar * 100.
Proof.
  eexists. split; [vm_compute; reflexivity|].
  repeat split; vm_compute; intros H; try (apply H; reflexivity); discriminate.
Qed.

(** C3, amended. On a displayed bar of positive width, with the duration
    known: the preview pipeline emits [fraction * duration] with
    [fraction = clamp(0, clientX - left, width) / width], a timecode inside
    [0, duration]; the scrub pipeline emits
    [duration * (clientX - left) / width] and does not clamp it, so a
    pointer at or left of the left edge of the bar gives a timecode that is
    not positive where the preview pipeline gives zero. *)
Theorem gesture_mapper_timecodes (d clientX : Q) (l : Layout) :
  0 < width l -> 0 <= d -> (offsetWidth l + offsetHeight l <> 0)%Z ->
  (exists u, previewPointerMove (Some d) clientX l = Some u /\
             intent u = previewtimechange (Some (fraction clientX l * d))) /\
  (0 <= fraction clientX l * d /\ fraction clientX l * d <= d) /\
  updateScrubbing true (Some d) clientX l
    = [timechange (Some (d * (clientX - left l) / width l))] /\
  (clientX <= left l ->
   d * (clientX - left l) / width l <= 0 /\ fraction clientX l * d == 0).
Proof.
  intros Hw Hd Hshown.
  destruct (fraction_bounds clientX l Hw) as [Hf0 Hf1].
  split; [|split; [|split]].
  - unfold previewPointerMove.
    apply Z.eqb_neq in Hshown. rewrite Hshown.
    rewrite (previewTime_known _ _ _ Hw).
    eexists. split; reflexivity.
  - split.
    + apply Qmult_le_0_compat; assumption.
    + rewrite <- (Qmult_1_l d) at 2. apply Qmult_le_compat_r; assumption.
  - unfold updateScrubbing. cbn [negb].
    now rewrite (scrubTime_known _ _ _ Hw).
  - intros Hleft.
    assert (Hoff : clientX - left l <= 0) by lra.
    split.
    + apply Qle_shift_div_r; [exact Hw|]. rewrite Qmult_0_l.
      setoid_replace (d * (clientX - left l)) with (- (d * (left l - clientX))) by ring.
      assert (0 <= d * (left l - clientX)) by (apply Qmult_le_0_compat; lra).
      lra.
    + assert (Hc : Num.clamp 0 (clientX - left l) (width l) == 0).
      { unfold Num.clamp.
        rewrite (Q.max_r (clientX - left l) 0 Hoff).
        apply Q.min_l. apply Qlt_le_weak, Hw. }
      unfold fraction. rewrite Hc. field. apply pos_nonzero, Hw.
Qed.

Lemma gesture_mapper_timecodes_witness :
  fraction 200 bar == 1 # 2 /\
  fraction 200 bar * 100 == 50 /\
  (exists u, previewPointerMove (Some 100) 200 bar = Some u /\
             intent u = previewtimechange (Some (fraction 200 bar * 100))) /\
  (exists t, updateScrubbing true (Some 100) 200 bar = [timechange (Some t)] /\
             t == 50).
Proof.
  assert (Hw : 0 < width bar) by reflexivity.
  assert (Hd : 0 <= 100) by discriminate.
  assert (Hs : (offsetWidth bar + offsetHeight bar <> 0)%Z) by discriminate.
  destruct (@gesture_mapper_timecodes 100 200 bar Hw Hd Hs)
    as (Hpreview & _ & Hscrub & _).
  split; [reflexivity|]. split; [reflexivity|]. split; [exact Hpreview|].
  eexists. split; [exact Hscrub | reflexivity].
Defined.

(** C9, where it fails: a bar of zero width that still has a height passes
    the guard of the preview pipeline, which then divides by the zero width
    and emits a timecode that is not a number; the scrub pipeline has no
    guard and does the same. *)
Lemma zero_width_is_not_guarded :
  width squeezed == 0 /\
  (exists u, previewPointerMove (Some 100) 10 squeezed = Some u /\
             intent u = previewtimechange None) /\
  updateScrubbing true (Some 100) 10 squeezed = [timechange None].
Proof.
  split; [reflexivity|]. split; [|reflexivity].
  eexists. split; reflexivity.
Qed.

(** C9, amended. The preview pipeline does nothing at all while
    [offsetWidth + offsetHeight] is zero (the bar is not displayed); when the
    guard lets a move through and the width of the bar is not zero, the
    division is by a non-zero width and the emitted timecode is a number.
    The scrub pipeline does nothing unless scrubbing is active, and divides
    by a non-zero width whenever the width is not zero. *)
Theorem preview_guard (duration : option Q) (clientX : Q) (l : Layout) :
  ((offsetWidth l + offsetHeight l = 0)%Z ->
   previewPointerMove duration clientX l = None) /\
  ((offsetWidth l + offsetHeight l <> 0)%Z -> ~ width l == 0 ->
   forall d, duration = Some d ->
     exists u t, previewPointerMove duration clientX l = Some u /\
                 intent u = previewtimechange (Some t)) /\
  updateScrubbing false duration clientX l = [] /\
  (~ width l == 0 ->
   forall d, duration = Some d ->
     exists t, updateScrubbing true duration clientX l = [timechange (Some t)]).
Proof.
  repeat split.
  - intros Hz. unfold previewPointerMove.
    apply Z.eqb_eq in Hz. now rewrite Hz.
  - intros Hshown Hw d ->. unfold previewPointerMove, previewTime.
    apply Z.eqb_neq in Hshown. rewrite Hshown.
    rewrite (div_nonzero _ Hw). eexists. eexists. split; reflexivity.
  - intros Hw d ->. unfold updateScrubbing, scrubTime. cbn [negb].
    rewrite (div_nonzero _ Hw). eexists. reflexivity.
Qed.

Lemma preview_guard_witness :
  previewPointerMove (Some 100) 200
    {| left := 0; width := 0; offsetWidth := 0; offsetHeight := 0;
       previewWidth := 0 |} = None /\
  (exists u t, previewPointerMove (Some 100) 200 bar = Some u /\
               intent u = previewtimechange (Some t)) /\
  (exists t, updateScrubbing true (Some 100) 200 bar = [timechange (Some t)]).
Proof.
  split; [|split].
  - apply (proj1 (preview_guard (Some 100) 200
                    {| left := 0; width := 0; offsetWidth := 0; offsetHeight := 0;
                       previewWidth := 0 |})).
    reflexivity.
  - apply (proj1 (proj2 (preview_guard (Some 100) 200 bar)))
      with (d := 100); [discriminate | discriminate | reflexivity].
  - apply (proj2 (proj2 (proj2 (preview_guard (Some 100) 200 bar))))
      with (d := 100); [discriminate | reflexivity].
Defined.

End SeekBarClaims.

(** ** Subtitles *)

Module SubtitlesClaims.
Import Subtitles.
Local Open Scope Q_scope.

Lemma shown_iff (t : Q) (s : Subtitle) :
  shown t s = true <-> start s <= t /\ t < end_ s.
Proof.
  unfold shown. now rewrite andb_true_iff, NumFacts.geb_true, NumFacts.ltb_true.
Qed.

Lemma subtitleLoop_resolve (render : string -> string) (objects : list Subtitle) (t : Q)
    (init : string) :
  subtitleLoop render objects t init =
    match resolve objects t with
    | Some s => render (text s)
    | None => init
    end.
Proof.
  unfold resolve.
  induction objects as [|s rest IH]; cbn [subtitleLoop find]; [reflexivity|].
  destruct (shown t s); [reflexivity | exact IH].
Qed.

Lemma assign_spec (c : Container) (markup : string) :
  innerHTML (assign c markup) = markup /\
  (innerHTML c = markup -> assign c markup = c) /\
  (innerHTML c <> markup -> assignments (assign c markup) = S (assignments c)).
Proof.
  unfold assign. destruct (String.eqb_spec (innerHTML c) markup) as [E|E].
  - split; [exact E|]. split; [reflexivity | contradiction].
  - split; [reflexivity|]. split; [contradiction | reflexivity].
Qed.

(** C4, where it fails: with subtitles switched off (the state the player
    starts in) a pass resolves nothing, whatever the track holds: at
    [currentTime = 2] the track [ab] yields the empty markup, not "b". *)
Lemma subtitles_off_resolves_nothing :
  resolve ab 2 = Some {| start := 2; end_ := 4; text := "b" |} /\
  newSubtitles (fun text => text) false (Some ab) 2 = Some ""%string /\
  animationLoopSubtitles (fun text => text) false (Some ab) 2
    {| innerHTML := "b"; assignments := 0 |}
  = Some {| innerHTML := ""; assignments := 1 |}.
Proof. repeat split. Qed.

(** C4, amended. While subtitles are switched on and a track is loaded, a
    pass resolves the first entry whose interval [[start, end)] holds the
    current time (none when no interval does) and renders its text; with
    the track [ab] that is "b" at 2 and "a" at 1.999.  While subtitles are
    switched off the resolved markup is empty.  In both cases the container
    ends up holding the resolved markup and is assigned only when that
    differs from what it held. *)
Theorem subtitle_resolution (render : string -> string)
    (objects : list Subtitle) (t : Q) (c : Container) :
  (match resolve objects t with
   | Some s =>
       (exists pre post, objects = pre ++ s :: post /\
          (start s <= t /\ t < end_ s) /\
          Forall (fun e => ~ (start e <= t /\ t < end_ e)) pre) /\
       newSubtitles render true (Some objects) t = Some (render (text s))
   | None =>
       Forall (fun e => ~ (start e <= t /\ t < end_ e)) objects /\
       newSubtitles render true (Some objects) t = Some ""%string
   end) /\
  option_map text (resolve ab 2) = Some "b"%string /\
  option_map text (resolve ab (1999 # 1000)) = Some "a"%string /\
  newSubtitles render false (Some objects) t = Some ""%string /\
  (forall on, exists markup,
      newSubtitles render on (Some objects) t = Some markup /\
      exists c', animationLoopSubtitles render on (Some objects) t c = Some c' /\
        innerHTML c' = markup /\
        (innerHTML c = markup -> c' = c) /\
        (innerHTML c <> markup -> assignments c' = S (assignments c))).
Proof.
  assert (Hno : forall l, Forall (fun e => shown t e = false) l ->
                          Forall (fun e => ~ (start e <= t /\ t < end_ e)) l).
  { intros l. apply Forall_impl. intros e He Hin.
    apply shown_iff in Hin. congruence. }
  split; [|split; [reflexivity|split; [reflexivity|split; [reflexivity|]]]].
  - unfold newSubtitles. rewrite subtitleLoop_resolve. unfold resolve.
    pose proof (Scan.find_first (shown t) objects) as Hfind.
    destruct (find (shown t) objects) as [s|].
    + destruct Hfind as (pre & post & Hl & Hs & Hpre).
      split; [|reflexivity]. exists pre, post. repeat split.
      * exact Hl.
      * apply shown_iff, Hs.
      * apply shown_iff, Hs.
      * apply Hno, Hpre.
    + split; [apply Hno, Hfind | reflexivity].
  - intros on. unfold animationLoopSubtitles.
    destruct (newSubtitles render on (Some objects) t) as [markup|] eqn:Hnew.
    + exists markup. split; [reflexivity|].
      exists (assign c markup). split; [reflexivity|]. apply assign_spec.
    + unfold newSubtitles in Hnew. destruct on; discriminate.
Qed.

End SubtitlesClaims.

(** ** The player *)

Module PlayerFacts.
Import Player PlayerSpec.
Local Open Scope Q_scope.

(** *** One pending timer per variable *)

(** Dropping timers keeps the handles of the rest distinct. *)
Lemma handles_distinct_filter (keep : Timer -> bool) (ts : list Timer) :
  NoDup (map handle ts) -> NoDup (map handle (filter keep ts)).
Proof.
  induction ts as [|t ts IH]; cbn [map filter]; intros H; [exact H|].
  inversion H as [|? ? Hnotin Hnd]; subst.
  destruct (keep t); [|now apply IH].
  cbn [map]. constructor; [|now apply IH].
  intros Hin. apply Hnotin. apply in_map_iff in Hin.
  destruct Hin as (x & Hx & Hin). apply filter_In in Hin.
  apply in_map_iff. exists x. tauto.
Qed.

Lemma slotOk_filter cb slot p ts : slotOk cb slot ts -> slotOk cb slot (filter p ts).
Proof.
  intros H t Hin. apply filter_In in Hin. apply H. tauto.
Qed.

Lemma wf_clearTimeout (h : option nat) (s : State) : wf s -> wf (clearTimeout h s).
Proof.
  destruct h as [h|]; [|exact (fun H => H)].
  intros (Hfresh & Hnd & Hh & Hp & Ht). unfold wf, clearTimeout. cbn.
  repeat split.
  - apply Forall_forall. intros t Hin. apply filter_In in Hin.
    rewrite Forall_forall in Hfresh. apply Hfresh. tauto.
  - now apply handles_distinct_filter.
  - now apply slotOk_filter.
  - now apply slotOk_filter.
  - now apply slotOk_filter.
Qed.

(** Clearing the handle a variable holds leaves no timer of its kind. *)
Lemma quiet_after_clear (cb : Callback) (slot : option nat) (s : State) :
  slotOk cb slot (timers s) -> quiet cb (clearTimeout slot s).
Proof.
  intros Hok t Hin Hcb. destruct slot as [h|]; cbn in Hin.
  - apply filter_In in Hin. destruct Hin as [Hin Hne].
    specialize (Hok t Hin Hcb). inversion Hok; subst.
    rewrite Nat.eqb_refl in Hne. discriminate.
  - specialize (Hok t Hin Hcb). discriminate.
Qed.

Lemma quiet_clearTimeout (cb : Callback) (h : option nat) (s : State) :
  quiet cb s -> quiet cb (clearTimeout h s).
Proof.
  intros Hq t Hin. destruct h as [h|]; cbn in Hin; [|now apply Hq].
  apply filter_In in Hin. apply Hq. tauto.
Qed.

Lemma slotOk_app_other cb cb' slot ts t :
  callback t = cb' -> cb' <> cb -> slotOk cb slot ts -> slotOk cb slot (ts ++ [t]).
Proof.
  intros Ht Hne Hok x Hin Hx. apply in_app_or in Hin. destruct Hin as [Hin|[<-|[]]].
  - now apply Hok.
  - congruence.
Qed.

Lemma slotOk_armed cb ts t :
  callback t = cb -> (forall x, In x ts -> callback x <> cb) ->
  slotOk cb (Some (handle t)) (ts ++ [t]).
Proof.
  intros Ht Hq x Hin Hx. apply in_app_or in Hin. destruct Hin as [Hin|[<-|[]]].
  - now destruct (Hq x Hin).
  - reflexivity.
Qed.

Lemma fresh_timer (s : State) (cb : Callback) (delay : Z) :
  Forall (fun t => (handle t < nextTimerId s)%nat) (timers s) ->
  NoDup (map handle (timers s)) ->
  let s' := snd (setTimeout cb delay s) in
  Forall (fun t => (handle t < nextTimerId s')%nat) (timers s') /\
  NoDup (map handle (timers s')).
Proof.
  intros Hfresh Hnd. cbn. split.
  - apply Forall_app. split.
    + eapply Forall_impl; [|exact Hfresh]. cbn. intros; lia.
    + repeat constructor.
  - rewrite map_app. cbn [map handle].
    apply NoDup_app; [exact Hnd | repeat constructor; intros [] |].
    intros h Hin [<-|[]]. apply in_map_iff in Hin. destruct Hin as (t & Ht & Hin).
    rewrite Forall_forall in Hfresh. specialize (Hfresh t Hin). lia.
Qed.

Lemma wf_arm (cb : Callback) (delay : Z) (s : State) :
  wf s -> (cb <> removeNoClick -> quiet cb s) ->
  let h := nextTimerId s in
  let s' := snd (setTimeout cb delay s) in
  wf (match cb with
      | hideControls => with_hideControlsTimeout (Some h) s'
      | playPause => with_playPauseTimeout (Some h) s'
      | tapJump => with_tapJumpTimeout (Some h) s'
      | removeNoClick => s'
      end).
Proof.
  intros (Hfresh & Hnd & Hh & Hp & Ht) Hq h s'.
  destruct (fresh_timer s cb delay Hfresh Hnd) as [Hf' Hn'].
  set (t := {| handle := nextTimerId s; due := now s + Z.max 0 delay; callback := cb |}).
  assert (Harmed : cb <> removeNoClick -> slotOk cb (Some h) (timers s ++ [t])).
  { intros Hcb. apply (@slotOk_armed cb (timers s) t); [reflexivity | exact (Hq Hcb)]. }
  assert (Hother : forall cb' slot, cb <> cb' -> slotOk cb' slot (timers s) ->
                                    slotOk cb' slot (timers s ++ [t])).
  { intros cb' slot Hne. apply slotOk_app_other with (cb' := cb); [reflexivity | exact Hne]. }
  destruct cb; unfold wf; cbn; repeat split;
    try exact Hf'; try exact Hn'; try (apply Harmed; discriminate);
    apply Hother; (discriminate || assumption).
Qed.

Lemma updateHideControls_eq (s : State) :
  updateHideControls s =
    let s1 := clearTimeout (hideControlsTimeout s) (with_controlsHidden false s) in
    with_hideControlsTimeout (Some (nextTimerId s))
      (snd (setTimeout hideControls
              (if mobile s then Options.hideControlsTimeoutMobile (options s)
               else Options.hideControlsTimeout (options s)) s1)).
Proof. reflexivity. Qed.

Lemma wf_updateHideControls (s : State) : wf s -> wf (updateHideControls s).
Proof.
  intros Hwf. rewrite updateHideControls_eq. cbv zeta.
  set (s1 := clearTimeout (hideControlsTimeout s) (with_controlsHidden false s)).
  apply (@wf_arm hideControls _ s1).
  - subst s1. apply wf_clearTimeout. exact Hwf.
  - intros _. subst s1. apply quiet_after_clear. apply Hwf.
Qed.

Lemma wf_togglePaused (s : State) : wf s -> wf (togglePaused s).
Proof. intros Hwf. unfold togglePaused, updatePaused. apply wf_updateHideControls. exact Hwf. Qed.

Lemma wf_toggleOverlay (s : State) : wf s -> wf (toggleOverlay s).
Proof.
  intros Hwf. unfold toggleOverlay. destruct (controlsHidden s).
  - now apply wf_updateHideControls.
  - exact Hwf.
Qed.

Lemma wf_runCallback (cb : Callback) (s : State) : wf s -> wf (runCallback cb s).
Proof.
  intros Hwf. destruct cb; cbn [runCallback].
  - destruct (paused s); [exact Hwf|]. destruct (ended s); exact Hwf.
  - now apply wf_togglePaused.
  - now apply wf_toggleOverlay.
  - exact Hwf.
Qed.

Lemma wf_setCurrentTime (v : option Q) (s : State) : wf s -> wf (setCurrentTime v s).
Proof.
  intros Hwf. destruct v as [q|]; exact Hwf.
Qed.

Lemma wf_mouseDown (buttons : Z) (s : State) : wf s -> wf (mouseDown buttons s).
Proof.
  intros Hwf. unfold mouseDown.
  destruct (negb (buttons =? 1)%Z); [exact Hwf|]. cbv zeta.
  generalize (updateHideControls s) (wf_updateHideControls Hwf).
  clear s Hwf. intros s Hwf.
  pose proof (@quiet_after_clear playPause (playPauseTimeout s) s
                (proj1 (proj2 (proj2 (proj2 Hwf))))) as Hq.
  generalize (clearTimeout (playPauseTimeout s) s)
             (wf_clearTimeout (playPauseTimeout s) Hwf) Hq.
  clear s Hwf Hq. intros s Hwf Hq.
  destruct (now s - lastClickTime s <=? Options.doubleClickDuration (options s))%Z.
  - exact Hwf.
  - apply (@wf_arm playPause (Options.doubleClickDuration (options s))
             (with_lastClickTime (now s) s)); [exact Hwf | intros _; exact Hq].
Qed.

Lemma wf_touchDown (d : Direction) (s : State) : wf s -> wf (touchDown d s).
Proof.
  intros Hwf. unfold touchDown. cbv zeta.
  pose proof (@quiet_after_clear tapJump (tapJumpTimeout s) s
                (proj2 (proj2 (proj2 (proj2 Hwf))))) as Hq.
  generalize (clearTimeout (tapJumpTimeout s) s)
             (wf_clearTimeout (tapJumpTimeout s) Hwf) Hq.
  clear s Hwf Hq. intros s Hwf Hq.
  assert (Harm : forall s', wf s' -> quiet tapJump s' ->
            wf (let '(h, s'') :=
                  setTimeout tapJump (Options.doubleTapJumpDuration (options s')) s' in
                with_tapJumpTimeout (Some h) s'')).
  { intros s' H1 H2. apply (@wf_arm tapJump _ s' H1 (fun _ => H2)). }
  destruct d.
  1,2: destruct (now s - lastTapTime s <=? Options.doubleTapJumpDuration (options s))%Z;
       cbn [negb];
       [ apply (@wf_setCurrentTime _ s Hwf)
       | apply (Harm (with_lastTapTime (now s) s)); assumption ].
  cbn [negb]. now apply wf_toggleOverlay.
Qed.

Lemma wf_perform (e : Effect) (s : State) : wf s -> wf (perform e s).
Proof. exact (fun H => H). Qed.

Lemma wf_keydown (key : string) (buttonFocused : bool) (s : State) :
  wf s -> wf (keydown key buttonFocused s).
Proof.
  intros Hwf. unfold keydown. cbv zeta.
  generalize (updateHideControls s) (wf_updateHideControls Hwf).
  clear s Hwf. intros s Hwf.
  repeat match goal with
         | |- wf (if ?c then _ else _) => destruct c
         end;
    first [ exact Hwf | now apply wf_togglePaused | now apply wf_setCurrentTime ].
Qed.

Lemma wf_step (s s' : State) (e : Event) : wf s -> step s e = Some s' -> wf s'.
Proof.
  intros Hwf Hstep. destruct e; cbn [step] in Hstep.
  - inversion Hstep; subst. destruct pointerType; cbn [videoPointerDown];
      first [ now apply wf_mouseDown | now apply wf_touchDown ].
  - inversion Hstep; subst. destruct pointerType; cbn [videoPointerUp]; try exact Hwf;
      (destruct (negb (controlsHidden s)); [|exact Hwf]);
      apply (@wf_arm removeNoClick 100 s Hwf); intros Hne; now destruct Hne.
  - inversion Hstep; subst. destruct pointerType; cbn [playerPointerMove];
      first [ now apply wf_updateHideControls | exact Hwf ].
  - inversion Hstep; subst. now apply wf_keydown.
  - inversion Hstep; subst. destruct b; cbn [onClick];
      first [ now apply wf_togglePaused | exact Hwf ].
  - inversion Hstep; subst. destruct i; cbn [onSeekBar].
    + now apply wf_setCurrentTime.
    + exact Hwf.
    + now apply wf_updateHideControls.
  - inversion Hstep; subst. unfold onEnded, updatePaused. cbv zeta.
    apply wf_updateHideControls, wf_updateHideControls, wf_perform. exact Hwf.
  - inversion Hstep; subst. exact Hwf.
  - destruct (Num.leb 0 d); inversion Hstep; subst. exact Hwf.
  - destruct (find (fun t => (handle t =? h)%nat) (timers s)) as [t|]; [|discriminate].
    destruct (due t <=? now s)%Z; inversion Hstep; subst.
    apply wf_runCallback. now apply (@wf_clearTimeout (Some h)).
  - destruct (0 <=? ms)%Z; inversion Hstep; subst. exact Hwf.
Qed.

Lemma wf_run (events : list Event) :
  forall s s', wf s -> run s events = Some s' -> wf s'.
Proof.
  induction events as [|e rest IH]; intros s s' Hwf Hrun; cbn [run] in Hrun.
  - now inversion Hrun; subst.
  - destruct (step s e) as [s1|] eqn:Hstep; [|discriminate].
    eapply IH; [|exact Hrun]. eapply wf_step; eassumption.
Qed.

Lemma wf_constructed o t0 hidden isMobile : wf (constructed o t0 hidden isMobile).
Proof.
  unfold wf. cbn. repeat split; try constructor; intros t [].
Qed.

Lemma wf_reachable (s : State) : reachable s -> wf s.
Proof.
  intros (o & t0 & hidden & isMobile & events & Hrun).
  eapply wf_run; [|exact Hrun].
  unfold connectedCallback, updatePaused. cbv zeta.
  apply wf_updateHideControls, wf_perform, wf_updateHideControls, wf_constructed.
Qed.

(** *** A freshly armed timer *)

Lemma sameCallback_true (a b : Callback) : sameCallback a b = true <-> a = b.
Proof. destruct a, b; cbn; split; intros H; congruence. Qed.

Lemma pending_quiet (cb : Callback) (s : State) : quiet cb s -> pending cb s = [].
Proof.
  unfold quiet, pending. induction (timers s) as [|t ts IH]; intros Hq; [reflexivity|].
  cbn [filter]. destruct (sameCallback (callback t) cb) eqn:E.
  - apply sameCallback_true in E. destruct (Hq t (or_introl eq_refl) E).
  - apply IH. intros x Hx. apply Hq. now right.
Qed.

Lemma at_most_one (cb : Callback) (slot : option nat) (ts : list Timer) :
  NoDup (map handle ts) -> slotOk cb slot ts ->
  (List.length (filter (fun t => sameCallback (callback t) cb) ts) <= 1)%nat.
Proof.
  induction ts as [|t ts IH]; intros Hnd Hok; cbn [filter]; [cbn; lia|].
  inversion Hnd as [|? ? Hnotin Hnd']; subst.
  assert (Hok' : slotOk cb slot ts) by (intros x Hx; apply Hok; now right).
  destruct (sameCallback (callback t) cb) eqn:E; [|now apply IH].
  apply sameCallback_true in E.
  assert (Hnone : filter (fun x => sameCallback (callback x) cb) ts = []).
  { destruct (filter (fun x => sameCallback (callback x) cb) ts) as [|x xs] eqn:F;
      [reflexivity|].
    assert (Hx : In x (filter (fun x => sameCallback (callback x) cb) ts))
      by (rewrite F; now left).
    apply filter_In in Hx. destruct Hx as [Hx Hcb]. apply sameCallback_true in Hcb.
    pose proof (Hok t (or_introl eq_refl) E) as H1.
    pose proof (Hok x (or_intror Hx) Hcb) as H2.
    exfalso. apply Hnotin. apply in_map_iff. exists x. split; [congruence | exact Hx]. }
  rewrite Hnone. cbn. lia.
Qed.




Lemma quiet_updateHideControls (cb : Callback) (s : State) :
  cb <> hideControls -> quiet cb s -> quiet cb (updateHideControls s).
Proof.
  intros Hne Hq t Hin. rewrite updateHideControls_eq in Hin. cbn in Hin.
  apply in_app_or in Hin. destruct Hin as [Hin|[<-|[]]].
  - destruct (hideControlsTimeout s); [apply filter_In in Hin|]; apply Hq; tauto.
  - cbn. congruence.
Qed.

(** *** The hide timer *)


(** *** Mouse clicks *)



(** *** Running a pending timer *)

Lemma sameFlags_trans (a b c : State) : sameFlags a b -> sameFlags b c -> sameFlags a c.
Proof.
  unfold sameFlags. intros (A1 & A2 & A3 & A4 & A5 & A6 & A7 & A8 & A9 & A10)
                           (B1 & B2 & B3 & B4 & B5 & B6 & B7 & B8 & B9 & B10).
  repeat split; congruence.
Qed.

Lemma sameFlags_updateHideControls (s : State) : sameFlags s (updateHideControls s).
Proof. repeat split. Qed.

Lemma sameFlags_clearTimeout (h : option nat) (s : State) : sameFlags s (clearTimeout h s).
Proof. repeat split. Qed.

Lemma sameFlags_with_now (v : Z) (s : State) : sameFlags s (with_now v s).
Proof. repeat split. Qed.


Lemma step_elapse (s : State) (ms : Z) :
  (0 <= ms)%Z -> step s (elapse ms) = Some (with_now (now s + ms) s).
Proof. intros H. cbn [step]. destruct (Z.leb_spec 0 ms); [reflexivity | lia]. Qed.

Lemma quiet_timers (cb : Callback) (s s' : State) :
  timers s' = timers s -> quiet cb s -> quiet cb s'.
Proof. unfold quiet. now intros ->. Qed.



(** *** Seeking *)

Lemma seekTarget_bounds (position d : Q) :
  0 <= d -> 0 <= seekTarget position d /\ seekTarget position d <= d.
Proof.
  intros Hd. unfold seekTarget.
  destruct (Num.gtb position d) eqn:Hgt; [split; [exact Hd | apply Qle_refl]|].
  destruct (Num.ltb position 0) eqn:Hlt; [split; [apply Qle_refl | exact Hd]|].
  apply NumFacts.ltb_false in Hlt. split; [exact Hlt|].
  unfold Num.gtb in Hgt. apply negb_false_iff in Hgt. now apply Qle_bool_iff in Hgt.
Qed.

(** The host's seek is the player's [clamp(0, position, duration)]. *)
Lemma seekTarget_clamp (position d : Q) :
  0 <= d -> seekTarget position d == Num.clamp 0 position d.
Proof.
  intros Hd. unfold seekTarget, Num.clamp.
  destruct (Num.gtb position d) eqn:Hgt.
  - apply NumFacts.gtb_true in Hgt. symmetry. apply Q.min_r.
    eapply Qle_trans; [apply Qlt_le_weak, Hgt | apply Q.le_max_l].
  - unfold Num.gtb in Hgt. apply negb_false_iff in Hgt. apply Qle_bool_iff in Hgt.
    destruct (Num.ltb position 0) eqn:Hlt.
    + apply NumFacts.ltb_true in Hlt. rewrite (Q.max_r position 0) by now apply Qlt_le_weak.
      symmetry. now apply Q.min_l.
    + apply NumFacts.ltb_false in Hlt. rewrite (Q.max_l position 0) by exact Hlt.
      symmetry. now apply Q.min_l.
Qed.

Lemma setCurrentTime_known (position d : Q) (s : State) :
  duration s = Some d ->
  currentTime (setCurrentTime (Some position) s) = seekTarget position d /\
  duration (setCurrentTime (Some position) s) = Some d /\
  effects (setCurrentTime (Some position) s)
  = assignCurrentTime (Some position) :: effects s.
Proof.
  intros Hd. unfold setCurrentTime. cbv zeta. cbn [currentTime with_currentTime].
  change (duration (perform (assignCurrentTime (Some position)) s)) with (duration s).
  rewrite Hd. repeat split. exact Hd.
Qed.

Lemma inRange_same (s s' : State) : sameVideo s s' -> inRange s -> inRange s'.
Proof.
  intros [Hc Hd] H d' Hd'. rewrite Hd in Hd'. rewrite Hc. now apply H.
Qed.

Lemma inRange_setCurrentTime (value : option Q) (s : State) :
  inRange s -> inRange (setCurrentTime value s).
Proof.
  intros H. destruct value as [position|]; [|exact H].
  destruct (duration s) as [d|] eqn:Hd.
  - destruct (setCurrentTime_known position s Hd) as (Hc & Hd' & _).
    intros d' Hd''. rewrite Hd' in Hd''. inversion Hd''; subst d'.
    rewrite Hc. destruct (H d Hd) as (H0 & _).
    split; [exact H0 | now apply seekTarget_bounds].
  - intros d' Hd'. change (duration (setCurrentTime (Some position) s))
      with (duration s) in Hd'. congruence.
Qed.

Lemma sameVideo_updateHideControls (s : State) : sameVideo s (updateHideControls s).
Proof. split; reflexivity. Qed.

Lemma sameVideo_togglePaused (s : State) : sameVideo s (togglePaused s).
Proof. split; reflexivity. Qed.

Lemma sameVideo_toggleOverlay (s : State) : sameVideo s (toggleOverlay s).
Proof. unfold toggleOverlay. destruct (controlsHidden s); split; reflexivity. Qed.

Lemma inRange_runCallback (cb : Callback) (s : State) :
  inRange s -> inRange (runCallback cb s).
Proof.
  intros H. destruct cb; cbn [runCallback].
  - destruct (paused s); [exact H|]. destruct (ended s); exact H.
  - exact (inRange_same (sameVideo_togglePaused s) H).
  - exact (inRange_same (sameVideo_toggleOverlay s) H).
  - exact H.
Qed.

Lemma inRange_mouseDown (buttons : Z) (s : State) :
  inRange s -> inRange (mouseDown buttons s).
Proof.
  intros H. apply (@inRange_same s); [|exact H].
  unfold mouseDown. destruct (negb (buttons =? 1)%Z); [split; reflexivity|]. cbv zeta.
  destruct (now (clearTimeout (playPauseTimeout (updateHideControls s))
                   (updateHideControls s))
            - lastClickTime (clearTimeout (playPauseTimeout (updateHideControls s))
                               (updateHideControls s))
            <=? Options.doubleClickDuration
                  (options (clearTimeout (playPauseTimeout (updateHideControls s))
                              (updateHideControls s))))%Z;
    split; reflexivity.
Qed.

Lemma inRange_touchDown (d : Direction) (s : State) :
  inRange s -> inRange (touchDown d s).
Proof.
  intros H. unfold touchDown. cbv zeta.
  assert (H1 : inRange (clearTimeout (tapJumpTimeout s) s)) by exact H.
  revert H1. generalize (clearTimeout (tapJumpTimeout s) s). clear s H. intros s H.
  destruct d.
  1,2: destruct (now s - lastTapTime s <=? Options.doubleTapJumpDuration (options s))%Z;
       cbn [negb];
       [ exact (@inRange_setCurrentTime _ s H) | exact H ].
  cbn [negb]. exact (inRange_same (sameVideo_toggleOverlay s) H).
Qed.

Lemma inRange_keydown (key : string) (buttonFocused : bool) (s : State) :
  inRange s -> inRange (keydown key buttonFocused s).
Proof.
  intros H. unfold keydown. cbv zeta.
  assert (H1 : inRange (updateHideControls s)) by exact H.
  assert (Hc : currentTime (updateHideControls s) = currentTime s) by reflexivity.
  revert H1. generalize (updateHideControls s). clear H Hc. intros u H.
  repeat match goal with
         | |- inRange (if ?c then _ else _) => destruct c
         end;
    first [ exact H
          | exact (inRange_same (sameVideo_togglePaused u) H)
          | exact (@inRange_setCurrentTime _ u H) ].
Qed.

Lemma inRange_step (s s' : State) (e : Event) :
  inRange s -> step s e = Some s' -> inRange s'.
Proof.
  intros H Hstep. destruct e; cbn [step] in Hstep.
  - inversion Hstep; subst. destruct pointerType; cbn [videoPointerDown];
      first [ now apply inRange_mouseDown | now apply inRange_touchDown ].
  - inversion Hstep; subst. destruct pointerType; cbn [videoPointerUp]; try exact H;
      (destruct (negb (controlsHidden s)); exact H).
  - inversion Hstep; subst. destruct pointerType; exact H.
  - inversion Hstep; subst. now apply inRange_keydown.
  - inversion Hstep; subst. destruct b; exact H.
  - inversion Hstep; subst. destruct i; cbn [onSeekBar].
    + now apply inRange_setCurrentTime.
    + exact H.
    + exact H.
  - inversion Hstep; subst. exact H.
  - inversion Hstep; subst. exact H.
  - destruct (Num.leb 0 d) eqn:Hd; inversion Hstep; subst.
    apply NumFacts.leb_true in Hd. intros d' Hd'. cbn in Hd'. inversion Hd'; subst d'.
    split; [exact Hd|]. apply (seekTarget_bounds (currentTime s) Hd).
  - destruct (find (fun t => (handle t =? h)%nat) (timers s)) as [t|]; [|discriminate].
    destruct (due t <=? now s)%Z; inversion Hstep; subst.
    apply inRange_runCallback. exact H.
  - destruct (0 <=? ms)%Z; inversion Hstep; subst. exact H.
Qed.

Lemma inRange_run (events : list Event) :
  forall s s', inRange s -> run s events = Some s' -> inRange s'.
Proof.
  induction events as [|e rest IH]; intros s s' H Hrun; cbn [run] in Hrun.
  - now inversion Hrun; subst.
  - destruct (step s e) as [s1|] eqn:Hstep; [|discriminate].
    eapply IH; [|exact Hrun]. eapply inRange_step; eassumption.
Qed.

Lemma inRange_reachable (s : State) : reachable s -> inRange s.
Proof.
  intros (o & t0 & hidden & isMobile & events & Hrun).
  eapply inRange_run; [|exact Hrun]. intros d Hd. discriminate Hd.
Qed.

(** *** Touch contacts *)

(** A contact in a jump zone within the threshold of [lastTapTime] seeks by
    the jump distance, in the direction of the contact, and leaves the
    overlay alone. *)
Lemma touch_jump (d : Direction) (s : State) :
  wf s -> d <> noJump ->
  (now s - lastTapTime s <= Options.doubleTapJumpDuration (options s))%Z ->
  let s' := touchDown d s in
  let target := currentTime s + jumpBy (options s) d in
  effects s' = assignCurrentTime (Some target) :: effects s /\
  controlsHidden s' = controlsHidden s /\
  noClick s' = noClick s /\
  lastTapTime s' = now s /\
  pending tapJump s' = [] /\
  (forall dur, duration s = Some dur -> currentTime s' = seekTarget target dur).
Proof.
  intros Hwf Hd Hnear s' target.
  assert (Hq : quiet tapJump (clearTimeout (tapJumpTimeout s) s))
    by (apply quiet_after_clear, Hwf).
  assert (Htest : (now s - lastTapTime s <=? Options.doubleTapJumpDuration (options s))%Z
                  = true) by (apply Z.leb_le; exact Hnear).
  assert (Hs' : s' = with_lastTapTime (now s)
                       (with_lastTapTime 0
                          (setCurrentTime (Some target) (clearTimeout (tapJumpTimeout s) s)))).
  { unfold s', touchDown. cbv zeta.
    change (now (clearTimeout (tapJumpTimeout s) s)) with (now s).
    change (lastTapTime (clearTimeout (tapJumpTimeout s) s)) with (lastTapTime s).
    change (options (clearTimeout (tapJumpTimeout s) s)) with (options s).
    change (currentTime (clearTimeout (tapJumpTimeout s) s)) with (currentTime s).
    rewrite Htest. cbn [negb]. destruct d; [reflexivity | reflexivity | contradiction]. }
  rewrite Hs'. clear Hs' s'.
  assert (Hdur : duration (clearTimeout (tapJumpTimeout s) s) = duration s) by reflexivity.
  assert (Heff : effects (clearTimeout (tapJumpTimeout s) s) = effects s) by reflexivity.
  assert (Hvis : controlsHidden (clearTimeout (tapJumpTimeout s) s) = controlsHidden s)
    by reflexivity.
  assert (Hnc : noClick (clearTimeout (tapJumpTimeout s) s) = noClick s) by reflexivity.
  revert Hq Hdur Heff Hvis Hnc. generalize (clearTimeout (tapJumpTimeout s) s).
  intros c Hq Hdur Heff Hvis Hnc.
  repeat split.
  - rewrite <- Heff. reflexivity.
  - rewrite <- Hvis. reflexivity.
  - rewrite <- Hnc. reflexivity.
  - apply (@pending_quiet tapJump). exact Hq.
  - intros dur Hdur'. rewrite <- Hdur in Hdur'.
    destruct (setCurrentTime_known target c Hdur') as (Hc & _). exact Hc.
Qed.

(** Whatever a contact in a jump zone does, it leaves [lastTapTime] at the
    time of the contact. *)
Lemma touch_stamps (d : Direction) (s : State) :
  wf s -> d <> noJump ->
  let s' := touchDown d s in
  wf s' /\ lastTapTime s' = now s /\ now s' = now s /\ options s' = options s.
Proof.
  intros Hwf Hd s'. split; [now apply wf_touchDown|].
  unfold s', touchDown. cbv zeta.
  assert (Hn : now (clearTimeout (tapJumpTimeout s) s) = now s) by reflexivity.
  assert (Ho : options (clearTimeout (tapJumpTimeout s) s) = options s) by reflexivity.
  revert Hn Ho. generalize (clearTimeout (tapJumpTimeout s) s). intros c Hn Ho.
  destruct d; [| |contradiction];
    (destruct (now c - lastTapTime c <=? Options.doubleTapJumpDuration (options c))%Z;
     cbn [negb]; repeat split; assumption).
Qed.

(** A contact outside the jump zones never seeks. *)
Lemma touch_center (s : State) :
  let s' := touchDown noJump s in
  effects s' = effects s /\ currentTime s' = currentTime s.
Proof.
  cbv zeta. unfold touchDown. cbv zeta. cbn [negb].
  assert (He : effects (clearTimeout (tapJumpTimeout s) s) = effects s) by reflexivity.
  assert (Hc : currentTime (clearTimeout (tapJumpTimeout s) s) = currentTime s)
    by reflexivity.
  revert He Hc. generalize (clearTimeout (tapJumpTimeout s) s).
  intros c He Hc. unfold toggleOverlay.
  destruct (controlsHidden c); split; assumption.
Qed.

End PlayerFacts.

Module PlayerClaims.
Import Player PlayerSpec Samples PlayerFacts.







Lemma reachable_loaded : reachable loaded.
Proof.
  exists Options.defaults, 1700000000000%Z, false, false, [loadedmetadata 100].
  reflexivity.
Defined.






(** C8, where it fails: a tap in the left zone followed 100 ms later by a
    tap in the right zone jumps forward; the zone of the earlier tap is not
    remembered. *)
Lemma opposite_zone_jumps :
  direction Options.defaults 10 0 1000 = jumpLeft /\
  direction Options.defaults 990 0 1000 = jumpRight /\
  option_map (fun s => (effects s, currentTime s))
    (run loaded [tapLeft; elapse 100; tapRight])
  = Some (assignCurrentTime (Some 5%Q) :: effects loaded, 5%Q).
Proof.
  split; [vm_compute; reflexivity|]. split; vm_compute; reflexivity.
Qed.

(** C8, amended. After a touch contact in a jump zone, a second touch
    contact at most the jump threshold later that is in a jump zone (the
    same or the opposite one) seeks by the jump distance, backwards for the
    left zone and forwards for the right zone of the second contact; it
    changes neither the visibility of the overlay nor leaves a deferred
    toggle pending.  A second contact outside the jump zones does not
    seek. *)
Theorem double_tap_jump (s : State) (pt1 pt2 : PointerType) (b1 b2 : Z)
    (x1 x2 : Q) (ol1 ow1 ol2 ow2 ms : Z) :
  reachable s -> pt1 <> mouse -> pt2 <> mouse ->
  direction (options s) x1 ol1 ow1 <> noJump ->
  (0 <= ms <= Options.doubleTapJumpDuration (options s))%Z ->
  (exists s1 s2 s3,
      step s (pointerdown pt1 b1 x1 ol1 ow1) = Some s1 /\
      step s1 (elapse ms) = Some s2 /\
      step s2 (pointerdown pt2 b2 x2 ol2 ow2) = Some s3 /\
      match direction (options s) x2 ol2 ow2 with
      | noJump => effects s3 = effects s2 /\ currentTime s3 = currentTime s2
      | zone =>
          effects s3
          = assignCurrentTime (Some (currentTime s2 + jumpBy (options s) zone)%Q)
              :: effects s2 /\
          (forall dur, duration s2 = Some dur ->
             currentTime s3
             = seekTarget (currentTime s2 + jumpBy (options s) zone) dur) /\
          controlsHidden s3 = controlsHidden s2 /\
          noClick s3 = noClick s2 /\
          pending tapJump s3 = []
      end) /\
  jumpBy (options s) jumpLeft = (- Options.doubleTapJumpDistance (options s))%Q /\
  jumpBy (options s) jumpRight = Options.doubleTapJumpDistance (options s).
Proof.
  intros Hreach Hpt1 Hpt2 Hzone Hms. pose proof (wf_reachable Hreach) as Hwf.
  split; [|split; reflexivity].
  destruct (touch_stamps Hwf Hzone) as (Hwf1 & Hlast & Hnow & Hopt).
  cbv zeta in Hwf1, Hlast, Hnow, Hopt.
  assert (Hdown1 : step s (pointerdown pt1 b1 x1 ol1 ow1)
                   = Some (touchDown (direction (options s) x1 ol1 ow1) s)).
  { destruct pt1; [contradiction | reflexivity | reflexivity]. }
  revert Hwf1 Hlast Hnow Hopt Hdown1.
  generalize (touchDown (direction (options s) x1 ol1 ow1) s).
  intros s1 Hwf1 Hlast Hnow Hopt Hdown1.
  set (s2 := with_now (now s1 + ms) s1).
  assert (Hwf2 : wf s2) by exact Hwf1.
  assert (Hopt2 : options s2 = options s) by exact Hopt.
  assert (Hnear : (now s2 - lastTapTime s2
                   <= Options.doubleTapJumpDuration (options s2))%Z).
  { rewrite Hopt2. change (now s2) with (now s1 + ms)%Z.
    change (lastTapTime s2) with (lastTapTime s1). rewrite Hnow, Hlast. lia. }
  assert (Hel : step s1 (elapse ms) = Some s2) by (apply step_elapse; lia).
  assert (Hdown2 : step s2 (pointerdown pt2 b2 x2 ol2 ow2)
                   = Some (touchDown (direction (options s) x2 ol2 ow2) s2)).
  { rewrite <- Hopt2. destruct pt2; [contradiction | reflexivity | reflexivity]. }
  clearbody s2.
  exists s1, s2, (touchDown (direction (options s) x2 ol2 ow2) s2).
  split; [exact Hdown1|]. split; [exact Hel|]. split; [exact Hdown2|].
  destruct (direction (options s) x2 ol2 ow2) eqn:Hz2.
  - destruct (@touch_jump jumpLeft s2 Hwf2 ltac:(discriminate) Hnear)
      as (H1 & H2 & H3 & _ & H5 & H6).
    cbv zeta in H1, H2, H3, H5, H6. rewrite Hopt2 in H1, H6.
    repeat split; assumption.
  - destruct (@touch_jump jumpRight s2 Hwf2 ltac:(discriminate) Hnear)
      as (H1 & H2 & H3 & _ & H5 & H6).
    cbv zeta in H1, H2, H3, H5, H6. rewrite Hopt2 in H1, H6.
    repeat split; assumption.
  - exact (touch_center s2).
Qed.

Lemma double_tap_jump_witness :
  exists s1 s2 s3,
    step loaded tapLeft = Some s1 /\
    step s1 (elapse 100) = Some s2 /\
    step s2 tapLeft = Some s3 /\
    controlsHidden s3 = controlsHidden s2 /\
    pending tapJump s3 = [].
Proof.
  assert (Hz : direction (options loaded) 10 0 1000 <> noJump)
    by (vm_compute; discriminate).
  assert (Hms : (0 <= 100 <= Options.doubleTapJumpDuration (options loaded))%Z)
    by (vm_compute; split; discriminate).
  assert (Ht : touch <> mouse) by discriminate.
  destruct (@double_tap_jump loaded touch touch 1 1 10 10 0 1000 0 1000 100
              reachable_loaded Ht Ht Hz Hms)
    as ((s1 & s2 & s3 & H1 & H2 & H3 & H4) & _).
  change (direction (options loaded) 10 0 1000) with jumpLeft in H4.
  cbv iota in H4. destruct H4 as (_ & _ & H5 & _ & H6).
  exists s1, s2, s3. repeat split; assumption.
Defined.

(** X2. In every state the player can reach, each of the variables
    [hideControlsTimeout], [playPauseTimeout] and [tapJumpTimeout] has at
    most one timer pending: whoever arms one of them clears the handle the
    variable holds first. *)
Theorem one_timer_per_variable (s : State) :
  reachable s ->
  (List.length (pending hideControls s) <= 1)%nat /\
  (List.length (pending playPause s) <= 1)%nat /\
  (List.length (pending tapJump s) <= 1)%nat.
Proof.
  intros Hreach.
  destruct (wf_reachable Hreach) as (_ & Hnd & Hhide & Hplay & Htap).
  split; [|split].
  - exact (at_most_one Hnd Hhide).
  - exact (at_most_one Hnd Hplay).
  - exact (at_most_one Hnd Htap).
Qed.

Lemma one_timer_per_variable_witness :
  (List.length (pending hideControls loaded) <= 1)%nat /\
  (List.length (pending playPause loaded) <= 1)%nat /\
  (List.length (pending tapJump loaded) <= 1)%nat.
Proof. exact (@one_timer_per_variable loaded reachable_loaded). Defined.

End PlayerClaims.

(** ** The popover *)

Module BarClaims.
Import SeekBar Player PlayerSpec.
Local Open Scope Q_scope.

(** X4. The popover of the seek bar is centred under the pointer and kept
    over the bar: while the preview image is not wider than the bar, the
    [left] it is given lies between half the preview width and the bar
    width less half the preview width, and is the pointer's offset whenever
    that lies in this range.  A preview wider than the bar pins the popover
    to the bar width less half the preview width, wherever the pointer
    is. *)
Theorem popover_kept_over_bar (clientX : Q) (l : Layout) :
  let half := previewWidth l / 2 in
  (previewWidth l <= width l ->
     half <= popoverLeft clientX l /\
     popoverLeft clientX l <= width l - half /\
     (half <= clientX - left l -> clientX - left l <= width l - half ->
      popoverLeft clientX l == clientX - left l)) /\
  (width l < previewWidth l -> popoverLeft clientX l == width l - half).
Proof.
  intros half. unfold popoverLeft. fold half.
  assert (Hhalf : half + half == previewWidth l) by (unfold half; field).
  assert (Hfits : previewWidth l <= width l -> half <= width l - half).
  { intros H. apply Qplus_le_l with (z := half).
    setoid_replace (width l - half + half) with (width l) by ring.
    now rewrite Hhalf. }
  assert (Hwide : width l < previewWidth l -> width l - half < half).
  { intros H. apply Qplus_lt_l with (z := half).
    setoid_replace (width l - half + half) with (width l) by ring.
    now rewrite Hhalf. }
  destruct (Num.ltb (clientX - left l) half) eqn:E1.
  - apply NumFacts.ltb_true in E1.
    destruct (Num.gtb half (width l - half)) eqn:E2.
    + apply NumFacts.gtb_true in E2. split.
      * intros Hfit. exfalso. exact (Qlt_not_le _ _ E2 (Hfits Hfit)).
      * intros _. reflexivity.
    + assert (E2' : half <= width l - half).
      { apply Qnot_lt_le. intros H. apply NumFacts.gtb_true in H. congruence. }
      split.
      * intros _. split; [apply Qle_refl|]. split; [exact E2'|].
        intros H1 _. exfalso. exact (Qlt_not_le _ _ E1 H1).
      * intros H. exfalso. exact (Qlt_not_le _ _ (Hwide H) E2').
  - apply NumFacts.ltb_false in E1.
    destruct (Num.gtb (clientX - left l) (width l - half)) eqn:E2.
    + apply NumFacts.gtb_true in E2. split.
      * intros Hfit. split; [exact (Hfits Hfit)|]. split; [apply Qle_refl|].
        intros _ H2. exfalso. exact (Qlt_not_le _ _ E2 H2).
      * intros _. reflexivity.
    + assert (E2' : clientX - left l <= width l - half).
      { apply Qnot_lt_le. intros H. apply NumFacts.gtb_true in H. congruence. }
      split.
      * intros _. split; [exact E1|]. split; [exact E2'|]. intros _ _. reflexivity.
      * intros H. exfalso.
        exact (Qlt_not_le _ _ (Hwide H) (Qle_trans _ _ _ E1 E2')).
Qed.

Lemma popover_kept_over_bar_witness :
  80 / 2 <= popoverLeft 90 {| left := 100; width := 200; offsetWidth := 200;
                              offsetHeight := 6; previewWidth := 80 |} /\
  popoverLeft 0 {| left := 0; width := 50; offsetWidth := 50; offsetHeight := 6;
                   previewWidth := 80 |} == 50 - 80 / 2.
Proof.
  split.
  - exact (proj1 (proj1 (popover_kept_over_bar 90
             {| left := 100; width := 200; offsetWidth := 200; offsetHeight := 6;
                previewWidth := 80 |}) ltac:(discriminate))).
  - exact (proj2 (popover_kept_over_bar 0
             {| left := 0; width := 50; offsetWidth := 50; offsetHeight := 6;
                previewWidth := 80 |}) eq_refl).
Defined.

End BarClaims.

(** ** Runs without touch contacts *)

Module DesktopFacts.
Import Player PlayerSpec PlayerFacts Desktop.

Lemma idleShown_up (s s' : State) :
  controlsHidden s' = false -> noClick s' = noClick s -> idleShown s -> idleShown s'.
Proof.
  intros Hc Hn (_ & Hno). split; [intros _; exact Hc | congruence].
Qed.

Lemma idleShown_keep (s s' : State) :
  paused s' = paused s -> ended s' = ended s ->
  controlsHidden s' = controlsHidden s -> noClick s' = noClick s ->
  idleShown s -> idleShown s'.
Proof.
  intros Hp He Hc Hn (Hup & Hno). split; [|congruence].
  rewrite Hp, He, Hc. exact Hup.
Qed.

Lemma quiet_setTimeout (cb cb' : Callback) (delay : Z) (s : State) :
  cb' <> cb -> quiet cb s -> quiet cb (snd (setTimeout cb' delay s)).
Proof.
  intros Hne Hq t Hin. cbn in Hin. apply in_app_or in Hin.
  destruct Hin as [Hin|[<-|[]]]; [now apply Hq | exact Hne].
Qed.

Lemma quiet_perform (cb : Callback) (e : Effect) (s : State) :
  quiet cb s -> quiet cb (perform e s).
Proof. exact (fun H => H). Qed.

Lemma quiet_with_paused (cb : Callback) (v : bool) (s : State) :
  quiet cb s -> quiet cb (with_paused v s).
Proof. exact (fun H => H). Qed.

Lemma quiet_with_ended (cb : Callback) (v : bool) (s : State) :
  quiet cb s -> quiet cb (with_ended v s).
Proof. exact (fun H => H). Qed.

Lemma tapJump_not_hide : tapJump <> hideControls.
Proof. discriminate. Qed.

Lemma desk_togglePaused (s : State) :
  idleShown s -> quiet tapJump s ->
  idleShown (togglePaused s) /\ quiet tapJump (togglePaused s).
Proof.
  intros Hi Hq. split.
  - apply (@idleShown_up s); [reflexivity | reflexivity | exact Hi].
  - unfold togglePaused, updatePaused.
    apply quiet_updateHideControls; [exact tapJump_not_hide | exact Hq].
Qed.

Lemma desk_updateHideControls (s : State) :
  idleShown s -> quiet tapJump s ->
  idleShown (updateHideControls s) /\ quiet tapJump (updateHideControls s).
Proof.
  intros Hi Hq. split.
  - apply (@idleShown_up s); [reflexivity | reflexivity | exact Hi].
  - apply quiet_updateHideControls; [exact tapJump_not_hide | exact Hq].
Qed.

Lemma desk_mouseDown (buttons : Z) (s : State) :
  idleShown s -> quiet tapJump s ->
  idleShown (mouseDown buttons s) /\ quiet tapJump (mouseDown buttons s).
Proof.
  intros Hi Hq. unfold mouseDown.
  destruct (negb (buttons =? 1)%Z); [split; assumption|]. cbv zeta.
  destruct (desk_updateHideControls Hi Hq) as [Hi1 Hq1].
  assert (Hup : controlsHidden (updateHideControls s) = false) by reflexivity.
  revert Hi1 Hq1 Hup. generalize (updateHideControls s). clear s Hi Hq.
  intros u Hi Hq Hup.
  pose proof (@quiet_clearTimeout tapJump (playPauseTimeout u) u Hq) as Hq1.
  assert (Hup1 : controlsHidden (clearTimeout (playPauseTimeout u) u) = false)
    by exact Hup.
  assert (Hn1 : noClick (clearTimeout (playPauseTimeout u) u) = noClick u)
    by reflexivity.
  revert Hq1 Hup1 Hn1. generalize (clearTimeout (playPauseTimeout u) u).
  intros c Hq1 Hup1 Hn1.
  destruct (now c - lastClickTime c <=? Options.doubleClickDuration (options c))%Z.
  - split.
    + apply (@idleShown_up u); [exact Hup1 | exact Hn1 | exact Hi].
    + exact Hq1.
  - split.
    + apply (@idleShown_up u); [exact Hup1 | exact Hn1 | exact Hi].
    + intros t Hin. cbn in Hin. apply in_app_or in Hin.
      destruct Hin as [Hin|[<-|[]]]; [now apply Hq1 | discriminate].
Qed.

Lemma desk_keydown (key : string) (buttonFocused : bool) (s : State) :
  idleShown s -> quiet tapJump s ->
  idleShown (keydown key buttonFocused s) /\ quiet tapJump (keydown key buttonFocused s).
Proof.
  intros Hi Hq. unfold keydown. cbv zeta.
  destruct (desk_updateHideControls Hi Hq) as [Hi1 Hq1].
  assert (Hup : controlsHidden (updateHideControls s) = false) by reflexivity.
  revert Hi1 Hq1 Hup. generalize (updateHideControls s). clear s Hi Hq.
  intros u Hi Hq Hup.
  assert (Hset : forall v, idleShown (setCurrentTime v u) /\ quiet tapJump (setCurrentTime v u)).
  { intros [v|]; (split; [apply (@idleShown_up u); [exact Hup | reflexivity | exact Hi]
                          | exact Hq]). }
  repeat match goal with
         | |- idleShown (if ?c then _ else _) /\ _ => destruct c
         end;
    first [ split; [exact Hi | exact Hq]
          | exact (desk_togglePaused Hi Hq)
          | apply Hset
          | split; [apply (@idleShown_up u); [exact Hup | reflexivity | exact Hi]
                   | exact Hq] ].
Qed.

Lemma desk_runCallback (cb : Callback) (s : State) :
  cb <> tapJump -> idleShown s -> quiet tapJump s ->
  idleShown (runCallback cb s) /\ quiet tapJump (runCallback cb s).
Proof.
  intros Hcb Hi Hq. destruct cb; cbn [runCallback].
  - destruct (paused s) eqn:Hp; [split; assumption|].
    destruct (ended s) eqn:He; [split; assumption|].
    split; [|exact Hq]. destruct Hi as (_ & Hno). split; [|exact Hno].
    cbn. rewrite Hp, He. intros [H|H]; discriminate H.
  - exact (desk_togglePaused Hi Hq).
  - contradiction.
  - split; [|exact Hq]. destruct Hi as (Hup & _). split; [exact Hup | reflexivity].
Qed.

Lemma desk_step (s s' : State) (e : Event) :
  isTouchDown e = false -> idleShown s -> quiet tapJump s ->
  step s e = Some s' -> idleShown s' /\ quiet tapJump s'.
Proof.
  intros He Hi Hq Hstep. destruct e; cbn [step] in Hstep.
  - inversion Hstep; subst. destruct pointerType; try discriminate He.
    cbn [videoPointerDown]. now apply desk_mouseDown.
  - inversion Hstep; subst. destruct pointerType; cbn [videoPointerUp];
      try (split; assumption);
      (destruct (negb (controlsHidden s)); [|split; assumption]);
      (split; [ apply (@idleShown_keep s); [reflexivity .. | exact Hi]
              | apply quiet_setTimeout; [discriminate | exact Hq] ]).
  - inversion Hstep; subst. destruct pointerType; cbn [playerPointerMove];
      first [ now apply desk_updateHideControls | split; assumption ].
  - inversion Hstep; subst. now apply desk_keydown.
  - inversion Hstep; subst. destruct b; cbn [onClick];
      first [ now apply desk_togglePaused
            | split; [apply (@idleShown_keep s); [reflexivity .. | exact Hi] | exact Hq] ].
  - inversion Hstep; subst. destruct i; cbn [onSeekBar].
    + destruct time;
        (split; [apply (@idleShown_keep s); [reflexivity .. | exact Hi] | exact Hq]).
    + split; [apply (@idleShown_keep s); [reflexivity .. | exact Hi] | exact Hq].
    + split.
      * apply (@idleShown_up s); [reflexivity | reflexivity | exact Hi].
      * apply quiet_updateHideControls; [exact tapJump_not_hide | exact Hq].
  - inversion Hstep; subst. unfold onEnded, updatePaused. cbv zeta. split.
    + apply (@idleShown_up s); [reflexivity | reflexivity | exact Hi].
    + apply quiet_updateHideControls; [exact tapJump_not_hide|].
      apply quiet_updateHideControls; [exact tapJump_not_hide|].
      apply quiet_perform, quiet_with_paused, quiet_with_ended. exact Hq.
  - inversion Hstep; subst. split; [|exact Hq].
    destruct Hi as (Hup & Hno). split; [|exact Hno].
    intros [Hp|He']; [|discriminate He']. apply Hup. now left.
  - destruct (Num.leb 0 d); inversion Hstep; subst.
    split; [apply (@idleShown_keep s); [reflexivity .. | exact Hi] | exact Hq].
  - destruct (find (fun t => (handle t =? h)%nat) (timers s)) as [t|] eqn:Hfind;
      [|discriminate].
    destruct (due t <=? now s)%Z; inversion Hstep; subst.
    apply find_some in Hfind. destruct Hfind as [Hin _].
    apply desk_runCallback.
    + exact (Hq t Hin).
    + apply (@idleShown_keep s); [reflexivity .. | exact Hi].
    + now apply quiet_clearTimeout.
  - destruct (0 <=? ms)%Z; inversion Hstep; subst.
    split; [apply (@idleShown_keep s); [reflexivity .. | exact Hi] | exact Hq].
Qed.

Lemma desk_run (events : list Event) :
  forall s s',
    forallb (fun e => negb (isTouchDown e)) events = true ->
    idleShown s -> quiet tapJump s ->
    run s events = Some s' -> idleShown s' /\ quiet tapJump s'.
Proof.
  induction events as [|e rest IH]; intros s s' Hev Hi Hq Hrun; cbn [run] in Hrun.
  - inversion Hrun; subst. split; assumption.
  - cbn [forallb] in Hev. apply andb_true_iff in Hev. destruct Hev as [He Hrest].
    apply negb_true_iff in He.
    destruct (step s e) as [s1|] eqn:Hstep; [|discriminate].
    destruct (desk_step _ He Hi Hq Hstep) as [Hi1 Hq1].
    exact (IH s1 s' Hrest Hi1 Hq1 Hrun).
Qed.

Lemma desk_mounted o t0 hidden isMobile :
  idleShown (connectedCallback (constructed o t0 hidden isMobile)) /\
  quiet tapJump (connectedCallback (constructed o t0 hidden isMobile)).
Proof.
  split.
  - split; [intros _; reflexivity | reflexivity].
  - unfold connectedCallback, updatePaused. cbv zeta.
    apply quiet_updateHideControls; [exact tapJump_not_hide|].
    apply quiet_perform.
    apply quiet_updateHideControls; [exact tapJump_not_hide|].
    intros t [].
Qed.

End DesktopFacts.

Module DesktopClaims.
Import Player PlayerSpec Desktop DesktopFacts.

(** X5. As long as the video is never touched (every contact on it is by
    a mouse), the controls are up whenever the video is paused or has
    ended, and the [no-click] class is never set: whatever the sequence of
    mouse, keyboard, button, seek-bar, video and timer events.  A touch
    contact outside the jump zones, on the other hand, hides controls that
    are up and sets [no-click], paused or not. *)
Theorem controls_up_while_idle (o : Options.t) (t0 : Z) (hidden isMobile : bool)
    (events : list Event) (s : State) :
  forallb (fun e => negb (isTouchDown e)) events = true ->
  run (connectedCallback (constructed o t0 hidden isMobile)) events = Some s ->
  (paused s = true \/ ended s = true -> controlsHidden s = false) /\
  noClick s = false /\
  (controlsHidden s = false ->
   controlsHidden (touchDown noJump s) = true /\
   noClick (touchDown noJump s) = true /\
   paused (touchDown noJump s) = paused s).
Proof.
  intros Hev Hrun.
  destruct (desk_mounted o t0 hidden isMobile) as [Hi Hq].
  destruct (desk_run _ Hev Hi Hq Hrun) as [(Hup & Hno) _].
  split; [exact Hup|]. split; [exact Hno|].
  intros Hc. unfold touchDown. cbv zeta. cbn [negb]. unfold toggleOverlay.
  change (controlsHidden (clearTimeout (tapJumpTimeout s) s)) with (controlsHidden s).
  rewrite Hc. repeat split.
Qed.

Lemma controls_up_while_idle_witness :
  (paused (keydown "k" false Samples.mounted) = true \/
   ended (keydown "k" false Samples.mounted) = true ->
   controlsHidden (keydown "k" false Samples.mounted) = false) /\
  noClick (keydown "k" false Samples.mounted) = false.
Proof.
  destruct (@controls_up_while_idle Options.defaults 1700000000000 false false
              [keyDown "k" false] (keydown "k" false Samples.mounted)
              eq_refl eq_refl) as (H1 & H2 & _).
  split; assumption.
Defined.

End DesktopClaims.

(** ** A render that waits for its frames *)

Module RenderFacts.
Import Thumbnails Render.
Local Unset Implicit Arguments.
Local Open Scope Q_scope.

Section Idle.
Variable Image : Type.
Variable capture : Q -> Image.
Variable sort : (Frame Image -> Frame Image -> Z) -> list (Frame Image) -> list (Frame Image).
Variable comparefn : Frame Image -> Frame Image -> Z.

(** The host's sort leaves the array as it is. *)
Hypothesis sort_is_idle : forall l, sort comparefn l = l.

(** Every frame of the array is the capture at its timecode. *)
Let captured (s : Sampler Image) : Prop :=
  Forall (fun f => image f = capture (timecode f)) (cache s).

(** What a part of the render keeps, from the state [s] it starts in to the
    state [s'] it leaves: the array and the seeks only grow at the end, the
    frames are captures, and the array lists the seeks in order, all of
    them when the part is left ([left] is not [None]) and all but the last
    when the render waits. *)
Let kept (s s' : Sampler Image) (left : option nat) : Prop :=
  (exists frames, cache s' = cache s ++ frames) /\
  (exists timecodes, seeks s' = seeks s ++ timecodes) /\
  captured s' /\
  match left with
  | Some _ => seeks s' = map (@timecode _) (cache s')
  | None => exists t, seeks s' = map (@timecode _) (cache s') ++ [t]
  end.

Lemma seek_waits (s : Sampler Image) (t : Q) :
  captured s -> seeks s = map (@timecode _) (cache s) ->
  kept s (seek s t) None.
Proof.
  intros Hc Hs. unfold kept, seek. cbn [cache seeks].
  split; [exists []; now rewrite app_nil_r|].
  split; [exists [t]; reflexivity|].
  split; [exact Hc|]. exists t. now rewrite Hs.
Qed.

Lemma arrived (s : Sampler Image) (t : Q) :
  captured s -> seeks s = map (@timecode _) (cache s) ->
  kept s (renderAndApplyPreviewImage capture sort comparefn s t) (Some 0%nat) /\
  cache (renderAndApplyPreviewImage capture sort comparefn s t)
  = cache s ++ [ {| timecode := t; image := capture t |} ].
Proof.
  intros Hc Hs. unfold kept, captured, renderAndApplyPreviewImage, push, seek.
  cbn [cache seeks]. rewrite sort_is_idle.
  split; [|reflexivity].
  split; [eexists; reflexivity|].
  split; [exists [t]; reflexivity|].
  split.
  - apply Forall_app. split; [exact Hc|]. constructor; [reflexivity | constructor].
  - rewrite map_app, Hs. reflexivity.
Qed.

Lemma kept_trans (s s1 s2 : Sampler Image) (n : nat) (left : option nat) :
  kept s s1 (Some n) -> kept s1 s2 left -> kept s s2 left.
Proof.
  intros ((f1 & H1) & (t1 & T1) & _ & _) ((f2 & H2) & (t2 & T2) & Hc & Hl).
  split; [exists (f1 ++ f2); now rewrite H2, H1, app_assoc|].
  split; [exists (t1 ++ t2); now rewrite T2, T1, app_assoc|].
  split; assumption.
Qed.

Lemma kept_refl (s : Sampler Image) (n : nat) :
  captured s -> seeks s = map (@timecode _) (cache s) -> kept s s (Some n).
Proof.
  intros Hc Hs.
  split; [exists []; now rewrite app_nil_r|].
  split; [exists []; now rewrite app_nil_r|].
  split; assumption.
Qed.

Lemma kept_settled (s s' : Sampler Image) (n : nat) :
  kept s s' (Some n) -> captured s' /\ seeks s' = map (@timecode _) (cache s').
Proof. intros (_ & _ & Hc & Hs). split; assumption. Qed.

Lemma row_kept (duration firstTimecode : Q) :
  forall arrivals t s,
    captured s -> seeks s = map (@timecode _) (cache s) ->
    kept s (snd (row capture sort comparefn arrivals duration firstTimecode t s))
           (fst (row capture sort comparefn arrivals duration firstTimecode t s)).
Proof.
  induction arrivals as [|arrivals IH]; intros t s Hc Hs; cbn [row];
    destruct (Num.ltb t duration); cbn [fst snd].
  - now apply seek_waits.
  - now apply kept_refl.
  - destruct (arrived s t Hc Hs) as [Hk _].
    destruct (kept_settled _ _ _ Hk) as [Hc' Hs'].
    eapply kept_trans; [exact Hk|]. apply IH; assumption.
  - now apply kept_refl.
Qed.

Lemma rows_kept (duration : Q) :
  forall n arrivals i s,
    captured s -> seeks s = map (@timecode _) (cache s) ->
    kept s (snd (rows capture sort comparefn n arrivals duration i s))
           (fst (rows capture sort comparefn n arrivals duration i s)).
Proof.
  induction n as [|n IH]; intros arrivals i s Hc Hs; cbn [rows].
  - cbn [fst snd]. now apply kept_refl.
  - pose proof (row_kept duration (Double.div duration (inject_Z (2 ^ i))) arrivals
                  (Double.div duration (inject_Z (2 ^ i))) s Hc Hs) as Hrow.
    destruct (row capture sort comparefn arrivals duration
                  (Double.div duration (inject_Z (2 ^ i)))
                  (Double.div duration (inject_Z (2 ^ i))) s) as [[arrivals'|] s1];
      cbn [fst snd] in Hrow |- *.
    + destruct (kept_settled _ _ _ Hrow) as [Hc' Hs'].
      eapply kept_trans; [exact Hrow|]. apply IH; assumption.
    + exact Hrow.
Qed.

(** The array of a render: in the order of the seeks, with at most the
    last seek still to come; once a frame has arrived, the frame at the
    duration is in front. *)
Lemma render_kept (arrivals : nat) (duration : Q) (K : nat) :
  let s := after capture sort comparefn arrivals duration K in
  (exists waitingFor, seeks s = map (@timecode _) (cache s) ++ waitingFor /\
                      (List.length waitingFor <= 1)%nat) /\
  captured s /\
  hd_error (seeks s) = Some duration /\
  ((1 <= arrivals)%nat ->
   exists frames, cache s = {| timecode := duration; image := capture duration |} :: frames).
Proof.
  unfold after, renderSeekBarPreviewImages.
  destruct arrivals as [|arrivals]; cbn [snd].
  - split; [exists [duration]; split; [reflexivity | apply Nat.le_refl]|].
    split; [constructor|]. split; [reflexivity|]. intros H. inversion H.
  - set (s0 := {| cache := []; seeks := [] |} : Sampler Image).
    assert (Hc0 : captured s0) by constructor.
    assert (Hs0 : seeks s0 = map (@timecode _) (cache s0)) by reflexivity.
    destruct (arrived s0 duration Hc0 Hs0) as [Hk1 Hcache1].
    destruct (kept_settled _ _ _ Hk1) as [Hc1 Hs1].
    pose proof (rows_kept duration K arrivals 1
                  (renderAndApplyPreviewImage capture sort comparefn s0 duration) Hc1 Hs1)
      as Hrows.
    assert (Hseeks1 : seeks (renderAndApplyPreviewImage capture sort comparefn s0 duration)
                      = [duration]) by reflexivity.
    revert Hrows Hcache1 Hseeks1.
    generalize (renderAndApplyPreviewImage capture sort comparefn s0 duration).
    intros s1 Hrows Hcache1 Hseeks1.
    destruct (rows capture sort comparefn K arrivals duration 1 s1) as [left s2].
    cbn [fst snd] in Hrows |- *.
    destruct Hrows as ((frames & Hf) & (timecodes & Ht) & Hc & Hl).
    split; [|split; [exact Hc|split]].
    + destruct left as [n|].
      * exists []. rewrite app_nil_r. split; [exact Hl | apply Nat.le_0_l].
      * destruct Hl as (t & Hl). exists [t]. split; [exact Hl | apply Nat.le_refl].
    + rewrite Ht, Hseeks1. reflexivity.
    + intros _. exists frames. rewrite Hf, Hcache1. reflexivity.
Qed.

End Idle.

End RenderFacts.

Module RenderClaims.
Import Thumbnails Render.
Local Unset Implicit Arguments.
Local Open Scope Q_scope.

(** X1. On V8 the thumbnail cache is never sorted.  Follow one render,
    running alone, for a video of duration [D] and an iteration budget [K],
    and let any number of its awaited frames arrive: the array lists the
    frames in the order the off-DOM video was sought, each holding the
    image drawn after the seek to its timecode, with at most the last seek
    still waiting for its frame; and the first seek is to the duration. *)
Theorem cache_in_seeking_order_on_v8 (Image : Type) (capture : Q -> Image)
    (arrivals : nat) (D : Q) (K : nat) :
  let s := after capture (@HostSort.sort _) (@byTimecode _) arrivals D K in
  (exists waitingFor,
      seeks s = map (@timecode _) (cache s) ++ waitingFor /\
      (List.length waitingFor <= 1)%nat) /\
  Forall (fun f => image f = capture (timecode f)) (cache s) /\
  hd_error (seeks s) = Some D.
Proof.
  destruct (RenderFacts.render_kept Image capture (@HostSort.sort _) (@byTimecode _)
              (@ThumbnailsFacts.sort_byTimecode_idle Image) arrivals D K)
    as (H1 & H2 & H3 & _).
  cbv zeta. split; [exact H1|]. split; [exact H2 | exact H3].
Qed.

(** X20. On V8 the preview is the last frame of the video.  Follow one
    render, running alone, for a video of duration [D]: as soon as its
    first frame has arrived, and however many more arrive, the loop of
    [animationLoop] over the array stops at its first frame, the one
    rendered at the duration, for every preview timecode up to [D]; both
    seek bars show that image. *)
Theorem preview_is_last_frame_on_v8 (Image : Type) (capture : Q -> Image)
    (arrivals : nat) (D q : Q) (K : nat) (prev : Image * Image) :
  (1 <= arrivals)%nat -> q <= D ->
  let s := after capture (@HostSort.sort _) (@byTimecode _) arrivals D K in
  nearestAtOrAfter (cache s) (Some q) = Some {| timecode := D; image := capture D |} /\
  popoverLoop (cache s) (Some q) prev = (capture D, capture D).
Proof.
  intros Harr Hq.
  destruct (RenderFacts.render_kept Image capture (@HostSort.sort _) (@byTimecode _)
              (@ThumbnailsFacts.sort_byTimecode_idle Image) arrivals D K)
    as (_ & _ & _ & Hhead).
  cbv zeta in Hhead |- *. destruct (Hhead Harr) as (frames & Hc).
  rewrite Hc. unfold nearestAtOrAfter. cbn [find popoverLoop atOrAfter timecode image].
  assert (Hge : Num.geb D q = true) by (apply NumFacts.geb_true; exact Hq).
  rewrite Hge. split; reflexivity.
Qed.

Lemma preview_is_last_frame_on_v8_witness :
  popoverLoop (cache (after (fun t : Q => t) (@HostSort.sort _) (@byTimecode _) 5 40 3))
              (Some 12) (0, 0)
  = (40, 40).
Proof.
  exact (proj2 (preview_is_last_frame_on_v8 Q (fun t => t) 5 40 12 3 (0, 0)
                  ltac:(repeat constructor) ltac:(discriminate))).
Defined.

End RenderClaims.

(** ** The jump zones *)

Module KeysClaims.
Import Player PlayerSpec PlayerFacts Zones.
Local Open Scope Q_scope.

(** X7. On a player of positive width the jump zones are the strips of
    the configured portion at the left and at the right edge.  While the
    portion is below one half the two strips are disjoint and mirror each
    other; from one half on, every contact falls in a jump zone and the
    left one wins where they overlap. *)
Theorem jump_zones (o : Options.t) (clientX : Q) (offsetLeft offsetWidth : Z) :
  (0 < offsetWidth)%Z ->
  let p := Options.doubleTapJumpScreenPortion o in
  let x := clientX - inject_Z offsetLeft in
  let w := inject_Z offsetWidth in
  (direction o clientX offsetLeft offsetWidth = jumpLeft <-> x <= p * w) /\
  (direction o clientX offsetLeft offsetWidth = jumpRight <->
     p * w < x /\ (1 - p) * w <= x) /\
  (p < 1 # 2 ->
   direction o (inject_Z offsetLeft + (w - x)) offsetLeft offsetWidth
   = opposite (direction o clientX offsetLeft offsetWidth)) /\
  (1 # 2 <= p -> direction o clientX offsetLeft offsetWidth <> noJump).
Proof.
  intros Hw p x w.
  assert (Hwq : 0 < w) by (unfold w; change 0 with (inject_Z 0); now rewrite <- Zlt_Qlt).
  assert (Hdiv : forall u, u / w * w == u).
  { intros u. field. intros H. rewrite H in Hwq. exact (Qlt_irrefl _ Hwq). }
  assert (Hle : forall u c, u / w <= c <-> u <= c * w).
  { intros u c. split; intros H.
    - rewrite <- (Hdiv u). apply Qmult_le_compat_r; [exact H | now apply Qlt_le_weak].
    - apply Qle_shift_div_r; assumption. }
  assert (Hge : forall u c, c <= u / w <-> c * w <= u).
  { intros u c. split; intros H.
    - rewrite <- (Hdiv u). apply Qmult_le_compat_r; [exact H | now apply Qlt_le_weak].
    - apply Qle_shift_div_l; assumption. }
  assert (Hdir : forall cx,
             let u := cx - inject_Z offsetLeft in
             (u <= p * w /\ direction o cx offsetLeft offsetWidth = jumpLeft) \/
             (p * w < u /\ (1 - p) * w <= u /\
              direction o cx offsetLeft offsetWidth = jumpRight) \/
             (p * w < u /\ u < (1 - p) * w /\
              direction o cx offsetLeft offsetWidth = noJump)).
  { intros cx u. unfold direction.
    destruct (Z.eqb_spec offsetWidth 0) as [E|_]; [lia|]. cbv zeta.
    fold p w u.
    destruct (Num.leb (u / w) p) eqn:E1.
    - left. split; [|reflexivity]. apply Hle, NumFacts.leb_true, E1.
    - assert (E1' : p * w < u).
      { apply Qnot_le_lt. intros H. apply Hle, NumFacts.leb_true in H. congruence. }
      right. destruct (Num.geb (u / w) (1 - p)) eqn:E2.
      + left. split; [exact E1'|]. split; [|reflexivity].
        apply Hge, NumFacts.geb_true, E2.
      + right. split; [exact E1'|]. split; [|reflexivity].
        apply Qnot_le_lt. intros H. apply Hge, NumFacts.geb_true in H. congruence. }
  pose proof (Hdir clientX) as H1. cbv zeta in H1. fold x in H1.
  pose proof (Hdir (inject_Z offsetLeft + (w - x))) as H2. cbv zeta in H2.
  assert (Hm : inject_Z offsetLeft + (w - x) - inject_Z offsetLeft == w - x) by ring.
  revert H1 H2.
  generalize (direction o clientX offsetLeft offsetWidth).
  generalize (direction o (inject_Z offsetLeft + (w - x)) offsetLeft offsetWidth).
  intros m c H1 H2.
  rewrite Hm in H2. clear Hm Hdir Hle Hge Hdiv.
  split; [|split; [|split]].
  - split.
    + intros ->. destruct H1 as [(A & _)|[(_ & _ & A)|(_ & _ & A)]];
        [exact A | discriminate A | discriminate A].
    + intros A. destruct H1 as [(_ & B)|[(B & _)|(B & _)]];
        [exact B | exfalso; lra | exfalso; lra].
  - split.
    + intros ->. destruct H1 as [(_ & A)|[(B & B' & _)|(_ & _ & A)]];
        [discriminate A | split; assumption | discriminate A].
    + intros (A & B). destruct H1 as [(C & _)|[(_ & _ & C)|(_ & C & _)]];
        [exfalso; lra | exact C | exfalso; lra].
  - intros Hp.
    destruct H1 as [(A & ->)|[(A & A' & ->)|(A & A' & ->)]];
    destruct H2 as [(B & ->)|[(B & B' & ->)|(B & B' & ->)]];
      try reflexivity; exfalso; nra.
  - intros Hp ->.
    destruct H1 as [(_ & A)|[(_ & _ & A)|(A & A' & _)]];
      [discriminate A | discriminate A | nra].
Qed.

Lemma jump_zones_witness :
  direction Options.defaults 10 0 1000 = jumpLeft /\
  direction Options.defaults 990 0 1000 = jumpRight.
Proof.
  destruct (@jump_zones Options.defaults 10 0 1000 eq_refl) as (H1 & _ & H3 & _).
  split.
  - apply H1. discriminate.
  - exact (eq_trans (H3 eq_refl) (f_equal opposite (proj2 H1 ltac:(discriminate)))).
Defined.

End KeysClaims.

(** ** Taps that show and hide the controls *)

Module TapClaims.
Import Player PlayerSpec PlayerFacts.



End TapClaims.

(** ** Strings of the host *)

Module JsStringFacts.
Import JsString.
Local Unset Implicit Arguments.
Local Open Scope string_scope.

(** *** Code units, one by one *)

(** A test that holds of the 256 code units holds of every code unit. *)
Lemma ascii_all (test : ascii -> bool) :
  forallb test (map ascii_of_nat (seq 0 256)) = true -> forall c, test c = true.
Proof.
  intros H c. rewrite forallb_forall in H. apply H.
  rewrite <- (ascii_nat_embedding c). apply in_map, in_seq.
  pose proof (nat_ascii_bounded c). lia.
Qed.

Lemma append_assoc (a b c : string) : (a ++ b) ++ c = a ++ b ++ c.
Proof.
  induction a as [|x a IH]; cbn [append]; [reflexivity|]. now rewrite IH.
Qed.

Lemma append_empty (a : string) : a ++ "" = a.
Proof.
  induction a as [|x a IH]; cbn [append]; [reflexivity|]. now rewrite IH.
Qed.

Lemma allChars_app (test : ascii -> bool) (a b : string) :
  allChars test (a ++ b) = allChars test a && allChars test b.
Proof.
  induction a as [|c a IH]; cbn [append allChars]; [reflexivity|].
  now rewrite IH, andb_assoc.
Qed.

Lemma allChars_impl (p q : ascii -> bool) (s : string) :
  (forall c, p c = true -> q c = true) -> allChars p s = true -> allChars q s = true.
Proof.
  intros Hpq. induction s as [|c s IH]; cbn [allChars]; [reflexivity|].
  rewrite !andb_true_iff. intros [H1 H2]. split; [now apply Hpq | now apply IH].
Qed.

(** *** Trimming *)

Lemma trimEnd_kept (s : string) :
  allChars (fun c => negb (isWhiteSpace c)) s = true -> trimEnd s = s.
Proof.
  induction s as [|c s IH]; cbn [allChars trimEnd]; [reflexivity|].
  rewrite andb_true_iff, negb_true_iff. intros [Hc Hs].
  rewrite (IH Hs), Hc. now destruct s.
Qed.

Lemma trimEnd_blank (s : string) :
  allChars isWhiteSpace s = true -> trimEnd s = "".
Proof.
  induction s as [|c s IH]; cbn [allChars trimEnd]; [reflexivity|].
  rewrite andb_true_iff. intros [Hc Hs]. now rewrite (IH Hs), Hc.
Qed.

Lemma trimEnd_app_kept (x y : string) :
  trimEnd y <> "" -> trimEnd (x ++ y) = x ++ trimEnd y.
Proof.
  intros Hy. induction x as [|c x IH]; cbn [append trimEnd]; [reflexivity|].
  rewrite IH. destruct (x ++ trimEnd y) eqn:E; [|reflexivity].
  destruct x; [contradiction | discriminate E].
Qed.

Lemma trimEnd_app_blank (x y : string) :
  trimEnd y = "" -> trimEnd (x ++ y) = trimEnd x.
Proof.
  intros Hy. induction x as [|c x IH]; cbn [append trimEnd]; [exact Hy|].
  now rewrite IH.
Qed.

Lemma trimStart_kept (c : ascii) (s : string) :
  isWhiteSpace c = false -> trimStart (String c s) = String c s.
Proof. intros H. cbn [trimStart]. now rewrite H. Qed.

Lemma trimStart_app (x y : string) :
  trimStart x <> "" -> trimStart (x ++ y) = trimStart x ++ y.
Proof.
  induction x as [|c x IH]; cbn [append trimStart]; [contradiction|].
  destruct (isWhiteSpace c); [exact IH | reflexivity].
Qed.

Lemma trimStart_app_blank (x y : string) :
  trimStart x = "" -> trimStart (x ++ y) = trimStart y.
Proof.
  induction x as [|c x IH]; cbn [append trimStart]; [reflexivity|].
  destruct (isWhiteSpace c); [exact IH | discriminate].
Qed.

(** A string of code units that are not white space is its own trim. *)
Lemma trim_kept (s : string) :
  allChars (fun c => negb (isWhiteSpace c)) s = true -> trim s = s.
Proof.
  intros H. unfold trim.
  destruct s as [|c s]; [reflexivity|].
  pose proof H as H'. cbn [allChars] in H'. apply andb_true_iff in H'.
  destruct H' as [Hc _]. apply negb_true_iff in Hc.
  rewrite (@trimStart_kept c s Hc). now apply trimEnd_kept.
Qed.

(** White space after a string does not survive the trim. *)
Lemma trim_app_blank (x w : string) :
  allChars isWhiteSpace w = true -> trim (x ++ w) = trim x.
Proof.
  intros Hw. unfold trim. destruct (trimStart x) as [|c t] eqn:E.
  - rewrite (@trimStart_app_blank x w E).
    assert (Hb : trimStart w = "").
    { clear E. induction w as [|d w IH]; [reflexivity|].
      cbn [allChars] in Hw. apply andb_true_iff in Hw. destruct Hw as [Hd Hw].
      cbn [trimStart]. rewrite Hd. now apply IH. }
    now rewrite Hb.
  - rewrite trimStart_app by (rewrite E; discriminate). rewrite E.
    apply trimEnd_app_blank. now apply trimEnd_blank.
Qed.

(** *** Splitting *)

Lemma splitAt_none (isSeparator : ascii -> bool) (a : string) :
  allChars (fun c => negb (isSeparator c)) a = true -> splitAt isSeparator a = [a].
Proof.
  induction a as [|c a IH]; cbn [allChars splitAt]; [reflexivity|].
  rewrite andb_true_iff, negb_true_iff. intros [Hc Ha]. now rewrite Hc, (IH Ha).
Qed.

Lemma splitAt_first (isSeparator : ascii -> bool) (a : string) (c : ascii)
    (rest : string) :
  allChars (fun c => negb (isSeparator c)) a = true -> isSeparator c = true ->
  splitAt isSeparator (a ++ String c rest) = a :: splitAt isSeparator rest.
Proof.
  intros Ha Hc. induction a as [|d a IH]; cbn [append splitAt].
  - now rewrite Hc.
  - cbn [allChars] in Ha. apply andb_true_iff in Ha. destruct Ha as [Hd Ha].
    apply negb_true_iff in Hd. now rewrite Hd, (IH Ha).
Qed.

Lemma splitAt_length (isSeparator : ascii -> bool) (s : string) :
  List.length (splitAt isSeparator s) = S (count isSeparator s).
Proof.
  induction s as [|c s IH]; cbn [splitAt count]; [reflexivity|].
  destruct (isSeparator c); cbn [List.length Nat.add]; [now rewrite IH|].
  destruct (splitAt isSeparator s); [discriminate IH | exact IH].
Qed.

Lemma prefix_empty (s : string) : prefix "" s = true.
Proof. now destruct s. Qed.

Lemma prefix_single (ch c : ascii) (rest : string) :
  prefix (String ch "") (String c rest) = (c =? ch)%char.
Proof.
  cbn [prefix]. destruct (ascii_dec ch c) as [->|Hne].
  - now rewrite prefix_empty, Ascii.eqb_refl.
  - symmetry. apply Ascii.eqb_neq. congruence.
Qed.

(** Splitting at a separator of one code unit. *)
Lemma split_single (ch : ascii) (s : string) :
  split (String ch "") s = splitAt (fun c => (c =? ch)%char) s.
Proof.
  unfold split. induction s as [|c s IH]; [reflexivity|].
  cbn [splitFrom splitAt]. rewrite prefix_single.
  destruct (c =? ch)%char; cbn [String.length Nat.sub]; now rewrite IH.
Qed.

Lemma prefix_app (x y : string) : prefix x (x ++ y) = true.
Proof.
  induction x as [|c x IH]; cbn [append prefix]; [apply prefix_empty|].
  destruct (ascii_dec c c); [exact IH | contradiction].
Qed.

Lemma prefix_first (c0 c : ascii) (r s : string) :
  (c =? c0)%char = false -> prefix (String c0 r) (String c s) = false.
Proof.
  intros H. cbn [prefix]. destruct (ascii_dec c0 c) as [->|]; [|reflexivity].
  now rewrite Ascii.eqb_refl in H.
Qed.

Lemma splitFrom_skip (separator x b : string) :
  splitFrom separator (x ++ b) (String.length x) = splitFrom separator b 0.
Proof.
  induction x as [|c x IH]; cbn [append String.length]; [reflexivity|].
  cbn [splitFrom]. exact IH.
Qed.

(** The first piece, when the first code unit of the separator does not
    occur before its first occurrence. *)
Lemma split_first (c0 : ascii) (r a b : string) :
  allChars (fun c => negb (c =? c0)%char) a = true ->
  split (String c0 r) (a ++ String c0 r ++ b) = a :: split (String c0 r) b.
Proof.
  intros Ha. unfold split. induction a as [|c a IH].
  - change ("" ++ String c0 r ++ b) with (String c0 (r ++ b)).
    cbn [splitFrom].
    change (String c0 (r ++ b)) with (String c0 r ++ b). rewrite prefix_app.
    cbn [String.length Nat.sub]. rewrite Nat.sub_0_r.
    now rewrite splitFrom_skip.
  - cbn [allChars] in Ha. apply andb_true_iff in Ha. destruct Ha as [Hc Ha].
    apply negb_true_iff in Hc.
    change ((String c a) ++ String c0 r ++ b) with (String c (a ++ String c0 r ++ b)).
    cbn [splitFrom]. rewrite (@prefix_first c0 c r _ Hc), (IH Ha). reflexivity.
Qed.

Lemma split_none (c0 : ascii) (r a : string) :
  allChars (fun c => negb (c =? c0)%char) a = true -> split (String c0 r) a = [a].
Proof.
  unfold split. induction a as [|c a IH]; cbn [allChars]; [reflexivity|].
  rewrite andb_true_iff, negb_true_iff. intros [Hc Ha].
  cbn [splitFrom]. now rewrite (@prefix_first c0 c r _ Hc), (IH Ha).
Qed.

End JsStringFacts.

(** ** Numerals *)

Module NumeralFacts.
Import JsString JsStringFacts FormatTime.
Local Unset Implicit Arguments.
Local Open Scope string_scope.

(** What a decimal digit is not. *)
Lemma digit_class (c : ascii) :
  isDigit c = true ->
  isWhiteSpace c = false /\ (c =? "-")%char = false /\ (c =? "+")%char = false /\
  (c =? "x")%char = false /\ (c =? "X")%char = false /\ (c =? LF)%char = false /\
  (c =? ":")%char = false /\ (c =? ",")%char = false.
Proof.
  intros H.
  pose proof (@ascii_all
    (fun c => implb (isDigit c)
       (negb (isWhiteSpace c) && negb (c =? "-")%char && negb (c =? "+")%char
        && negb (c =? "x")%char && negb (c =? "X")%char && negb (c =? LF)%char
        && negb (c =? ":")%char && negb (c =? ",")%char))
    ltac:(vm_compute; reflexivity) c) as Hall.
  cbv beta in Hall. rewrite H in Hall. cbn [implb] in Hall.
  rewrite !andb_true_iff, !negb_true_iff in Hall. tauto.
Qed.

Lemma digit_value (c : ascii) :
  isDigit c = true -> exists d, digitValue 10 c = Some d /\ (0 <= d < 10)%Z.
Proof.
  unfold isDigit. destruct (digitValue 10 c) as [d|] eqn:E; [|discriminate].
  intros _. exists d. split; [reflexivity|].
  unfold digitValue in E.
  set (n := Z.of_N (N_of_ascii c)) in E.
  destruct ((48 <=? n)%Z && (n <=? 57)%Z) eqn:E1.
  - apply andb_true_iff in E1. destruct E1 as [A B].
    apply Z.leb_le in A. apply Z.leb_le in B.
    destruct (n - 48 <? 10)%Z; inversion E; subst. lia.
  - destruct ((97 <=? n)%Z && (n <=? 122)%Z) eqn:E2.
    + apply andb_true_iff in E2. destruct E2 as [A B]. apply Z.leb_le in A.
      destruct (n - 87 <? 10)%Z eqn:E3; [|discriminate]. apply Z.ltb_lt in E3. lia.
    + destruct ((65 <=? n)%Z && (n <=? 90)%Z) eqn:E3; [|discriminate].
      apply andb_true_iff in E3. destruct E3 as [A B]. apply Z.leb_le in A.
      destruct (n - 55 <? 10)%Z eqn:E4; [|discriminate]. apply Z.ltb_lt in E4. lia.
Qed.

(** The digits of a positive number carry on from what is read so far. *)
Lemma scan_uint_acc (d : Decimal.uint) (acc : positive) :
  scan 10 (NilEmpty.string_of_uint d) (Z.pos acc) = Z.pos (Pos.of_uint_acc d acc).
Proof.
  revert acc. induction d as [|d IH|d IH|d IH|d IH|d IH|d IH|d IH|d IH|d IH|d IH];
    intros acc; cbn [NilEmpty.string_of_uint Pos.of_uint_acc]; [reflexivity|..];
    cbn [scan];
    match goal with
    | |- context [digitValue 10 ?c] =>
        let v := eval vm_compute in (digitValue 10 c) in
        change (digitValue 10 c) with v
    end; cbv iota; rewrite <- IH; f_equal; lia.
Qed.

Lemma scan_uint (d : Decimal.uint) :
  scan 10 (NilEmpty.string_of_uint d) 0 = Z.of_N (Pos.of_uint d).
Proof.
  induction d as [|d IH|d IH|d IH|d IH|d IH|d IH|d IH|d IH|d IH|d IH];
    cbn [NilEmpty.string_of_uint Pos.of_uint]; [reflexivity|..];
    cbn [scan];
    match goal with
    | |- context [digitValue 10 ?c] =>
        let v := eval vm_compute in (digitValue 10 c) in
        change (digitValue 10 c) with v
    end; cbv iota;
    first [ exact IH | cbn [Z.of_N]; rewrite <- scan_uint_acc; reflexivity ].
Qed.

Lemma uint_digits (d : Decimal.uint) :
  allChars isDigit (NilEmpty.string_of_uint d) = true.
Proof.
  induction d; cbn [NilEmpty.string_of_uint allChars]; [reflexivity|..];
    rewrite IHd; reflexivity.
Qed.

(** [String(n)] of a number that is not negative: digits, and the number
    they denote is [n]. *)
Lemma ToString_digits (n : Z) :
  (0 <= n)%Z ->
  allChars isDigit (ToString n) = true /\ ToString n <> "" /\
  scan 10 (ToString n) 0 = n.
Proof.
  intros Hn. unfold ToString. destruct n as [|p|p]; [| |lia].
  - repeat split. discriminate.
  - cbn [Z.to_int NilZero.string_of_int].
    pose proof (DecimalPos.Unsigned.to_uint_nonnil p) as Hnn.
    assert (E : NilZero.string_of_uint (Pos.to_uint p)
                = NilEmpty.string_of_uint (Pos.to_uint p)).
    { unfold NilZero.string_of_uint. destruct (Pos.to_uint p); [contradiction|..];
        reflexivity. }
    rewrite E. split; [apply uint_digits|]. split.
    + destruct (Pos.to_uint p); [contradiction|..]; discriminate.
    + rewrite scan_uint, DecimalPos.Unsigned.of_to. reflexivity.
Qed.

(** [String(n)] of any integer has digits and at most a minus sign. *)
Lemma ToString_chars (n : Z) :
  allChars (fun c => isDigit c || (c =? "-")%char) (ToString n) = true /\
  ToString n <> "".
Proof.
  destruct (Z.le_gt_cases 0 n) as [Hn|Hn].
  - destruct (ToString_digits _ Hn) as (H & Hne & _). split; [|exact Hne].
    revert H. apply allChars_impl. intros c ->. reflexivity.
  - destruct n as [|p|p]; try lia. unfold ToString.
    cbn [Z.to_int NilZero.string_of_int]. split; [|discriminate].
    cbn [allChars]. change (isDigit "-" || ("-" =? "-")%char) with true. cbn [andb].
    pose proof (DecimalPos.Unsigned.to_uint_nonnil p) as Hnn.
    assert (E : NilZero.string_of_uint (Pos.to_uint p)
                = NilEmpty.string_of_uint (Pos.to_uint p)).
    { unfold NilZero.string_of_uint. destruct (Pos.to_uint p); [contradiction|..];
        reflexivity. }
    rewrite E. pose proof (uint_digits (Pos.to_uint p)) as H.
    revert H. apply allChars_impl. intros c ->. reflexivity.
Qed.

(** A numeral of digits alone is read in full, in radix ten. *)
Lemma parseInt_digits (s : string) :
  allChars isDigit s = true -> s <> "" -> parseInt s = Some (scan 10 s 0).
Proof.
  intros Hs Hne. destruct s as [|c s]; [contradiction|].
  cbn [allChars] in Hs. apply andb_true_iff in Hs. destruct Hs as [Hc Hs].
  destruct (digit_class _ Hc) as (Hws & Hminus & Hplus & _).
  unfold parseInt. rewrite (@trimStart_kept c s Hws).
  unfold signOf. rewrite Hminus, Hplus.
  assert (Hr : radixOf (String c s) = (10%Z, String c s)).
  { unfold radixOf. destruct s as [|x s]; [reflexivity|].
    cbn [allChars] in Hs. apply andb_true_iff in Hs. destruct Hs as [Hx _].
    destruct (digit_class _ Hx) as (_ & _ & _ & Hx1 & Hx2 & _).
    now rewrite Hx1, Hx2, andb_false_r. }
  rewrite Hr. unfold mathInt.
  destruct (digit_value _ Hc) as (d & Hd & _). rewrite Hd.
  cbn [option_map]. f_equal. lia.
Qed.

(** Zeros in front do not change what the digits denote. *)
Lemma filler_zeros (n : nat) (rest s : string) :
  rest = "0" \/ rest = "" ->
  allChars isDigit (filler n "0" rest) = true /\
  scan 10 (filler n "0" rest ++ s) 0 = scan 10 s 0.
Proof.
  revert rest. induction n as [|n IH]; intros rest Hrest; cbn [filler].
  - split; reflexivity.
  - destruct Hrest as [->| ->]; cbn [allChars append];
      destruct (IH "" (or_intror eq_refl)) as [H1 H2];
      (split; [rewrite H1; reflexivity | cbn [scan]; exact H2]).
Qed.

(** A number that is not negative, written with zeros in front, is read
    back. *)
Lemma padded_digits (width : nat) (n : Z) :
  (0 <= n)%Z ->
  allChars isDigit (SRT.padded width n) = true /\ SRT.padded width n <> "" /\
  parseInt (SRT.padded width n) = Some n.
Proof.
  intros Hn. destruct (ToString_digits _ Hn) as (Hd & Hne & Hv).
  assert (H : allChars isDigit (SRT.padded width n) = true /\
              SRT.padded width n <> "" /\
              scan 10 (SRT.padded width n) 0 = n).
  { unfold SRT.padded, padStart.
    destruct (width <=? String.length (ToString n))%nat; [repeat split; assumption|].
    destruct (@filler_zeros (width - String.length (ToString n)) "0" (ToString n)
                (or_introl eq_refl)) as [H1 H2].
    rewrite allChars_app, H1, Hd, H2. repeat split; [|exact Hv].
    destruct (filler _ _ _); [exact Hne | discriminate]. }
  destruct H as (H1 & H2 & H3). repeat split; try assumption.
  now rewrite (parseInt_digits _ H1 H2), H3.
Qed.

End NumeralFacts.

(** ** The subtitle parser *)

Module SRTFacts.
Import JsString JsStringFacts NumeralFacts FormatTime SRT.
Local Unset Implicit Arguments.
Local Open Scope string_scope.

(** *** Timecodes *)

Lemma digits_no_separator (s : string) :
  allChars isDigit s = true ->
  allChars (fun c => negb (isTimecodeSeparator c)) s = true.
Proof.
  apply allChars_impl. intros c Hc.
  destruct (digit_class _ Hc) as (_ & _ & _ & _ & _ & _ & H1 & H2).
  unfold isTimecodeSeparator. now rewrite H1, H2.
Qed.

(** What a written timecode is made of. *)
Lemma writeStamp_chars (t : Stamp) :
  (0 <= hh t /\ 0 <= mm t /\ 0 <= ss t /\ 0 <= ms t)%Z ->
  allChars (fun c => isDigit c || isTimecodeSeparator c) (writeStamp t) = true /\
  exists c rest, writeStamp t = String c rest /\ isDigit c = true.
Proof.
  intros (H1 & H2 & H3 & H4).
  destruct (padded_digits 2 _ H1) as (A1 & N1 & _).
  destruct (padded_digits 2 _ H2) as (A2 & _ & _).
  destruct (padded_digits 2 _ H3) as (A3 & _ & _).
  destruct (padded_digits 3 _ H4) as (A4 & _ & _).
  assert (Hd : forall s, allChars isDigit s = true ->
                 allChars (fun c => isDigit c || isTimecodeSeparator c) s = true).
  { intros s. apply allChars_impl. intros c ->. reflexivity. }
  unfold writeStamp. split.
  - rewrite !allChars_app, (Hd _ A1), (Hd _ A2), (Hd _ A3), (Hd _ A4). reflexivity.
  - destruct (padded 2 (hh t)) as [|c rest]; [contradiction|].
    exists c, (rest ++ ":" ++ padded 2 (mm t) ++ ":" ++ padded 2 (ss t) ++ ","
               ++ padded 3 (ms t)).
    split; [reflexivity|]. cbn [allChars] in A1. now apply andb_true_iff in A1.
Qed.

(** A written timecode is read back as the time it denotes. *)
Lemma parseSRTTimecode_writeStamp (t : Stamp) :
  (0 <= hh t /\ 0 <= mm t /\ 0 <= ss t /\ 0 <= ms t)%Z ->
  parseSRTTimecode (writeStamp t) = Some (stampSeconds t).
Proof.
  intros (H1 & H2 & H3 & H4).
  destruct (padded_digits 2 _ H1) as (A1 & _ & P1).
  destruct (padded_digits 2 _ H2) as (A2 & _ & P2).
  destruct (padded_digits 2 _ H3) as (A3 & _ & P3).
  destruct (padded_digits 3 _ H4) as (A4 & _ & P4).
  unfold parseSRTTimecode, writeStamp.
  change (":" ++ ?x) with (String ":" x).
  rewrite (@splitAt_first isTimecodeSeparator _ ":"%char _ (digits_no_separator _ A1) eq_refl).
  change (":" ++ padded 2 (ss t) ++ "," ++ padded 3 (ms t))
    with (String ":" (padded 2 (ss t) ++ "," ++ padded 3 (ms t))).
  rewrite (@splitAt_first isTimecodeSeparator _ ":"%char _ (digits_no_separator _ A2) eq_refl).
  change ("," ++ padded 3 (ms t)) with (String "," (padded 3 (ms t))).
  rewrite (@splitAt_first isTimecodeSeparator _ ","%char _ (digits_no_separator _ A3) eq_refl).
  rewrite (splitAt_none _ _ (digits_no_separator _ A4)).
  cbn [map]. rewrite P1, P2, P3, P4. reflexivity.
Qed.

(** *** Lines and blocks *)

Lemma stamp_class (c : ascii) :
  isDigit c || isTimecodeSeparator c = true ->
  isWhiteSpace c = false /\ (c =? "-")%char = false /\ (c =? LF)%char = false.
Proof.
  intros H.
  pose proof (@ascii_all
    (fun c => implb (isDigit c || isTimecodeSeparator c)
       (negb (isWhiteSpace c) && negb (c =? "-")%char && negb (c =? LF)%char))
    ltac:(vm_compute; reflexivity) c) as Hall.
  cbv beta in Hall. rewrite H in Hall. cbn [implb] in Hall.
  rewrite !andb_true_iff, !negb_true_iff in Hall. tauto.
Qed.

Lemma numeral_class (c : ascii) :
  isDigit c || (c =? "-")%char = true ->
  isWhiteSpace c = false /\ (c =? LF)%char = false.
Proof.
  intros H.
  pose proof (@ascii_all
    (fun c => implb (isDigit c || (c =? "-")%char)
       (negb (isWhiteSpace c) && negb (c =? LF)%char))
    ltac:(vm_compute; reflexivity) c) as Hall.
  cbv beta in Hall. rewrite H in Hall. cbn [implb] in Hall.
  rewrite !andb_true_iff, !negb_true_iff in Hall. tauto.
Qed.

(** The line with the two timecodes. *)
Lemma timing_line (a b : Stamp) :
  (0 <= hh a /\ 0 <= mm a /\ 0 <= ss a /\ 0 <= ms a)%Z ->
  (0 <= hh b /\ 0 <= mm b /\ 0 <= ss b /\ 0 <= ms b)%Z ->
  let timing := writeStamp a ++ " --> " ++ writeStamp b in
  trim timing = timing /\
  oneLine timing = true /\
  (exists c rest, timing = String c rest /\ (c =? LF)%char = false) /\
  map (fun i => parseSRTTimecode (trim i)) (split "-->" timing)
  = [Some (stampSeconds a); Some (stampSeconds b)].
Proof.
  intros Ha Hb timing.
  destruct (writeStamp_chars _ Ha) as (Ca & ca & ra & Ea & Da).
  destruct (writeStamp_chars _ Hb) as (Cb & cb & rb & Eb & Db).
  pose proof (parseSRTTimecode_writeStamp _ Ha) as Pa.
  pose proof (parseSRTTimecode_writeStamp _ Hb) as Pb.
  assert (Wa : allChars (fun c => negb (isWhiteSpace c)) (writeStamp a) = true).
  { revert Ca. apply allChars_impl. intros c Hc.
    destruct (stamp_class _ Hc) as (H & _). now rewrite H. }
  assert (Wb : allChars (fun c => negb (isWhiteSpace c)) (writeStamp b) = true).
  { revert Cb. apply allChars_impl. intros c Hc.
    destruct (stamp_class _ Hc) as (H & _). now rewrite H. }
  assert (Ma : allChars (fun c => negb (c =? "-")%char) (writeStamp a) = true).
  { revert Ca. apply allChars_impl. intros c Hc.
    destruct (stamp_class _ Hc) as (_ & H & _). now rewrite H. }
  assert (Mb : allChars (fun c => negb (c =? "-")%char) (writeStamp b) = true).
  { revert Cb. apply allChars_impl. intros c Hc.
    destruct (stamp_class _ Hc) as (_ & H & _). now rewrite H. }
  assert (La : oneLine (writeStamp a) = true).
  { unfold oneLine. revert Ca. apply allChars_impl. intros c Hc.
    destruct (stamp_class _ Hc) as (_ & _ & H). now rewrite H. }
  assert (Lb : oneLine (writeStamp b) = true).
  { unfold oneLine. revert Cb. apply allChars_impl. intros c Hc.
    destruct (stamp_class _ Hc) as (_ & _ & H). now rewrite H. }
  subst timing.
  revert Ea Eb Pa Pb Wa Wb Ma Mb La Lb. clear Ca Cb.
  generalize (writeStamp a) (writeStamp b). intros A B Ea Eb Pa Pb Wa Wb Ma Mb La Lb.
  assert (HtA : trim A = A) by now apply trim_kept.
  assert (HtB : trim B = B) by now apply trim_kept.
  split; [|split; [|split]].
  - destruct (stamp_class ca ltac:(now rewrite Da)) as (Hws & _).
    unfold trim. subst A.
    change (String ca ra ++ " --> " ++ B) with (String ca (ra ++ " --> " ++ B)).
    rewrite (trimStart_kept ca _ Hws).
    change (String ca (ra ++ " --> " ++ B)) with (String ca ra ++ " --> " ++ B).
    rewrite <- (append_assoc (String ca ra) " --> " B).
    rewrite trimEnd_app_kept; rewrite (trimEnd_kept _ Wb); [reflexivity|].
    rewrite Eb. discriminate.
  - unfold oneLine in *. rewrite !allChars_app, La, Lb. reflexivity.
  - exists ca, (ra ++ " --> " ++ B). split; [now rewrite Ea|].
    destruct (stamp_class ca ltac:(now rewrite Da)) as (_ & _ & H). exact H.
  - replace (A ++ " --> " ++ B) with ((A ++ " ") ++ "-->" ++ " " ++ B)
      by (rewrite !append_assoc; reflexivity).
    rewrite split_first by (rewrite allChars_app, Ma; reflexivity).
    rewrite split_none by (cbn [append allChars]; rewrite Mb; reflexivity).
    cbn [map].
    rewrite (trim_app_blank A " " eq_refl), HtA, Pa.
    change (trim (" " ++ B)) with (trim B). rewrite HtB, Pb. reflexivity.
Qed.

Lemma oneLine_spaced (s : string) : oneLine s = true -> spaced s = true.
Proof.
  unfold oneLine. induction s as [|c s IH]; cbn [allChars spaced]; [reflexivity|].
  rewrite andb_true_iff, negb_true_iff. intros [Hc Hs]. now rewrite Hc, (IH Hs).
Qed.

(** A line in front of a line feed. *)
Lemma spaced_line (x y : string) :
  oneLine x = true -> spaced (String LF y) = true ->
  spaced (x ++ String LF y) = true.
Proof.
  unfold oneLine. intros Hx Hy.
  induction x as [|c x IH]; cbn [append]; [exact Hy|].
  cbn [allChars] in Hx. apply andb_true_iff in Hx. destruct Hx as [Hc Hx].
  apply negb_true_iff in Hc. cbn [spaced]. rewrite Hc. exact (IH Hx).
Qed.

Lemma spaced_after (c : ascii) (r : string) :
  (c =? LF)%char = false -> spaced (String c r) = true ->
  spaced (String LF (String c r)) = true.
Proof.
  intros Hc Hs. change (spaced (String LF (String c r)))
    with ((if (LF =? LF)%char then negb (c =? LF)%char else true)
          && spaced (String c r)).
  now rewrite Hs, Hc.
Qed.

Lemma oneLine_first (s : string) :
  oneLine s = true -> s <> "" ->
  exists c r, s = String c r /\ (c =? LF)%char = false.
Proof.
  intros H Hne. destruct s as [|c r]; [contradiction|].
  exists c, r. split; [reflexivity|]. unfold oneLine in H. cbn [allChars] in H.
  apply andb_true_iff in H. destruct H as [Hc _]. now apply negb_true_iff in Hc.
Qed.

Lemma not_line_feed (s : string) :
  oneLine s = true -> allChars (fun c => negb (c =? LF)%char) s = true.
Proof. exact (fun H => H). Qed.

(** An entry as the parser sees it: three lines, the second with the two
    timecodes, and no empty line inside. *)
Lemma entry_block (e : Entry) :
  wellFormed e ->
  map trim (split (String LF "") (writeEntry e))
  = [ToString (counter e);
     writeStamp (from e) ++ " --> " ++ writeStamp (to e);
     trim (line e)] /\
  parseBlock [ToString (counter e);
              writeStamp (from e) ++ " --> " ++ writeStamp (to e);
              trim (line e)] = Some (cueOf e) /\
  spaced (writeEntry e ++ String LF "") = true /\
  writeEntry e <> "".
Proof.
  intros (Hfrom & Hto & Hline & Hne).
  destruct (timing_line _ _ Hfrom Hto) as (Htrim & Hone & (c & r & Ec & Hc) & Hparse).
  cbv zeta in Htrim, Hone, Ec, Hparse.
  destruct (ToString_chars (counter e)) as (Hcnt & Hcne).
  assert (Hcl : oneLine (ToString (counter e)) = true).
  { unfold oneLine. revert Hcnt. apply allChars_impl. intros x Hx.
    destruct (numeral_class _ Hx) as (_ & H). now rewrite H. }
  assert (Hct : trim (ToString (counter e)) = ToString (counter e)).
  { apply trim_kept. revert Hcnt. apply allChars_impl. intros x Hx.
    destruct (numeral_class _ Hx) as (H & _). now rewrite H. }
  assert (Hw : writeEntry e
               = ToString (counter e)
                 ++ String LF ((writeStamp (from e) ++ " --> " ++ writeStamp (to e))
                               ++ String LF (line e))).
  { unfold writeEntry. now rewrite !append_assoc. }
  rewrite Hw. clear Hw.
  revert Htrim Hone Ec Hparse.
  generalize (writeStamp (from e) ++ " --> " ++ writeStamp (to e)).
  intros timing Htrim Hone Ec Hparse.
  revert Hcl Hct Hcne. generalize (ToString (counter e)). intros cnt Hcl Hct Hcne.
  split; [|split; [|split]].
  - rewrite split_single.
    rewrite (splitAt_first _ _ LF _ (not_line_feed _ Hcl) eq_refl).
    rewrite (splitAt_first _ _ LF _ (not_line_feed _ Hone) eq_refl).
    rewrite (splitAt_none _ _ (not_line_feed _ Hline)).
    cbn [map]. now rewrite Hct, Htrim.
  - unfold parseBlock. cbn [nth_error]. rewrite Hparse. reflexivity.
  - rewrite append_assoc. cbn [append].
    apply spaced_line; [exact Hcl|].
    rewrite append_assoc. cbn [append]. rewrite Ec. cbn [append].
    apply spaced_after; [exact Hc|].
    change (String c (r ++ String LF (line e ++ String LF "")))
      with (String c r ++ String LF (line e ++ String LF "")).
    rewrite <- Ec. apply spaced_line; [exact Hone|].
    destruct (oneLine_first _ Hline Hne) as (d & r' & Ed & Hd).
    rewrite Ed. cbn [append]. apply spaced_after; [exact Hd|].
    change (String d (r' ++ String LF "")) with (String d r' ++ String LF "").
    rewrite <- Ed. apply spaced_line; [exact Hline | reflexivity].
  - destruct cnt; [contradiction | discriminate].
Qed.

(** *** Empty lines *)

Lemma no_blank_here (c : ascii) (a : string) :
  (if (c =? LF)%char
   then match a with
        | String d _ => negb (d =? LF)%char
        | EmptyString => true
        end
   else true) = true ->
  prefix (String LF (String LF "")) (String c a) = false.
Proof.
  destruct (c =? LF)%char eqn:Hc.
  - apply Ascii.eqb_eq in Hc. subst c. intros H.
    cbn [prefix]. destruct (ascii_dec LF LF); [|reflexivity].
    destruct a as [|d a]; [reflexivity|].
    apply negb_true_iff in H. now rewrite prefix_single.
  - intros _. now apply prefix_first.
Qed.

(** Without two line feeds in a row there is one block. *)
Lemma split_blank_none (a : string) :
  spaced a = true -> split (String LF (String LF "")) a = [a].
Proof.
  unfold split. induction a as [|c a IH]; [reflexivity|].
  cbn [spaced]. rewrite andb_true_iff. intros [Hc Ha].
  cbn [splitFrom]. now rewrite (no_blank_here _ _ Hc), (IH Ha).
Qed.

(** A block that has no empty line inside and does not end with a line
    feed is the first piece. *)
Lemma split_blank_first (a b : string) :
  spaced (a ++ String LF "") = true ->
  split (String LF (String LF "")) (a ++ String LF (String LF "") ++ b)
  = a :: split (String LF (String LF "")) b.
Proof.
  unfold split. induction a as [|c a IH]; intros Ha.
  - change ("" ++ String LF (String LF "") ++ b) with (String LF (String LF "") ++ b).
    change (String LF (String LF "") ++ b) with (String LF (String LF "" ++ b)) at 1.
    cbn [splitFrom].
    change (String LF (String LF "" ++ b)) with (String LF (String LF "") ++ b).
    rewrite prefix_app. cbn [String.length Nat.sub].
    exact (f_equal (cons "") (splitFrom_skip _ (String LF "") b)).
  - change (String c a ++ String LF "") with (String c (a ++ String LF "")) in Ha.
    cbn [spaced] in Ha. apply andb_true_iff in Ha. destruct Ha as [Hc Ha].
    change (String c a ++ String LF (String LF "") ++ b)
      with (String c (a ++ String LF (String LF "") ++ b)).
    cbn [splitFrom].
    assert (Hp : prefix (String LF (String LF ""))
                   (String c (a ++ String LF (String LF "") ++ b)) = false).
    { apply no_blank_here. destruct (c =? LF)%char; [|reflexivity].
      destruct a as [|d a]; [discriminate Hc | exact Hc]. }
    now rewrite Hp, (IH Ha).
Qed.

Lemma spaced_app_l (a b : string) : spaced (a ++ b) = true -> spaced a = true.
Proof.
  induction a as [|c a IH]; [reflexivity|].
  change (String c a ++ b) with (String c (a ++ b)). cbn [spaced].
  rewrite !andb_true_iff. intros [Hc Ha]. split; [|exact (IH Ha)].
  destruct (c =? LF)%char; [|reflexivity]. destruct a; [reflexivity | exact Hc].
Qed.

(** The file of entries falls apart into the entries. *)
Lemma split_writeSRT (e : Entry) (entries : list Entry) :
  Forall wellFormed (e :: entries) ->
  split (String LF (String LF "")) (writeSRT (e :: entries))
  = map writeEntry (e :: entries).
Proof.
  revert e. induction entries as [|e' entries IH]; intros e H.
  - inversion H as [|? ? He _]; subst. unfold writeSRT. cbn [map String.concat].
    destruct (entry_block e He) as (_ & _ & Hs & _).
    apply split_blank_none. exact (spaced_app_l _ _ Hs).
  - inversion H as [|? ? He Hrest]; subst.
    destruct (entry_block e He) as (_ & _ & Hs & _).
    unfold writeSRT. cbn [map String.concat].
    rewrite (split_blank_first _ _ Hs). f_equal. exact (IH e' Hrest).
Qed.

Lemma blocks_writeSRT (entries : list Entry) :
  Forall wellFormed entries ->
  blocks (writeSRT entries)
  = map (fun e => [ToString (counter e);
                   writeStamp (from e) ++ " --> " ++ writeStamp (to e);
                   trim (line e)]) entries.
Proof.
  intros H. destruct entries as [|e entries]; [reflexivity|].
  unfold blocks. rewrite (split_writeSRT e entries H).
  induction H as [|x l Hx Hl IH]; [reflexivity|].
  destruct (entry_block x Hx) as (Hb & _ & _ & Hne).
  cbn [map filter].
  destruct (writeEntry x =? "") eqn:E; [apply String.eqb_eq in E; contradiction|].
  cbn [negb map]. now rewrite Hb, IH.
Qed.

Lemma parseBlocks_none (bs : list (list string)) :
  parseBlocks bs = None <-> Exists (fun b => parseBlock b = None) bs.
Proof.
  induction bs as [|b bs IH]; cbn [parseBlocks].
  - split; [discriminate | intros H; inversion H].
  - destruct (parseBlock b) as [cue|] eqn:E.
    + destruct (parseBlocks bs) as [cues|]; cbn [option_map].
      * split; [discriminate|]. intros H. inversion H; subst; [congruence|].
        apply IH in H1. discriminate H1.
      * split; [|reflexivity]. intros _. right. now apply IH.
    + split; [|reflexivity]. intros _. now left.
Qed.

Lemma count_none (test : ascii -> bool) (s : string) :
  count test s = 0%nat <-> allChars (fun c => negb (test c)) s = true.
Proof.
  induction s as [|c s IH]; cbn [count allChars]; [tauto|].
  destruct (test c); cbn [negb andb Nat.add]; [split; discriminate | exact IH].
Qed.

(** A block throws exactly when it has one line only. *)
Lemma parseBlock_none (block : string) :
  parseBlock (map trim (split (String LF "") block)) = None <-> oneLine block = true.
Proof.
  rewrite split_single. unfold oneLine.
  rewrite <- (count_none (fun c => (c =? LF)%char)).
  pose proof (splitAt_length (fun c => (c =? LF)%char) block) as Hlen.
  unfold parseBlock.
  destruct (splitAt (fun c => (c =? LF)%char) block) as [|l0 [|l1 ls]];
    cbn [map nth_error List.length] in *.
  - discriminate.
  - split; [intros _; lia | reflexivity].
  - split; [discriminate | intros H; rewrite H in Hlen; discriminate].
Qed.

(** *** Files with carriage returns *)

Lemma spaced_crlf (lines : list string) :
  Forall (fun l => oneLine l = true) lines ->
  spaced (String LF (String.concat (String CR (String LF "")) lines)) = true.
Proof.
  induction 1 as [|l ls Hl Hls IH]; [reflexivity|].
  assert (Hfirst : forall z, spaced (String LF z) = true ->
                     spaced (String LF (l ++ String CR (String LF z))) = true).
  { intros z Hz.
    assert (Hx : oneLine (l ++ String CR "") = true).
    { unfold oneLine in *. now rewrite allChars_app, Hl. }
    assert (Hs : spaced ((l ++ String CR "") ++ String LF z) = true)
      by now apply spaced_line.
    rewrite append_assoc in Hs. cbn [append] in Hs.
    destruct (l ++ String CR (String LF z)) as [|c r] eqn:E.
    - destruct l; discriminate E.
    - apply spaced_after; [|exact Hs].
      destruct l as [|c' l']; cbn [append] in E; inversion E; subst; [reflexivity|].
      unfold oneLine in Hl. cbn [allChars] in Hl. apply andb_true_iff in Hl.
      destruct Hl as [Hc _]. now apply negb_true_iff in Hc. }
  destruct ls as [|l' ls'].
  - cbn [String.concat].
    destruct l as [|c r]; [reflexivity|].
    apply spaced_after; [|now apply oneLine_spaced].
    unfold oneLine in Hl. cbn [allChars] in Hl. apply andb_true_iff in Hl.
    destruct Hl as [Hc _]. now apply negb_true_iff in Hc.
  - change (String.concat (String CR (String LF "")) (l :: l' :: ls'))
      with (l ++ String CR (String LF (String.concat (String CR (String LF ""))
                                         (l' :: ls')))).
    apply Hfirst. exact IH.
Qed.

Lemma crlf_lines (l : string) (lines : list string) :
  Forall (fun l => oneLine l = true) (l :: lines) ->
  map trim (split (String LF "") (String.concat (String CR (String LF "")) (l :: lines)))
  = map trim (l :: lines).
Proof.
  rewrite split_single. revert l.
  induction lines as [|l' lines IH]; intros l H; inversion H as [|? ? Hl Hrest]; subst.
  - cbn [String.concat]. now rewrite (splitAt_none _ _ (not_line_feed _ Hl)).
  - change (String.concat (String CR (String LF "")) (l :: l' :: lines))
      with (l ++ String CR (String LF (String.concat (String CR (String LF ""))
                                         (l' :: lines)))).
    replace (l ++ String CR (String LF (String.concat (String CR (String LF ""))
                                          (l' :: lines))))
      with ((l ++ String CR "") ++ String LF (String.concat (String CR (String LF ""))
                                                (l' :: lines)))
      by (rewrite append_assoc; reflexivity).
    rewrite splitAt_first; [| |reflexivity].
    + cbn [map]. rewrite (IH l' Hrest).
      now rewrite (trim_app_blank l (String CR "") eq_refl).
    + rewrite allChars_app, (not_line_feed _ Hl). reflexivity.
Qed.

End SRTFacts.

Module SRTClaims.
Import JsString JsStringFacts NumeralFacts FormatTime SRT SRTFacts.
Local Unset Implicit Arguments.
Local Open Scope string_scope.

(** X9. Reading back what was written: a file of entries in the SubRip
    layout (a counter, the two timecodes [hh:mm:ss,mmm] around [ --> ], one
    line of text that is not empty, an empty line between entries) is
    parsed into one cue per entry, in order, with the times the timecodes
    denote and the text trimmed; and the parser does not throw. *)
Theorem parseSRT_reads_written (entries : list Entry) :
  Forall wellFormed entries ->
  parseSRT (writeSRT entries)
  = Some (map (fun e =>
                 {| start := number (inject_Z (hh (from e)) * 3600
                                     + inject_Z (mm (from e)) * 60
                                     + inject_Z (ss (from e))
                                     + inject_Z (ms (from e)) / 1000)%Q;
                    end_ := number (inject_Z (hh (to e)) * 3600
                                    + inject_Z (mm (to e)) * 60
                                    + inject_Z (ss (to e))
                                    + inject_Z (ms (to e)) / 1000)%Q;
                    text := Some (trim (line e)) |}) entries).
Proof.
  intros H. unfold parseSRT. rewrite (blocks_writeSRT entries H).
  induction H as [|e l He Hl IH]; [reflexivity|].
  destruct (entry_block e He) as (_ & Hp & _).
  cbn [map parseBlocks]. rewrite Hp, IH. reflexivity.
Qed.

Lemma parseSRT_reads_written_witness :
  parseSRT (writeSRT
    [ {| counter := 1; from := {| hh := 0; mm := 0; ss := 1; ms := 0 |};
         to := {| hh := 0; mm := 0; ss := 4; ms := 500 |}; line := "Hello" |};
      {| counter := 2; from := {| hh := 1; mm := 2; ss := 3; ms := 4 |};
         to := {| hh := 1; mm := 2; ss := 5; ms := 0 |}; line := " there " |} ])
  = Some [ {| start := number (0 * 3600 + 0 * 60 + 1 + 0 / 1000)%Q;
              end_ := number (0 * 3600 + 0 * 60 + 4 + 500 / 1000)%Q;
              text := Some "Hello" |};
           {| start := number (1 * 3600 + 2 * 60 + 3 + 4 / 1000)%Q;
              end_ := number (1 * 3600 + 2 * 60 + 5 + 0 / 1000)%Q;
              text := Some "there" |} ].
Proof.
  refine (parseSRT_reads_written _ _).
  repeat constructor; cbn; lia || discriminate.
Defined.

(** X10. The parser throws exactly when, among the pieces between empty
    lines, there is one that is not empty and has no line feed in it: a
    block of a single line, whose second line the parser then reads.  The
    empty file gives no cue. *)
Theorem parseSRT_throws (srt : string) :
  (parseSRT srt = None <->
   Exists (fun block => block <> "" /\ oneLine block = true)
          (split (String LF (String LF "")) srt)) /\
  parseSRT "" = Some [].
Proof.
  split; [|reflexivity].
  unfold parseSRT, blocks. rewrite parseBlocks_none.
  generalize (split (String LF (String LF "")) srt). intros pieces.
  rewrite Exists_map. rewrite !Exists_exists. split.
  - intros (b & Hin & Hb). apply filter_In in Hin. destruct Hin as [Hin Hne].
    exists b. split; [exact Hin|]. split.
    + intros ->. discriminate Hne.
    + now apply parseBlock_none.
  - intros (b & Hin & Hne & Hb). exists b. split.
    + apply filter_In. split; [exact Hin|].
      destruct (b =? "") eqn:E; [apply String.eqb_eq in E; contradiction | reflexivity].
    + now apply parseBlock_none.
Qed.

(** X11. A file whose lines end in carriage return and line feed has no
    empty line in the parser's sense (two line feeds in a row), so the
    whole file is one block: the parser returns at most one cue, read from
    the second and third line, and every later entry is lost. *)
Theorem crlf_file_is_one_block (lines : list string) :
  Forall (fun l => oneLine l = true) lines ->
  let srt := String.concat (String CR (String LF "")) lines in
  parseSRT srt
  = (if srt =? "" then Some []
     else option_map (fun cue => [cue]) (parseBlock (map trim lines))) /\
  (forall cues, parseSRT srt = Some cues -> (List.length cues <= 1)%nat).
Proof.
  intros H srt.
  assert (Hparse : parseSRT srt
                   = if srt =? "" then Some []
                     else option_map (fun cue => [cue]) (parseBlock (map trim lines))).
  { pose proof (spaced_crlf lines H) as Hs. fold srt in Hs.
    cbn [spaced] in Hs. apply andb_true_iff in Hs. destruct Hs as [_ Hs].
    unfold parseSRT, blocks. rewrite (split_blank_none srt Hs). cbn [filter].
    destruct (srt =? "") eqn:E; cbn [negb map parseBlocks]; [reflexivity|].
    destruct lines as [|l ls]; [discriminate E|].
    unfold srt. rewrite (crlf_lines l ls H).
    now destruct (parseBlock (map trim (l :: ls))). }
  split; [exact Hparse|].
  intros cues Hc. rewrite Hparse in Hc. destruct (srt =? "").
  - inversion Hc; subst. cbn. lia.
  - destruct (parseBlock (map trim lines)); inversion Hc; subst. cbn. lia.
Qed.

Lemma crlf_file_is_one_block_witness :
  parseSRT (String.concat (String CR (String LF ""))
              ["1"; "00:00:01,000 --> 00:00:04,000"; "Hello"; "";
               "2"; "00:00:05,000 --> 00:00:08,000"; "World"])
  = Some [ {| start := number (0 * 3600 + 0 * 60 + 1 + 0 / 1000)%Q;
              end_ := number (0 * 3600 + 0 * 60 + 4 + 0 / 1000)%Q;
              text := Some "Hello" |} ].
Proof.
  refine (eq_trans (proj1 (crlf_file_is_one_block _ _)) _).
  - repeat constructor.
  - vm_compute. reflexivity.
Defined.

(** X12. A timecode needs three separators ([:] or [,]): with fewer, the
    milliseconds are missing and the time is not a number.  A cue whose
    timing line has such a timecode on either side of the arrow (the dot of
    [00:00:01.500], say) is parsed without complaint and is never
    displayed, whatever the current time. *)
Theorem timecode_needs_three_separators (counterLine a b : string)
    (rest : list string) :
  allChars (fun c => negb (c =? "-")%char) a = true ->
  allChars (fun c => negb (c =? "-")%char) b = true ->
  (count isTimecodeSeparator (trim a) < 3)%nat \/
  (count isTimecodeSeparator (trim b) < 3)%nat ->
  (parseSRTTimecode (trim a) = None \/ parseSRTTimecode (trim b) = None) /\
  exists cue,
    parseBlock (counterLine :: (a ++ "-->" ++ b) :: rest) = Some cue /\
    text cue = hd_error rest /\
    forall currentTime, shows currentTime cue = false.
Proof.
  intros Ha Hb Hfew.
  assert (Hshort : forall tc, (count isTimecodeSeparator tc < 3)%nat ->
                     parseSRTTimecode tc = None).
  { intros tc Hc. unfold parseSRTTimecode.
    pose proof (splitAt_length isTimecodeSeparator tc) as Hlen.
    destruct (splitAt isTimecodeSeparator tc) as [|f0 [|f1 [|f2 [|f3 fs]]]];
      cbn [map List.length] in *; try lia;
      repeat match goal with
             | |- context [match parseInt ?f with _ => _ end] => destruct (parseInt f)
             end; reflexivity. }
  assert (Hnone : parseSRTTimecode (trim a) = None \/ parseSRTTimecode (trim b) = None).
  { destruct Hfew as [H|H]; [left | right]; now apply Hshort. }
  split; [exact Hnone|].
  unfold parseBlock. cbn [nth_error].
  change ("-->" ++ b) with (String "-" (String "-" (String ">" "")) ++ b).
  rewrite (split_first "-"%char (String "-" (String ">" "")) a b Ha).
  rewrite (split_none "-"%char (String "-" (String ">" "")) b Hb).
  cbn [map]. eexists. split; [reflexivity|]. split; [reflexivity|].
  intros t. unfold shows. cbn [start end_ element nth_error].
  destruct Hnone as [-> | ->]; [reflexivity|].
  now destruct (parseSRTTimecode (trim a)).
Qed.

Lemma timecode_needs_three_separators_witness :
  exists cue,
    parseBlock ["1"; "00:00:01.500 " ++ "-->" ++ " 00:00:04.000"; "Hello"] = Some cue /\
    text cue = Some "Hello" /\
    forall currentTime, shows currentTime cue = false.
Proof.
  exact (proj2 (timecode_needs_three_separators "1" "00:00:01.500 " " 00:00:04.000"
                  ["Hello"] eq_refl eq_refl
                  (or_introl (le_n 3)))).
Defined.

End SRTClaims.

(** ** Making elements *)

Module DomClaims.
Import Dom.
Local Unset Implicit Arguments.
Local Open Scope string_scope.

(** X13. [createElement] of [stardust-player.js] throws exactly when it
    is given options without a class.  Given a class, it returns the
    element with the class string, or the class names joined by single
    spaces, as its class; markup given as [html] replaces a [text] given
    beside it.  The first two versions in [gplayer.js] return an element
    for the same options, class or no class, and never put the [html]
    markup into it: its content is the text, if any. *)
Theorem createElement_needs_class (tagname : string) (options : Options) :
  (createElement tagname (Some options) = None <-> class options = None) /\
  createElement tagname None = Some (blank tagname) /\
  (forall c, class options = Some c ->
     exists element,
       createElement tagname (Some options) = Some element /\
       elementClass element
       = match c with
         | className name => name
         | classList names => String.concat " " names
         end /\
       content element
       = match truthy (html options), truthy (text options) with
         | Some markup, _ => innerHTML markup
         | None, Some t => textContent t
         | None, None => noContent
         end) /\
  (exists element,
     createElementG tagname (Some options) = Some element /\
     content element
     = match truthy (text options) with
       | Some t => textContent t
       | None => noContent
       end).
Proof.
  split; [|split; [reflexivity|split]].
  - unfold createElement. destruct (class options); [split; discriminate | tauto].
  - intros c Hc. unfold createElement, idAndText. rewrite Hc.
    eexists. split; [reflexivity|].
    destruct (truthy (html options)), (truthy (text options)), (truthy (id options)), c;
      split; reflexivity.
  - unfold createElementG, idAndText. eexists. split; [reflexivity|].
    destruct (truthy (html options)), (truthy (text options)), (truthy (id options)),
      (class options) as [[]|]; reflexivity.
Qed.

End DomClaims.

(** ** Attributes *)

Module AttributesClaims.
Import Attributes.
Local Unset Implicit Arguments.
Local Open Scope string_scope.

Lemma apply_listeners (h : Host) (c : Change) :
  List.length (loadeddata (apply h c))
  = (List.length (loadeddata h) + srcChanges [c])%nat.
Proof.
  destruct c as [name newValue|]; cbn [apply]; [|cbn; lia].
  unfold attributeChangedCallback, srcChanges. cbn [filter].
  destruct (name =? "src").
  - cbn. rewrite length_app. reflexivity.
  - destruct (name =? "sub"); cbn; lia.
Qed.

(** X15. The [loadeddata] listener that starts the thumbnail render is
    never removed: [addEventListener] returns [undefined], so the
    [removeEventListener] that follows removes nothing.  After any history
    of attribute changes and loads, there are as many listeners as [src]
    has been set, and the next [loadeddata] starts that many renders. *)
Theorem loadeddata_listeners_pile_up (history : list Change) :
  let h := fold_left apply history initial in
  List.length (loadeddata h) = srcChanges history /\
  renders (fireLoadeddata h) = (renders h + srcChanges history)%nat.
Proof.
  assert (H : forall h0,
             List.length (loadeddata (fold_left apply history h0))
             = (List.length (loadeddata h0) + srcChanges history)%nat).
  { induction history as [|c history IH]; intros h0; cbn [fold_left].
    - unfold srcChanges. cbn. lia.
    - rewrite IH, apply_listeners. unfold srcChanges. cbn [filter].
      destruct c as [name v|]; [destruct (name =? "src")|]; cbn [List.length]; lia. }
  intros h. subst h. specialize (H initial). cbn [initial loadeddata List.length] in H.
  split; [exact H|]. cbn [fireLoadeddata renders]. now rewrite H.
Qed.

End AttributesClaims.

(** ** The subtitles of [gplayer.js] *)

Module GSubtitlesClaims.
Import Subtitles GSubtitles.
Local Unset Implicit Arguments.
Local Open Scope string_scope.

Lemma subtitleLoop_first (render : string -> string) (objects : list Subtitle)
    (t : Q) (c : Container) :
  GSubtitles.subtitleLoop render objects t c
  = match resolve objects t with
    | Some s => {| innerHTML := render (text s); assignments := S (assignments c) |}
    | None => c
    end.
Proof.
  unfold resolve. induction objects as [|s rest IH];
    cbn [GSubtitles.subtitleLoop find]; [reflexivity|].
  destruct (shown t s); [reflexivity | exact IH].
Qed.

(** X16. [updateSubtitles] of [gplayer.js] and the subtitle pass of
    [animationLoop] in [stardust-player.js] throw in the same case, and a
    pass that completes leaves the same markup in the container; but
    [updateSubtitles] assigns the container on every pass, where
    [animationLoop] leaves a container alone whose markup does not
    change. *)
Theorem updateSubtitles_same_markup (render : string -> string) (on : bool)
    (objects : option (list Subtitle)) (t : Q) (c : Container) :
  option_map innerHTML (updateSubtitles render on objects t c)
  = option_map innerHTML (animationLoopSubtitles render on objects t c) /\
  (forall c', updateSubtitles render on objects t c = Some c' ->
     (assignments c < assignments c')%nat) /\
  (forall c', animationLoopSubtitles render on objects t c = Some c' ->
     innerHTML c' = innerHTML c -> assignments c' = assignments c).
Proof.
  unfold updateSubtitles, animationLoopSubtitles, newSubtitles.
  destruct on; [destruct objects as [objects|]|]; cbn [option_map].
  - rewrite subtitleLoop_first, SubtitlesClaims.subtitleLoop_resolve.
    split; [|split].
    + f_equal. unfold assign.
      destruct (resolve objects t) as [s|]; cbn [innerHTML].
      * destruct (innerHTML c =? render (text s)) eqn:E; [|reflexivity].
        now apply String.eqb_eq in E.
      * destruct (innerHTML c =? "") eqn:E; [|reflexivity].
        now apply String.eqb_eq in E.
    + intros c' H. inversion H; subst.
      destruct (resolve objects t); cbn [assignments]; lia.
    + intros c' H Hsame. inversion H; subst. unfold assign in *.
      destruct (innerHTML c =? _) eqn:E; [reflexivity|].
      apply String.eqb_neq in E. cbn [innerHTML] in Hsame. congruence.
  - split; [reflexivity|]. split; intros c' H; discriminate H.
  - split; [|split].
    + f_equal. unfold assign. destruct (innerHTML c =? "") eqn:E; [|reflexivity].
      now apply String.eqb_eq in E.
    + intros c' H. inversion H; subst. cbn [assignments]. lia.
    + intros c' H Hsame. inversion H; subst. unfold assign in *.
      destruct (innerHTML c =? "") eqn:E; [reflexivity|].
      apply String.eqb_neq in E. cbn [innerHTML] in Hsame. congruence.
Qed.

End GSubtitlesClaims.

(** ** Gestures *)

Module GestureClaims.
Import SeekBar Player PlayerSpec PlayerFacts Scrub.
Local Unset Implicit Arguments.
Local Open Scope Q_scope.

Lemma onSeekBar_seeking (seeking : bool) (s : State) :
  let s' := onSeekBar (seekingchange seeking) s in
  effects s' = (if seeking || paused s then videoPause else videoPlay) :: effects s /\
  paused s' = paused s /\ currentTime s' = currentTime s /\ duration s' = duration s.
Proof. repeat split. Qed.

Lemma onSeekBar_time (position d : Q) (s : State) :
  duration s = Some d ->
  let s' := onSeekBar (timechange (Some position)) s in
  effects s' = assignCurrentTime (Some position) :: effects s /\
  paused s' = paused s /\ currentTime s' = seekTarget position d /\
  duration s' = Some d.
Proof.
  intros Hd. cbv zeta. cbn [onSeekBar].
  destruct (@setCurrentTime_known position d s Hd) as (H1 & H2 & H3).
  repeat split; assumption.
Qed.

(** X17. A scrub on a bar of positive width, the duration known: the
    player pauses the video when the pointer goes down, seeks to where the
    pointer goes down and to where it moves, and when the pointer is let go
    resumes playback exactly when the player is not paused, without seeking
    to where it was let go.  The [paused] state of the player is not
    touched.  A pointer let go with no scrub under way sends nothing. *)
Theorem scrub_pauses_and_resumes (s : State) (d x0 x1 x2 : Q) (l : Layout) :
  duration s = Some d -> 0 < width l ->
  let t0 := d * (x0 - left l) / width l in
  let t1 := d * (x1 - left l) / width l in
  gesture (Some d) x0 x1 x2 l
  = (false, [timechange (Some t0); seekingchange true; timechange (Some t1);
             seekingchange false]) /\
  (let s' := deliver (snd (gesture (Some d) x0 x1 x2 l)) s in
   effects s'
   = (if paused s then videoPause else videoPlay)
       :: assignCurrentTime (Some t1) :: videoPause
       :: assignCurrentTime (Some t0) :: effects s /\
   paused s' = paused s /\
   currentTime s' = seekTarget t1 d) /\
  documentPointerUp false (Some d) x2 l = (false, []).
Proof.
  intros Hd Hw t0 t1.
  assert (Hg : gesture (Some d) x0 x1 x2 l
               = (false, [timechange (Some t0); seekingchange true;
                          timechange (Some t1); seekingchange false])).
  { unfold gesture, clickAreaPointerDown, documentPointerUp, updateScrubbing.
    cbn [negb app]. now rewrite !(@SeekBarFacts.scrubTime_known _ _ _ Hw). }
  split; [exact Hg|]. split; [|reflexivity].
  rewrite Hg. cbn [snd deliver fold_left].
  destruct (onSeekBar_time t0 d s Hd) as (E1 & P1 & _ & D1).
  revert E1 P1 D1. generalize (onSeekBar (timechange (Some t0)) s). intros s1 E1 P1 D1.
  destruct (onSeekBar_seeking true s1) as (E2 & P2 & _ & D2).
  revert E2 P2 D2. generalize (onSeekBar (seekingchange true) s1). intros s2 E2 P2 D2.
  rewrite D1 in D2.
  destruct (onSeekBar_time t1 d s2 D2) as (E3 & P3 & C3 & D3).
  revert E3 P3 C3 D3. generalize (onSeekBar (timechange (Some t1)) s2).
  intros s3 E3 P3 C3 D3.
  destruct (onSeekBar_seeking false s3) as (E4 & P4 & C4 & _).
  revert E4 P4 C4. generalize (onSeekBar (seekingchange false) s3). intros s4 E4 P4 C4.
  rewrite E4, E3, E2, E1, P4, C4, C3, P3, P2, P1. cbn [orb]. repeat split.
Qed.

Lemma scrub_pauses_and_resumes_witness :
  gesture (Some 100) 150 200 900 Samples.bar
  = (false, [timechange (Some (100 * (150 - 100) / 200));
             seekingchange true;
             timechange (Some (100 * (200 - 100) / 200));
             seekingchange false]).
Proof.
  exact (proj1 (scrub_pauses_and_resumes Samples.loaded 100 150 200 900 Samples.bar
                  eq_refl eq_refl)).
Defined.

(** X18. A jump does not end a streak of taps: after a contact in a jump
    zone by a pointer that is not a mouse, every further such contact
    (wherever in the jump zones, left or right, and by whichever pointer
    but a mouse) that comes within the jump threshold of the one before
    seeks once more, so [n] further contacts seek [n] times. *)
Theorem tap_streak (s s1 : State) (pt : PointerType) (b : Z) (x : Q) (ol ow : Z)
    (contacts : list Taps.Contact) :
  reachable s ->
  pt <> mouse ->
  direction (options s) x ol ow <> noJump ->
  step s (pointerdown pt b x ol ow) = Some s1 ->
  Forall (Taps.inStreak (options s)) contacts ->
  exists s',
    run s1 (Taps.events contacts) = Some s' /\
    calls isSeek s' = (calls isSeek s1 + List.length contacts)%nat.
Proof.
  intros Hreach Hpt Hzone Hstep Hall. pose proof (@wf_reachable s Hreach) as Hwf.
  assert (Hs1 : touchDown (direction (options s) x ol ow) s = s1).
  { cbn [step] in Hstep. injection Hstep as Hs1. rewrite <- Hs1.
    unfold videoPointerDown. destruct pt; [contradiction| |]; reflexivity. }
  destruct (@touch_stamps _ s Hwf Hzone) as (Hwf1 & Hlast & Hnow & Hopt).
  cbv zeta in Hwf1, Hlast, Hnow, Hopt. rewrite Hs1 in Hwf1, Hlast, Hnow, Hopt.
  rewrite <- Hnow in Hlast. clear Hs1 Hnow Hwf Hreach Hstep Hpt Hzone pt b x ol ow.
  revert s1 Hwf1 Hlast Hopt.
  induction Hall as [|c contacts Hc _ IH]; intros s1 Hwf1 Hlast Hopt.
  - exists s1. split; [reflexivity|]. cbn [List.length]. lia.
  - destruct Hc as (Hpt & Hzone & Hgap).
    cbn [Taps.events flat_map app run].
    rewrite step_elapse by lia.
    set (s2 := with_now (now s1 + Taps.gap c) s1).
    assert (Hwf2 : wf s2) by exact Hwf1.
    assert (Hopt2 : options s2 = options s) by exact Hopt.
    assert (Hnear : (now s2 - lastTapTime s2
                     <= Options.doubleTapJumpDuration (options s2))%Z).
    { rewrite Hopt2. change (now s2) with (now s1 + Taps.gap c)%Z.
      change (lastTapTime s2) with (lastTapTime s1). lia. }
    assert (Heff2 : effects s2 = effects s1) by reflexivity.
    clearbody s2.
    assert (Hdown : step s2 (pointerdown (Taps.pointer c) (Taps.pressed c) (Taps.x c)
                                         (Taps.playerLeft c) (Taps.playerWidth c))
                    = Some (touchDown (direction (options s) (Taps.x c) (Taps.playerLeft c)
                                                 (Taps.playerWidth c)) s2)).
    { cbn [step]. unfold videoPointerDown. rewrite Hopt2.
      destruct (Taps.pointer c); [contradiction| |]; reflexivity. }
    rewrite Hdown. clear Hdown.
    rewrite <- Hopt2 in Hzone.
    destruct (@touch_jump _ s2 Hwf2 Hzone Hnear) as (Heff & _).
    destruct (@touch_stamps _ s2 Hwf2 Hzone) as (Hwf3 & Hlast3 & Hnow3 & Hopt3).
    cbv zeta in Heff, Hwf3, Hlast3, Hnow3, Hopt3.
    rewrite <- Hnow3 in Hlast3. rewrite Hopt2 in Hopt3, Heff, Hwf3, Hlast3.
    revert Heff Hwf3 Hlast3 Hopt3.
    generalize (touchDown (direction (options s) (Taps.x c) (Taps.playerLeft c)
                                     (Taps.playerWidth c)) s2).
    intros s3 Heff Hwf3 Hlast3 Hopt3.
    destruct (IH s3 Hwf3 Hlast3 Hopt3) as (s' & Hrun & Hcalls).
    exists s'. split; [exact Hrun|]. rewrite Hcalls.
    unfold calls. rewrite Heff, Heff2. cbn [filter isSeek List.length]. lia.
Qed.

Lemma tap_streak_witness :
  exists s1 s',
    step Samples.loaded Samples.tapRight = Some s1 /\
    run s1 [elapse 100; Samples.tapLeft; elapse 250; pointerdown pen 0 995 0 1000;
            elapse 0; Samples.tapRight] = Some s' /\
    calls isSeek s' = (calls isSeek s1 + 3)%nat.
Proof.
  eexists.
  assert (H0 : step Samples.loaded Samples.tapRight = Some _) by reflexivity.
  destruct (tap_streak Samples.loaded _ touch 1 990 0 1000
              [ {| Taps.gap := 100; Taps.pointer := touch; Taps.pressed := 1;
                   Taps.x := 10; Taps.playerLeft := 0; Taps.playerWidth := 1000 |};
                {| Taps.gap := 250; Taps.pointer := pen; Taps.pressed := 0;
                   Taps.x := 995; Taps.playerLeft := 0; Taps.playerWidth := 1000 |};
                {| Taps.gap := 0; Taps.pointer := touch; Taps.pressed := 1;
                   Taps.x := 990; Taps.playerLeft := 0; Taps.playerWidth := 1000 |} ]
              PlayerClaims.reachable_loaded ltac:(discriminate)
              ltac:(vm_compute; discriminate) H0
              ltac:(repeat constructor; vm_compute; discriminate))
    as (s' & H1 & H2).
  exists s'. split; [exact H0|]. split; assumption.
Defined.

(** X19. [clamp(min, n, max)], bounds in order: the result lies between
    the bounds and is [n] itself when [n] does, the lower bound when [n] is
    below and the upper bound when [n] is above.  Bounds out of order: the
    result is [max], whatever [n]. *)
Theorem clamp_cases (min n max : Q) :
  (min <= max ->
   min <= Num.clamp min n max /\ Num.clamp min n max <= max /\
   (min <= n -> n <= max -> Num.clamp min n max == n) /\
   (n < min -> Num.clamp min n max == min) /\
   (max < n -> Num.clamp min n max == max)) /\
  (max < min -> Num.clamp min n max == max).
Proof.
  unfold Num.clamp.
  destruct (Q.max_spec n min) as [[A ->]|[A ->]];
    [destruct (Q.min_spec min max) as [[B ->]|[B ->]]
    |destruct (Q.min_spec n max) as [[B ->]|[B ->]]];
    repeat split; intros; lra.
Qed.

Lemma clamp_cases_witness :
  Num.clamp 0 (-50) 200 == 0 /\ Num.clamp 0 250 200 == 200 /\ Num.clamp 5 1 2 == 2.
Proof.
  split; [|split].
  - apply (proj1 (clamp_cases 0 (-50) 200)); reflexivity || discriminate.
  - apply (proj1 (clamp_cases 0 250 200)); reflexivity || discriminate.
  - apply (proj2 (clamp_cases 5 1 2)). reflexivity.
Defined.

End GestureClaims.

(** ** What the video element is told *)

Module PlaybackClaims.
Import Player PlayerSpec PlayerFacts Playback.
Local Unset Implicit Arguments.

Lemma inStep_same (s s' : State) : sameFlags s s' -> inStep s -> inStep s'.
Proof.
  intros (_ & Hp & _ & _ & _ & He & _). unfold inStep, lastPlayback.
  now rewrite Hp, He.
Qed.

Lemma inStep_other (e : Effect) (s s' : State) :
  effects s' = e :: effects s -> isPlayback e = false -> paused s' = paused s ->
  inStep s -> inStep s'.
Proof.
  intros He Hq Hp. unfold inStep, lastPlayback. rewrite He, Hp. cbn [find].
  now rewrite Hq.
Qed.

Lemma inStep_keep (s s' : State) :
  effects s' = effects s -> paused s' = paused s -> inStep s -> inStep s'.
Proof.
  intros He Hp. unfold inStep, lastPlayback. now rewrite He, Hp.
Qed.

Lemma inStep_told (s s' : State) :
  effects s' = (if paused s' then videoPause else videoPlay) :: effects s ->
  inStep s'.
Proof.
  intros He. unfold inStep, lastPlayback. rewrite He. cbn [find].
  now destruct (paused s').
Qed.

Lemma inStep_updatePaused (s : State) : inStep (updatePaused s).
Proof. apply (inStep_told s). reflexivity. Qed.

Lemma inStep_togglePaused (s : State) : inStep (togglePaused s).
Proof. unfold togglePaused. apply inStep_updatePaused. Qed.

Lemma inStep_setCurrentTime (v : option Q) (s : State) :
  inStep s -> inStep (setCurrentTime v s).
Proof.
  intros H. apply (inStep_other (assignCurrentTime v) s); [| reflexivity | | exact H];
    destruct v; reflexivity.
Qed.

Lemma inStep_updateHideControls (s : State) : inStep s -> inStep (updateHideControls s).
Proof. apply inStep_same, sameFlags_updateHideControls. Qed.

Lemma inStep_toggleOverlay (s : State) : inStep s -> inStep (toggleOverlay s).
Proof.
  intros H. unfold toggleOverlay. destruct (controlsHidden s).
  - now apply inStep_updateHideControls.
  - apply (inStep_keep s); [reflexivity | reflexivity | exact H].
Qed.

Lemma inStep_mouseDown (buttons : Z) (s : State) : inStep s -> inStep (mouseDown buttons s).
Proof.
  intros H. unfold mouseDown. destruct (negb (buttons =? 1)%Z); [exact H|]. cbv zeta.
  pose proof (inStep_updateHideControls s H) as H1.
  revert H1. generalize (updateHideControls s). clear s H. intros u H.
  assert (H1 : inStep (clearTimeout (playPauseTimeout u) u))
    by (apply (inStep_keep u); [reflexivity | reflexivity | exact H]).
  revert H1. generalize (clearTimeout (playPauseTimeout u) u). clear u H. intros c H.
  destruct (now c - lastClickTime c <=? Options.doubleClickDuration (options c))%Z.
  - apply (inStep_other callToggleFullscreen c); [reflexivity .. | exact H].
  - apply (inStep_keep c); [reflexivity | reflexivity | exact H].
Qed.

Lemma inStep_touchDown (d : Direction) (s : State) : inStep s -> inStep (touchDown d s).
Proof.
  intros H. unfold touchDown. cbv zeta.
  assert (H1 : inStep (clearTimeout (tapJumpTimeout s) s))
    by (apply (inStep_keep s); [reflexivity | reflexivity | exact H]).
  revert H1. generalize (clearTimeout (tapJumpTimeout s) s). clear s H. intros s H.
  destruct d.
  1,2: destruct (now s - lastTapTime s <=? Options.doubleTapJumpDuration (options s))%Z;
       cbn [negb];
       [ eapply inStep_keep; [| |apply inStep_setCurrentTime; exact H]; reflexivity
       | apply (inStep_keep s); [reflexivity | reflexivity | exact H] ].
  cbn [negb]. now apply inStep_toggleOverlay.
Qed.

Lemma inStep_keydown (key : string) (buttonFocused : bool) (s : State) :
  inStep s -> inStep (keydown key buttonFocused s).
Proof.
  intros H. unfold keydown. cbv zeta.
  pose proof (inStep_updateHideControls s H) as H1.
  revert H1. generalize (updateHideControls s). clear s H. intros u H.
  repeat match goal with
         | |- inStep (if ?c then _ else _) => destruct c
         end;
    first [ exact H
          | apply inStep_togglePaused
          | now apply inStep_setCurrentTime
          | apply (inStep_other callToggleMute u); [reflexivity .. | exact H]
          | apply (inStep_other callToggleFullscreen u); [reflexivity .. | exact H]
          | apply (inStep_other callToggleSubtitles u); [reflexivity .. | exact H]
          | apply (inStep_keep u); [reflexivity | reflexivity | exact H] ].
Qed.

Lemma inStep_runCallback (cb : Callback) (s : State) :
  inStep s -> inStep (runCallback cb s).
Proof.
  intros H. destruct cb; cbn [runCallback].
  - destruct (paused s) eqn:Hp; [exact H|]. destruct (ended s); [exact H|].
    apply (inStep_keep s); [reflexivity | reflexivity | exact H].
  - apply inStep_togglePaused.
  - now apply inStep_toggleOverlay.
  - apply (inStep_keep s); [reflexivity | reflexivity | exact H].
Qed.

Lemma inStep_step (s s' : State) (e : Event) :
  startsScrub e = false -> inStep s -> step s e = Some s' -> inStep s'.
Proof.
  intros He H Hstep. destruct e; cbn [step] in Hstep.
  - inversion Hstep; subst. destruct pointerType; cbn [videoPointerDown];
      first [ now apply inStep_mouseDown | now apply inStep_touchDown ].
  - inversion Hstep; subst. destruct pointerType; cbn [videoPointerUp]; try exact H;
      (destruct (negb (controlsHidden s)); [|exact H]);
      (apply (inStep_keep s); [reflexivity | reflexivity | exact H]).
  - inversion Hstep; subst. destruct pointerType; cbn [playerPointerMove];
      first [ now apply inStep_updateHideControls | exact H ].
  - inversion Hstep; subst. now apply inStep_keydown.
  - inversion Hstep; subst. destruct b; cbn [onClick].
    + apply inStep_togglePaused.
    + apply (inStep_other callToggleMute s); [reflexivity .. | exact H].
    + apply (inStep_other callToggleFullscreen s); [reflexivity .. | exact H].
    + apply (inStep_other callToggleSubtitles s); [reflexivity .. | exact H].
  - inversion Hstep; subst. destruct i as [time|time|seeking]; cbn [onSeekBar].
    + now apply inStep_setCurrentTime.
    + apply (inStep_keep s); [reflexivity | reflexivity | exact H].
    + destruct seeking; [discriminate He|]. cbv zeta.
      apply (inStep_told s). reflexivity.
  - inversion Hstep; subst. unfold onEnded. cbv zeta.
    apply inStep_updateHideControls, inStep_updatePaused.
  - inversion Hstep; subst.
    apply (inStep_keep s); [reflexivity | reflexivity | exact H].
  - destruct (Num.leb 0 d); inversion Hstep; subst.
    apply (inStep_keep s); [reflexivity | reflexivity | exact H].
  - destruct (find (fun t => (handle t =? h)%nat) (timers s)) as [t|]; [|discriminate].
    destruct (due t <=? now s)%Z; inversion Hstep; subst.
    apply inStep_runCallback.
    apply (inStep_keep s); [reflexivity | reflexivity | exact H].
  - destruct (0 <=? ms)%Z; inversion Hstep; subst.
    apply (inStep_keep s); [reflexivity | reflexivity | exact H].
Qed.

Lemma inStep_run (events : list Event) :
  forall s s',
    forallb (fun e => negb (startsScrub e)) events = true ->
    inStep s -> run s events = Some s' -> inStep s'.
Proof.
  induction events as [|e rest IH]; intros s s' Hev H Hrun; cbn [run] in Hrun.
  - inversion Hrun; subst. exact H.
  - cbn [forallb] in Hev. apply andb_true_iff in Hev. destruct Hev as [He Hrest].
    apply negb_true_iff in He.
    destruct (step s e) as [s1|] eqn:Hstep; [|discriminate].
    exact (IH s1 s' Hrest (inStep_step s s1 e He H Hstep) Hrun).
Qed.

Lemma seeking_told (seeking : bool) (s : State) :
  effects (onSeekBar (SeekBar.seekingchange seeking) s)
  = (if seeking || paused s then videoPause else videoPlay) :: effects s /\
  paused (onSeekBar (SeekBar.seekingchange seeking) s) = paused s.
Proof. split; reflexivity. Qed.

(** X22. The video element is kept in step with the player: after any
    sequence of events in which no scrub begins, the last of the calls of
    [play()] and [pause()] on the video element was [pause()] if the player
    is paused and [play()] if it is not.  The start of a scrub pauses the
    video without pausing the player, and the end of a scrub puts the two
    in step again. *)
Theorem video_in_step_with_player (o : Options.t) (t0 : Z) (hidden isMobile : bool)
    (events : list Event) (s : State) :
  forallb (fun e => negb (startsScrub e)) events = true ->
  run (connectedCallback (constructed o t0 hidden isMobile)) events = Some s ->
  lastPlayback s = Some (if paused s then videoPause else videoPlay) /\
  (let scrub := onSeekBar (SeekBar.seekingchange true) s in
   lastPlayback scrub = Some videoPause /\ paused scrub = paused s /\
   lastPlayback (onSeekBar (SeekBar.seekingchange false) scrub)
   = Some (if paused s then videoPause else videoPlay)).
Proof.
  intros Hev Hrun. split.
  - apply (inStep_run events (connectedCallback (constructed o t0 hidden isMobile)) s
             Hev); [|exact Hrun].
    unfold connectedCallback. apply inStep_updatePaused.
  - cbv zeta. clear Hev Hrun.
    destruct (seeking_told true s) as (E1 & P1).
    revert E1 P1. generalize (onSeekBar (SeekBar.seekingchange true) s).
    intros scrub E1 P1.
    destruct (seeking_told false scrub) as (E2 & P2).
    revert E2 P2. generalize (onSeekBar (SeekBar.seekingchange false) scrub).
    intros after E2 P2.
    unfold lastPlayback. rewrite E1, E2, P1. cbn [orb find].
    split; [reflexivity|]. split; [reflexivity|]. now destruct (paused s).
Qed.

Lemma video_in_step_with_player_witness :
  lastPlayback (keydown "k" false Samples.mounted) = Some videoPlay.
Proof.
  exact (proj1 (video_in_step_with_player Options.defaults 1700000000000 false false
                  [keyDown "k" false] (keydown "k" false Samples.mounted)
                  eq_refl eq_refl)).
Defined.

End PlaybackClaims.
